(** * feamerge: the variable feature combiner

    A shallow embedding of [combine_feature.py] (class
    [VariableFeatureCombiner]) and the properties of its merge engine:
    the glyph-class parser and merger, the kern parser and combiner, the
    variable value formatter and the output generator.

    Conventions of the embedding.
    - Text is a list of characters; a character is a code point below
      256, so the classes [\s], [\d] and [\w] are Python's Unicode
      classes restricted to that range.
    - A Python [dict] is an association list kept in insertion order
      (assignment to an existing key keeps its position), a Python
      [set] is a duplicate-free list kept in insertion order whose
      iteration order is a parameter, [set_iter].
    - The [re] patterns of the source are terms of a small regular
      expression language run by a backtracking matcher with Python's
      priorities (greedy and lazy repetition, optional groups, capture
      groups, back-references).
    - A raised exception is the result [None] of an [option]. *)

From Stdlib Require Import Ascii String DecimalString.
From Stdlib Require Import ZArith NArith Bool Lia Arith.
From Stdlib Require Import List Permutation Sorted ListSet.
Import ListNotations.

Open Scope string_scope.
Open Scope list_scope.

Set Implicit Arguments.

(** ** Text and characters *)

Abbreviation text := (list ascii).

Definition txt (s : string) : text := list_ascii_of_string s.
Coercion txt : string >-> list.

Definition text_dec : forall a b : text, {a = b} + {a <> b} :=
  list_eq_dec ascii_dec.

Definition code (c : ascii) : N := N_of_ascii c.

Definition in_range (lo hi : N) (c : ascii) : bool :=
  ((lo <=? code c) && (code c <=? hi))%N.

(** [str.isspace], which is also the class [\s] of a [str] pattern. *)
Definition is_space (c : ascii) : bool :=
  in_range 9 13 c || in_range 28 32 c || in_range 133 133 c
  || in_range 160 160 c.

(** The class [\d]. *)
Definition is_digit (c : ascii) : bool := in_range 48 57 c.

(** The class [\w]: alphanumeric characters and the underscore. *)
Definition is_word (c : ascii) : bool :=
  in_range 48 57 c || in_range 65 90 c || in_range 95 95 c
  || in_range 97 122 c || in_range 170 170 c || in_range 178 179 c
  || in_range 181 181 c || in_range 185 186 c || in_range 188 190 c
  || in_range 192 214 c || in_range 216 246 c || in_range 248 255 c.

(** The class [[a-zA-Z0-9_.]] of class names. *)
Definition is_name_char (c : ascii) : bool :=
  in_range 97 122 c || in_range 65 90 c || in_range 48 57 c
  || Ascii.eqb c "_" || Ascii.eqb c ".".

(** The class [.] under [re.DOTALL]. *)
Definition any_char (c : ascii) : bool := true.

(** A negated set [[^...]]. *)
Definition none_of (l : list ascii) (c : ascii) : bool :=
  negb (existsb (Ascii.eqb c) l).

(** [sep.join(l)] *)
Fixpoint join (sep : text) (l : list text) : text :=
  match l with
  | [] => []
  | [x] => x
  | x :: l' => x ++ sep ++ join sep l'
  end.

Fixpoint lstrip (s : text) : text :=
  match s with
  | c :: s' => if is_space c then lstrip s' else s
  | [] => []
  end.

Definition rstrip (s : text) : text := rev (lstrip (rev s)).

(** [s.strip()] *)
Definition strip (s : text) : text := rstrip (lstrip s).

(** [s.split()]: the maximal runs of non-whitespace characters. *)
Fixpoint split (s : text) : list text :=
  match s with
  | [] => []
  | c :: s' =>
      if is_space c then split s'
      else match s' with
           | [] => [[c]]
           | c' :: _ =>
               if is_space c' then [c] :: split s'
               else match split s' with
                    | t :: ts => (c :: t) :: ts
                    | [] => [[c]]
                    end
           end
  end.

(** [str(n)] for an [int]. *)
Definition str_int (z : Z) : text :=
  txt (NilZero.string_of_int (Z.to_int z)).

Fixpoint digits_val (acc : Z) (s : text) : option Z :=
  match s with
  | [] => Some acc
  | c :: s' =>
      if is_digit c
      then digits_val (10 * acc + (Z.of_N (code c) - 48)) s'
      else None
  end.

(** [sys.int_info.default_max_str_digits]: the number of digits above
    which [int] refuses a decimal literal. The program leaves the
    interpreter's default in place. *)
Definition max_str_digits : Z := 4300.

(** The digits of a literal, sign apart: [None] is [ValueError],
    raised for a character that is no digit and for more digits than
    [max_str_digits] (leading zeros count). *)
Definition int_of_digits (ds : text) : option Z :=
  if (max_str_digits <? Z.of_nat (length ds))%Z then None
  else digits_val 0 ds.

(** [int(s)] on a decimal literal with an optional sign; [None] is
    [ValueError]. The other forms [int] accepts (surrounding
    whitespace, underscores between digits) never reach it here: its
    only argument is a match of [-?\d+]. *)
Definition py_int (s : text) : option Z :=
  match s with
  | [] => None
  | c :: ds =>
      if Ascii.eqb c "-" then
        match ds with
        | [] => None
        | _ => option_map Z.opp (int_of_digits ds)
        end
      else if Ascii.eqb c "+" then
        match ds with
        | [] => None
        | _ => int_of_digits ds
        end
      else int_of_digits s
  end.

(** Comparison of [str] values: lexicographic on code points. *)
Fixpoint text_leb (a b : text) : bool :=
  match a, b with
  | [], _ => true
  | _ :: _, [] => false
  | x :: a', y :: b' =>
      if (code x <? code y)%N then true
      else if (code y <? code x)%N then false
      else text_leb a' b'
  end.

Fixpoint insert_sorted (x : text) (l : list text) : list text :=
  match l with
  | [] => [x]
  | y :: l' => if text_leb x y then x :: l else y :: insert_sorted x l'
  end.

(** [sorted(l)] on a list of [str]: a stable sort. *)
Definition sorted (l : list text) : list text :=
  fold_right insert_sorted [] l.

(** ** Dictionaries and sets *)

Section Dict.
Variables K V : Type.
Variable K_dec : forall a b : K, {a = b} + {a <> b}.

Definition dict := list (K * V).

(** [d.get(k)] *)
Fixpoint dict_get (d : dict) (k : K) : option V :=
  match d with
  | [] => None
  | (k', v) :: d' => if K_dec k k' then Some v else dict_get d' k
  end.

(** [k in d] *)
Definition dict_has (d : dict) (k : K) : bool :=
  match dict_get d k with Some _ => true | None => false end.

(** [d[k] = v] *)
Fixpoint dict_set (d : dict) (k : K) (v : V) : dict :=
  match d with
  | [] => [(k, v)]
  | (k', v') :: d' =>
      if K_dec k k' then (k', v) :: d' else (k', v') :: dict_set d' k v
  end.

Definition keys (d : dict) : list K := map fst d.
End Dict.

(** A [set] of [str]: [add] and [update]. *)
Definition pyset := list text.

Definition pyset_add (s : pyset) (x : text) : pyset := set_add text_dec x s.

Definition pyset_update (s : pyset) (l : list text) : pyset :=
  fold_left pyset_add l s.

(** ** Regular expressions *)

Module Re.

Inductive regex : Type :=
| Eps
| Lit (c : ascii)
| Cls (p : ascii -> bool)
| Seq (r1 r2 : regex)
| Opt (r : regex)
| Rep (greedy at_least_one : bool) (p : ascii -> bool)
| Grp (n : nat) (r : regex)
| Ref (n : nat).

(** The literal string [s]. *)
Fixpoint lits (s : text) : regex :=
  match s with
  | [] => Eps
  | c :: s' => Seq (Lit c) (lits s')
  end.

Fixpoint seqs (l : list regex) : regex :=
  match l with
  | [] => Eps
  | [r] => r
  | r :: l' => Seq r (seqs l')
  end.

Definition star p := Rep true false p.
Definition plus p := Rep true true p.
Definition lazy_star p := Rep false false p.
Definition lazy_plus p := Rep false true p.

(** The text of the groups that took part in the match. *)
Definition groups := list (nat * text).

Definition group (gs : groups) (n : nat) : option text :=
  dict_get Nat.eq_dec gs n.

(** What was consumed between the input [s] and its suffix [s']. *)
Definition consumed (s s' : text) : text :=
  firstn (length s - length s') s.

Fixpoint starts_with (t s : text) : option text :=
  match t, s with
  | [], _ => Some s
  | x :: t', y :: s' => if Ascii.eqb y x then starts_with t' s' else None
  | _ :: _, [] => None
  end.

Section Matcher.
Variable A : Type.

Definition or_else (a b : option A) : option A :=
  match a with Some _ => a | None => b end.

(** [p*]: as many characters as possible first. *)
Fixpoint rep_greedy (p : ascii -> bool) (s : text)
    (k : text -> option A) : option A :=
  match s with
  | c :: s' =>
      if p c then or_else (rep_greedy p s' k) (k s) else k s
  | [] => k s
  end.

(** [p*?]: as few characters as possible first. *)
Fixpoint rep_lazy (p : ascii -> bool) (s : text)
    (k : text -> option A) : option A :=
  match k s with
  | Some a => Some a
  | None =>
      match s with
      | c :: s' => if p c then rep_lazy p s' k else None
      | [] => None
      end
  end.

Definition rep (greedy : bool) := if greedy then rep_greedy else rep_lazy.

(** The backtracking matcher: [k] is what remains to be matched
    after [r]; alternatives are tried in Python's order. *)
Fixpoint run (r : regex) (s : text) (gs : groups)
    (k : groups -> text -> option A) : option A :=
  match r with
  | Eps => k gs s
  | Lit c =>
      match s with
      | x :: s' => if Ascii.eqb x c then k gs s' else None
      | [] => None
      end
  | Cls p =>
      match s with
      | x :: s' => if p x then k gs s' else None
      | [] => None
      end
  | Seq r1 r2 => run r1 s gs (fun gs' s' => run r2 s' gs' k)
  | Opt r' => or_else (run r' s gs k) (k gs s)
  | Rep greedy false p => rep greedy p s (k gs)
  | Rep greedy true p =>
      match s with
      | x :: s' => if p x then rep greedy p s' (k gs) else None
      | [] => None
      end
  | Grp n r' =>
      run r' s gs (fun gs' s' => k ((n, consumed s s') :: gs') s')
  | Ref n =>
      match group gs n with
      | Some t =>
          match starts_with t s with
          | Some s' => k gs s'
          | None => None
          end
      | None => None
      end
  end.
End Matcher.

(** A match object: [group(0)] and the numbered groups. *)
Record rmatch : Type := { whole : text; caps : groups }.

(** [pattern.match(s)]: the match that starts at the head of [s],
    with the text left after it. *)
Definition match_at (r : regex) (s : text) : option (rmatch * text) :=
  run r s [] (fun gs s' =>
    Some ({| whole := consumed s s'; caps := gs |}, s')).

(** [re.search]: the leftmost match. *)
Fixpoint search (r : regex) (s : text) : option (rmatch * text) :=
  match match_at r s with
  | Some m => Some m
  | None =>
      match s with
      | [] => None
      | _ :: s' => search r s'
      end
  end.

(** [re.finditer]: the successive non-overlapping matches. Every
    pattern of the source starts with a literal, so a match is never
    empty; the scan steps over one character after an empty match. *)
Fixpoint finditer_from (fuel : nat) (r : regex) (s : text) : list rmatch :=
  match fuel with
  | O => []
  | S fuel' =>
      match search r s with
      | None => []
      | Some (m, rest) =>
          m :: finditer_from fuel' r
                 (match whole m with [] => tl rest | _ => rest end)
      end
  end.

Definition finditer (r : regex) (s : text) : list rmatch :=
  finditer_from (S (length s)) r s.

End Re.

(** ** The patterns of [combine_feature.py] *)

Import Re.

(** The pattern "@([a-zA-Z0-9_.]+)\s*=\s*\[(.*?)\];" with [re.DOTALL] *)
Definition class_pattern : regex :=
  seqs [Lit "@"; Grp 1 (plus is_name_char); star is_space; Lit "=";
        star is_space; Lit "["; Grp 2 (lazy_star any_char); Lit "]";
        Lit ";"].

(** The pattern "feature\s+kern\s*\{(.*?)\}\s*kern;" with [re.DOTALL] *)
Definition kern_pattern : regex :=
  seqs [lits "feature"; plus is_space; lits "kern"; star is_space;
        Lit "{"; Grp 1 (lazy_star any_char); Lit "}"; star is_space;
        lits "kern;"].

(** The pattern of positioning statements, its pieces set apart:
    (enum\s+)?  pos  \s+  ([^(;]+?)  (?: \s* \( ([^)]* ) \) )?
    \s* : \s*  ([^;]+)  ;   *)
Definition pos_pattern : regex :=
  seqs [Opt (Grp 1 (Seq (lits "enum") (plus is_space)));
        lits "pos"; plus is_space;
        Grp 2 (lazy_plus (none_of ["("; ";"]%char));
        Opt (seqs [star is_space; Lit "(";
                   Grp 3 (star (none_of [")"]%char)); Lit ")"]);
        star is_space; Lit ":"; star is_space;
        Grp 4 (plus (none_of [";"]%char)); Lit ";"].

(** The pattern "(-?\d+)" *)
Definition int_pattern : regex :=
  Grp 1 (Seq (Opt (Lit "-")) (plus is_digit)).

(** The pattern "feature\s+(\w+)\s*\{.*?\}\s*\1;" with [re.DOTALL] *)
Definition feature_pattern : regex :=
  seqs [lits "feature"; plus is_space; Grp 1 (plus is_word);
        star is_space; Lit "{"; lazy_star any_char; Lit "}";
        star is_space; Ref 1; Lit ";"].

(** [match.group(n)] for a group that is not inside an optional part,
    and so takes part in every match. *)
Definition group_str (m : rmatch) (n : nat) : text :=
  match group (caps m) n with
  | Some t => t
  | None => []
  end.

(** ** The parsers *)

(** [[g.strip() for g in body.split() if g.strip()]] *)
Definition glyph_tokens (body : text) : list text :=
  map strip (filter (fun g => match strip g with [] => false | _ => true end)
               (split body)).

(** [parse_glyph_classes]: class name to glyph list. *)
Definition parse_glyph_classes (features_text : text)
  : dict text (list text) :=
  fold_left
    (fun classes m =>
       dict_set text_dec classes (group_str m 1)
         (glyph_tokens (group_str m 2)))
    (finditer class_pattern features_text) [].

Record kern_pair : Type := {
  enum : bool;
  glyphs : text;
  conditions : option text;
  value : text
}.

Definition kern_pair_of (m : rmatch) : kern_pair :=
  {| enum := match group (caps m) 1 with Some _ => true | None => false end;
     glyphs := strip (group_str m 2);
     conditions := group (caps m) 3;
     value := strip (group_str m 4) |}.

(** [parse_kern_pairs]: the statements of the first [kern] block. *)
Definition parse_kern_pairs (features_text : text) : list kern_pair :=
  match search kern_pattern features_text with
  | Some (kern_match, _) =>
      map kern_pair_of (finditer pos_pattern (group_str kern_match 1))
  | None => []
  end.

(** ** The combiner *)

Definition pair_key := (text * bool)%type.

Definition pair_key_dec : forall a b : pair_key, {a = b} + {a <> b}.
Proof. decide equality; [apply bool_dec | apply text_dec]. Defined.

(** The value of a [defaultdict] at [k]. *)
Definition dict_default (K V : Type) (K_dec : forall a b : K, {a = b} + {a <> b})
    (d : dict K V) (k : K) (dflt : V) : V :=
  match dict_get K_dec d k with
  | Some v => v
  | None => dflt
  end.

(** [all_kern_pairs]: merge key to (master identifier to value). *)
Definition kern_table := dict pair_key (dict text Z).

(** The body of the loop over one master's pairs; [None] is an
    exception raised by [int]. *)
Definition add_kern_pair (master_name : text) (acc : option kern_table)
    (pair : kern_pair) : option kern_table :=
  match acc with
  | None => None
  | Some all_kern_pairs =>
      let pair_key := (glyphs pair, enum pair) in
      match search int_pattern (value pair) with
      | Some (value_match, _) =>
          match py_int (group_str value_match 1) with
          | Some numeric_value =>
              Some (dict_set pair_key_dec all_kern_pairs pair_key
                      (dict_set text_dec
                         (dict_default pair_key_dec all_kern_pairs pair_key [])
                         master_name numeric_value))
          | None => None
          end
      | None => Some all_kern_pairs
      end
  end.

(** The body of the inner loop of [merge_classes]:
    [all_classes[class_name].update(glyphs)] on a [defaultdict(set)]. *)
Definition add_class (all_classes : dict text pyset) (cls : text * list text)
  : dict text pyset :=
  dict_set text_dec all_classes (fst cls)
    (pyset_update (dict_default text_dec all_classes (fst cls) []) (snd cls)).

Section Combiner.

(** The type of an axis coordinate and its rendering by an f-string. *)
Variable coord : Type.
Variable str_coord : coord -> text.

(** The iteration order of a [set], given in insertion order. *)
Variable set_iter : pyset -> list text.

(** An entry of [masters_data] (the [font] field plays no part). *)
Record master : Type := {
  location : dict text coord;
  features : text
}.

Definition masters := dict text master.

(** [merge_classes], first loop: [all_classes]. *)
Definition collect_classes (masters_data : masters) : dict text pyset :=
  fold_left
    (fun all_classes entry =>
       fold_left add_class (parse_glyph_classes (features (snd entry)))
         all_classes)
    masters_data [].

(** [merge_classes]: the value left in [combined_classes]. *)
Definition merge_classes (masters_data : masters) : dict text (list text) :=
  map (fun entry => (fst entry, sorted (set_iter (snd entry))))
    (collect_classes masters_data).

(** The body of the loop of [format_variable_value]: what one entry of
    [master_values] adds to [coordinate_values]. *)
Definition coordinate_value (masters_data : masters) (entry : text * Z)
  : list text :=
  match dict_get text_dec masters_data (fst entry) with
  | Some data =>
      let coords :=
        map (fun axis => fst axis ++ txt "=" ++ str_coord (snd axis))
          (location data) in
      match coords with
      | [] => []
      | _ => [join " " coords ++ txt ":" ++ str_int (snd entry)]
      end
  | None => []
  end.

(** [format_variable_value] *)
Definition format_variable_value (masters_data : masters)
    (master_values : dict text Z) : text :=
  match master_values with
  | [] => txt "0"
  | _ =>
      let coordinate_values :=
        flat_map (coordinate_value masters_data) master_values in
      match coordinate_values with
      | [] => txt "0"
      | _ => join " " coordinate_values
      end
  end.

(** [combine_kern_features], first loop. *)
Definition collect_kern_pairs (masters_data : masters) : option kern_table :=
  fold_left
    (fun acc entry =>
       fold_left (add_kern_pair (fst entry))
         (parse_kern_pairs (features (snd entry))) acc)
    masters_data (Some []).

Definition kern_statement (key : pair_key) (variable_value : text) : text :=
  txt "    " ++ (if snd key then txt "enum " else txt "") ++ txt "pos "
  ++ fst key ++ txt " (" ++ variable_value ++ txt ");".

(** [combine_kern_features], second loop. *)
Definition kern_statements (masters_data : masters) (all_kern_pairs : kern_table)
  : list text :=
  flat_map
    (fun entry =>
       let variable_value := format_variable_value masters_data (snd entry) in
       if text_dec variable_value "0" then []
       else [kern_statement (fst entry) variable_value])
    all_kern_pairs.

(** [combine_kern_features] *)
Definition combine_kern_features (masters_data : masters)
  : option (list text) :=
  option_map (kern_statements masters_data) (collect_kern_pairs masters_data).

Definition class_line (entry : text * list text) : text :=
  txt "@" ++ fst entry ++ txt " = [" ++ join " " (snd entry) ++ txt "];".

(** The lines of the glyph-class section. *)
Definition class_section (combined_classes : dict text (list text))
  : list text :=
  match combined_classes with
  | [] => []
  | _ => [txt "# Glyph class definitions"]
         ++ map class_line combined_classes ++ [txt ""]
  end.

Definition kern_section (kern_lines : list text) : list text :=
  match kern_lines with
  | [] => []
  | _ => [txt "feature kern {"] ++ kern_lines ++ [txt "} kern;"; txt ""]
  end.

(** The [set] of the texts of the feature blocks other than [kern]. *)
Definition other_features (masters_data : masters) : pyset :=
  fold_left
    (fun acc entry =>
       fold_left
         (fun acc m =>
            if text_dec (group_str m 1) "kern" then acc
            else pyset_add acc (whole m))
         (finditer feature_pattern (features (snd entry))) acc)
    masters_data [].

Definition other_section (masters_data : masters) : list text :=
  flat_map (fun feature => [feature; txt ""])
    (set_iter (other_features masters_data)).

Definition header : list text :=
  [txt "# Variable features.fea generated from designspace masters";
   txt "# Combined from UFO sources in designspace";
   txt ""].

(** [generate_variable_features], with [combined_classes] as
    [merge_classes] left it. *)
Definition generate_variable_features (masters_data : masters)
  : option text :=
  match combine_kern_features masters_data with
  | Some kern_lines =>
      Some (join (txt (String "010" ""))
              (header
               ++ class_section (merge_classes masters_data)
               ++ kern_section kern_lines
               ++ other_section masters_data))
  | None => None
  end.

End Combiner.

Arguments location {coord} _.
Arguments features {coord} _.
Arguments Build_master {coord} _ _.

(** ** Notions used to state the properties *)

Fixpoint take_while (p : ascii -> bool) (s : text) : text :=
  match s with
  | c :: s' => if p c then c :: take_while p s' else []
  | [] => []
  end.

Fixpoint drop_while (p : ascii -> bool) (s : text) : text :=
  match s with
  | c :: s' => if p c then drop_while p s' else s
  | [] => []
  end.

Definition not_space (c : ascii) : bool := negb (is_space c).

(** [s] is whitespace-delimited into the tokens [toks], in order. *)
Inductive tokenises : text -> list text -> Prop :=
| tokenises_nil : forall w,
    forallb is_space w = true -> tokenises w []
| tokenises_cons : forall w t rest toks,
    forallb is_space w = true ->
    t <> [] -> forallb not_space t = true ->
    match rest with [] => True | c :: _ => is_space c = true end ->
    tokenises rest toks ->
    tokenises (w ++ t ++ rest) (t :: toks).

(** The first signed integer literal of [s], read off the text: an
    optional minus sign and the run of digits that follows it. *)
Fixpoint first_int_literal (s : text) : option text :=
  match s with
  | [] => None
  | c :: s' =>
      if is_digit c then Some (c :: take_while is_digit s')
      else if Ascii.eqb c "-" then
        match s' with
        | d :: s'' =>
            if is_digit d then Some (c :: d :: take_while is_digit s'')
            else first_int_literal s'
        | [] => None
        end
      else first_int_literal s'
  end.

(** The distinct elements of [l] in the order of their first
    occurrence. *)
Fixpoint first_seen (l : list text) : list text :=
  match l with
  | [] => []
  | x :: l' =>
      x :: filter (fun y => if text_dec y x then false else true)
             (first_seen l')
  end.

Definition text_le (a b : text) : Prop := text_leb a b = true.

(** A class name as the class pattern admits it. *)
Definition valid_name (n : text) : Prop :=
  n <> [] /\ forallb is_name_char n = true.

(** No suffix of [t] starts with the closing "];" of a declaration. *)
Definition no_close (t : text) : Prop :=
  forall a b, t = a ++ b -> starts_with (txt "];") b = None.

(** A glyph token as the class parser produces it. *)
Definition valid_token (t : text) : Prop :=
  t <> [] /\ forallb not_space t = true /\ no_close t.

(** The class pattern as a scanner: what a match that starts at the
    head of [s] is, step by step. *)
Fixpoint find_close (s : text) : option (text * text) :=
  match starts_with (txt "];") s with
  | Some rest => Some ([], rest)
  | None =>
      match s with
      | c :: s' =>
          match find_close s' with
          | Some (body, rest) => Some (c :: body, rest)
          | None => None
          end
      | [] => None
      end
  end.

Definition class_scan (s : text) : option (rmatch * text) :=
  match s with
  | c :: s1 =>
      if Ascii.eqb c "@" then
        match take_while is_name_char s1 with
        | [] => None
        | name =>
            match drop_while is_space (drop_while is_name_char s1) with
            | c2 :: s3 =>
                if Ascii.eqb c2 "=" then
                  match drop_while is_space s3 with
                  | c3 :: s4 =>
                      if Ascii.eqb c3 "[" then
                        match find_close s4 with
                        | Some (body, rest) =>
                            Some ({| whole := consumed s rest;
                                     caps := [(2, body); (1, name)] |}, rest)
                        | None => None
                        end
                      else None
                  | [] => None
                  end
                else None
            | [] => None
            end
        end
      else None
  | [] => None
  end.

(** An iteration order of sets lists the elements of the set. *)
Definition iteration_order (set_iter : pyset -> list text) : Prop :=
  forall s, Permutation (set_iter s) s.

(** Some master declares a class [name]. *)
Definition declares (coord : Type) (masters_data : masters coord)
    (name : text) : Prop :=
  exists master_name data toks,
    In (master_name, data) masters_data
    /\ dict_get text_dec (parse_glyph_classes (features data)) name
       = Some toks.

(** Glyph [g] is in the class [name] of some master. *)
Definition declared_in (coord : Type) (masters_data : masters coord)
    (name g : text) : Prop :=
  exists master_name data toks,
    In (master_name, data) masters_data
    /\ dict_get text_dec (parse_glyph_classes (features data)) name
       = Some toks
    /\ In g toks.

(** The class declarations of all masters, in processing order. *)
Definition class_items (coord : Type) (masters_data : masters coord)
  : list (text * list text) :=
  flat_map (fun entry => parse_glyph_classes (features (snd entry)))
    masters_data.

(** Glyph [g] is in the set that [d] holds for [name]. *)
Definition member (d : dict text pyset) (name g : text) : Prop :=
  exists s, dict_get text_dec d name = Some s /\ In g s.

(** A class table as the merger builds it: distinct valid names, each
    with valid tokens. *)
Definition valid_table (d : dict text (list text)) : Prop :=
  NoDup (keys d)
  /\ forall name toks, In (name, toks) d ->
                       valid_name name /\ Forall valid_token toks.

(** The match object of a rendered class declaration. *)
Definition line_match (entry : text * list text) : rmatch :=
  {| whole := class_line entry;
     caps := [(2, join " " (snd entry)); (1, fst entry)] |}.

Definition not_in (l : list text) (x : text) : bool :=
  if in_dec text_dec x l then false else true.

(** The texts of the feature blocks other than [kern] of all masters,
    in the order the scan meets them. *)
Definition block_texts (coord : Type) (masters_data : masters coord)
  : list text :=
  flat_map
    (fun entry =>
       map (@whole)
         (filter (fun m => if text_dec (group_str m 1) "kern"
                           then false else true)
            (finditer feature_pattern (features (snd entry)))))
    masters_data.

(** The numeric value of a kern statement, when it has one. *)
Definition kern_value (value_text : text) : option Z :=
  match first_int_literal value_text with
  | Some literal => py_int literal
  | None => None
  end.

(** The number of digits of an integer literal. *)
Definition digit_count (literal : text) : Z :=
  Z.of_nat (length (filter is_digit literal)).

(** The value text of a kern statement whose first integer literal
    has more digits than [int] accepts. *)
Definition too_long (value_text : text) : bool :=
  match first_int_literal value_text with
  | Some literal => (max_str_digits <? digit_count literal)%Z
  | None => false
  end.

(** Some kern statement of some master has such a value text. *)
Definition limit_exceeded (coord : Type) (masters_data : masters coord)
  : bool :=
  existsb
    (fun entry =>
       existsb (fun pair => too_long (value pair))
         (parse_kern_pairs (features (snd entry))))
    masters_data.

(** ** Scenarios *)

Definition newline : text := [ascii_of_nat 10].

Definition at_weight (w : Z) (features_text : text) : master Z :=
  {| location := [(txt "wght", w)]; features := features_text |}.

(** Two masters with the same pair ("Scenario 1"). *)
Definition scenario_light_bold : masters Z :=
  [(txt "Light", at_weight 100 "feature kern { pos A V : -50 ; } kern;");
   (txt "Bold", at_weight 900 "feature kern { pos A V : -80 ; } kern;")].

(** Two masters whose glyph specifications differ in whitespace. *)
Definition scenario_whitespace : masters Z :=
  [(txt "Light", at_weight 100 "feature kern { pos A V : -50 ; } kern;");
   (txt "Bold", at_weight 900 "feature kern { pos A  V : -80 ; } kern;")].

(** Two masters that declare the same class ("Scenario 2"). *)
Definition scenario_uppercase : masters Z :=
  [(txt "Light", at_weight 100 "@UPPERCASE = [A B];");
   (txt "Bold", at_weight 900 "@UPPERCASE = [C D];")].

(** A master whose kern value holds no integer ("Scenario 3"). *)
Definition scenario_non_numeric : masters Z :=
  [(txt "Light", at_weight 100 "feature kern { pos A V : -50 ; } kern;");
   (txt "Bold", at_weight 900 "feature kern { pos A V : <none> ; } kern;")].

Definition pair_A_V (value_text : text) : kern_pair :=
  {| enum := false; glyphs := "A V"; conditions := None;
     value := value_text |}.

Definition pair_A__V (value_text : text) : kern_pair :=
  {| enum := false; glyphs := "A  V"; conditions := None;
     value := value_text |}.

(** A master that declares class [B] before class [A]. *)
Definition scenario_class_order : masters Z :=
  [(txt "Regular", at_weight 400 (txt "@B = [x];" ++ newline ++ txt "@A = [y];"))].

(** A master with two feature blocks other than [kern]. *)
Definition liga_block : text := "feature liga { sub f i by f_i; } liga;".
Definition calt_block : text := "feature calt { sub a by b; } calt;".

Definition scenario_two_blocks : masters Z :=
  [(txt "Regular", at_weight 400 (liga_block ++ newline ++ calt_block))].

(** A master whose only location is the empty one, and one whose kern
    value is zero at a real location. *)
Definition scenario_zero : masters Z :=
  [(txt "Default", {| location := [];
                      features := "feature kern { pos A V : -50 ; } kern;" |});
   (txt "Bold", at_weight 900 "feature kern { pos T o : 0 ; } kern;")].

(** A master whose kern value is a literal of 4301 digits. *)
Definition long_literal : text := repeat "1"%char 4301.

Definition scenario_long_literal : masters Z :=
  [(txt "Light",
    at_weight 100
      (txt "feature kern { pos A V : " ++ long_literal ++ txt "; } kern;"))].

(** An iteration order of sets: last added first. *)
Definition newest_first (s : pyset) : list text := rev s.

(** An iteration order of sets: insertion order. *)
Definition oldest_first (s : pyset) : list text := s.

(** ** What a match is *)

(** [matches r w gs gs']: the expression [r] matches exactly the text
    [w], taking the groups from [gs] to [gs']. This is what a match
    is, whatever the order in which the matcher tries alternatives. *)
Inductive matches : regex -> text -> groups -> groups -> Prop :=
| matches_eps : forall gs, matches Eps [] gs gs
| matches_lit : forall c gs, matches (Lit c) [c] gs gs
| matches_cls : forall (p : ascii -> bool) x gs,
    p x = true -> matches (Cls p) [x] gs gs
| matches_seq : forall r1 r2 w1 w2 gs gs1 gs2,
    matches r1 w1 gs gs1 -> matches r2 w2 gs1 gs2 ->
    matches (Seq r1 r2) (w1 ++ w2) gs gs2
| matches_opt_some : forall r w gs gs',
    matches r w gs gs' -> matches (Opt r) w gs gs'
| matches_opt_none : forall r gs, matches (Opt r) [] gs gs
| matches_rep : forall greedy at_least_one (p : ascii -> bool) w gs,
    forallb p w = true ->
    (at_least_one = true -> w <> []) ->
    matches (Rep greedy at_least_one p) w gs gs
| matches_grp : forall n r w gs gs',
    matches r w gs gs' -> matches (Grp n r) w gs ((n, w) :: gs')
| matches_ref : forall n t gs,
    group gs n = Some t -> matches (Ref n) t gs gs.

(** The least number of characters a match of [r] holds. *)
Fixpoint min_len (r : regex) : nat :=
  match r with
  | Eps => 0
  | Lit _ => 1
  | Cls _ => 1
  | Seq r1 r2 => min_len r1 + min_len r2
  | Opt _ => 0
  | Rep _ at_least_one _ => if at_least_one then 1 else 0
  | Grp _ r' => min_len r'
  | Ref _ => 0
  end.

(** [scan r s ms]: [ms] are the successive non-empty results of
    [search], each sought in what the one before left, up to the point
    where [search] finds nothing. *)
Inductive scan (r : regex) : text -> list rmatch -> Prop :=
| scan_end : forall s, search r s = None -> scan r s []
| scan_next : forall s m rest ms,
    search r s = Some (m, rest) -> whole m <> [] ->
    scan r rest ms -> scan r s (m :: ms).

(** No match of [r] starts at the head of [s]. *)
Definition no_match_at (r : regex) (s : text) : Prop :=
  forall w rest gs, s = w ++ rest -> ~ matches r w [] gs.

(** [leftmost r s ms]: what a scan of [s] for [r] has to return, in
    terms of what a match is. Each element of [ms] in turn is a
    non-empty match of [r] that starts at the first position, in what
    the one before left, where a match of [r] starts at all; and no
    match of [r] starts anywhere in what the last one left. *)
Inductive leftmost (r : regex) : text -> list rmatch -> Prop :=
| leftmost_end : forall s,
    (forall skipped rest, s = skipped ++ rest -> no_match_at r rest) ->
    leftmost r s []
| leftmost_next : forall skipped m rest ms,
    (forall a b, skipped = a ++ b -> b <> [] ->
                 no_match_at r (b ++ whole m ++ rest)) ->
    whole m <> [] ->
    matches r (whole m) [] (caps m) ->
    leftmost r rest ms ->
    leftmost r (skipped ++ whole m ++ rest) (m :: ms).

(** No whitespace at either end. *)
Definition trimmed (t : text) : Prop :=
  match t with [] => True | c :: _ => is_space c = false end
  /\ match rev t with [] => True | c :: _ => is_space c = false end.

(** The distinct elements of a list in the order of their first
    occurrence, for any type with a decidable equality. *)
Section FirstSeenBy.
Variable A : Type.
Variable A_dec : forall a b : A, {a = b} + {a <> b}.

Fixpoint first_seen_by (l : list A) : list A :=
  match l with
  | [] => []
  | x :: l' =>
      x :: filter (fun y => if A_dec y x then false else true)
             (first_seen_by l')
  end.
End FirstSeenBy.

(** The merge key of a statement, when the statement has a numeric
    value. *)
Definition numeric_key (pair : kern_pair) : list pair_key :=
  match kern_value (value pair) with
  | Some _ => [(glyphs pair, enum pair)]
  | None => []
  end.

(** The merge keys of the statements that have a numeric value, in
    the order the combiner meets them. *)
Definition kern_keys (coord : Type) (masters_data : masters coord)
  : list pair_key :=
  flat_map
    (fun entry => flat_map numeric_key (parse_kern_pairs (features (snd entry))))
    masters_data.

(** ** Loading the masters *)

(** A source of the designspace document, as [load_ufo_features] reads
    it: [path], [filename] and [location], each possibly [None]. *)
Record source (coord : Type) : Type := {
  source_path : option text;
  source_filename : option text;
  source_location : option (dict text coord)
}.

Arguments source_path {coord} _.
Arguments source_filename {coord} _.
Arguments source_location {coord} _.

(** What [Font.open(ufo_path)] followed by the read of
    [font.features.text] gives: an exception with its message, or the
    features text, [None] when the font has none. *)
Inductive font_result : Type :=
| font_error (message : text)
| font_ok (features_text : option text).

(** The value of an optional [str] when it is truthy. *)
Definition truthy (s : option text) : option text :=
  match s with
  | Some (c :: t) => Some (c :: t)
  | _ => None
  end.

Section Loader.
Variable coord : Type.

(** [os.path.exists] *)
Variable path_exists : text -> bool.

(** [Font.open] and the read of the features text. *)
Variable font_open : text -> font_result.

(** [os.path.normpath(os.path.join(os.path.dirname(designspace_path),
    filename))] *)
Variable beside_designspace : text -> text.

(** [masters_data] and the lines printed so far. *)
Record loader_state : Type := {
  loaded : masters coord;
  printed : list text
}.

(** From the existence test on: the body of the loop for a source
    whose font is at [ufo_path] and whose identifier is [key]. *)
Definition load_at (st : loader_state) (src : source coord)
    (ufo_path key : text) : loader_state :=
  if path_exists ufo_path then
    match font_open ufo_path with
    | font_ok features_text =>
        let features_content :=
          match truthy features_text with Some t => t | None => [] end in
        let location :=
          match source_location src with Some l => l | None => [] end in
        {| loaded := dict_set text_dec (loaded st) key
                       {| location := location;
                          features := features_content |};
           printed := printed st |}
    | font_error e =>
        {| loaded := loaded st;
           printed := printed st
                      ++ [txt "Error loading UFO " ++ ufo_path ++ txt ": "
                          ++ e] |}
    end
  else
    {| loaded := loaded st;
       printed := printed st ++ [txt "Warning: UFO not found at " ++ ufo_path] |}.

(** The body of the loop of [load_ufo_features]. The identifier is
    [source.filename or source.path]. *)
Definition load_source (st : loader_state) (src : source coord)
  : loader_state :=
  match truthy (source_path src), truthy (source_filename src) with
  | Some p, Some f => load_at st src p f
  | Some p, None => load_at st src p p
  | None, Some f => load_at st src (beside_designspace f) f
  | None, None => st
  end.

(** [load_ufo_features] *)
Definition load_ufo_features (sources : list (source coord))
    (st : loader_state) : loader_state :=
  fold_left load_source sources st.

(** The font path and the identifier of a source that ends in
    [masters_data], with the entry stored for it. *)
Definition registers (src : source coord) : option (text * master coord) :=
  match
    match truthy (source_path src), truthy (source_filename src) with
    | Some p, Some f => Some (p, f)
    | Some p, None => Some (p, p)
    | None, Some f => Some (beside_designspace f, f)
    | None, None => None
    end
  with
  | Some (ufo_path, key) =>
      if path_exists ufo_path then
        match font_open ufo_path with
        | font_ok features_text =>
            Some (key,
                  {| location := match source_location src with
                                 | Some l => l
                                 | None => []
                                 end;
                     features := match truthy features_text with
                                 | Some t => t
                                 | None => []
                                 end |})
        | font_error _ => None
        end
      else None
  | None => None
  end.

(** The entries stored for a list of sources, in order. *)
Definition registered (sources : list (source coord))
  : list (text * master coord) :=
  flat_map (fun src => match registers src with
                       | Some e => [e]
                       | None => []
                       end)
    sources.

(** The state [__init__] leaves: no master, nothing printed. *)
Definition loader_start : loader_state :=
  {| loaded := []; printed := [] |}.

End Loader.

Arguments loaded {coord} _.
Arguments printed {coord} _.
Arguments loader_start {coord}.

(** ** A loading scenario *)

(** A file system where every path exists but "Missing.ufo". *)
Definition demo_exists (p : text) : bool :=
  if text_dec p "Missing.ufo" then false else true.

(** Fonts that open, but for "Broken.ufo". *)
Definition demo_open (p : text) : font_result :=
  if text_dec p "Broken.ufo" then font_error "bad plist"
  else if text_dec p "Bold.ufo" then font_ok (Some (txt "@A = [y];"))
  else font_ok (Some (txt "@A = [x];")).

Definition demo_beside (filename : text) : text := txt "fonts/" ++ filename.

Definition demo_source (path filename : string) (w : Z) : source Z :=
  {| source_path := Some (txt path);
     source_filename := Some (txt filename);
     source_location := Some [(txt "wght", w)] |}.

(** * Properties *)

(** ** Lists, dictionaries and text *)

Lemma flat_map_filter_nil (A B : Type) (f : A -> list B) (q : A -> bool) l :
  (forall x, q x = false -> f x = []) ->
  flat_map f (filter q l) = flat_map f l.
Proof.
  intros Hq. induction l as [|x l IH]; simpl; [reflexivity|].
  destruct (q x) eqn:E; simpl; rewrite IH; [reflexivity|].
  now rewrite (Hq x E).
Qed.

Lemma flat_map_all_nil (A B : Type) (f : A -> list B) l :
  (forall x, In x l -> f x = []) -> flat_map f l = [].
Proof.
  induction l as [|x l IH]; simpl; intros H; [reflexivity|].
  rewrite (H x (or_introl eq_refl)), IH; auto.
Qed.

Lemma join_cons_length sep x l : length x <= length (join sep (x :: l)).
Proof.
  destruct l; simpl; [lia|]. rewrite length_app. lia.
Qed.

Lemma join_cons_cons sep x y l :
  join sep (x :: y :: l) = x ++ sep ++ join sep (y :: l).
Proof. reflexivity. Qed.

Lemma fragment_length (tag c v : text) (cs : list text) :
  2 <= length (join " " ((tag ++ txt "=" ++ c) :: cs) ++ txt ":" ++ v).
Proof.
  pose proof (join_cons_length " " (tag ++ txt "=" ++ c) cs) as H.
  rewrite !length_app in *. change (length (txt "=")) with 1 in H.
  change (length (txt ":")) with 1. lia.
Qed.

Section DictFacts.
Variables K V : Type.
Variable K_dec : forall a b : K, {a = b} + {a <> b}.

Lemma dict_get_set_same (d : dict K V) k v :
  dict_get K_dec (dict_set K_dec d k v) k = Some v.
Proof.
  induction d as [|[k' v'] d IH]; simpl.
  - destruct (K_dec k k); congruence.
  - destruct (K_dec k k') as [->|N]; simpl.
    + destruct (K_dec k' k'); congruence.
    + destruct (K_dec k k'); congruence.
Qed.

Lemma dict_get_set_other (d : dict K V) k k' v :
  k' <> k -> dict_get K_dec (dict_set K_dec d k v) k' = dict_get K_dec d k'.
Proof.
  intros N. induction d as [|[k0 v0] d IH]; simpl.
  - destruct (K_dec k' k); congruence.
  - destruct (K_dec k k0) as [->|N0]; simpl.
    + destruct (K_dec k' k0); congruence.
    + destruct (K_dec k' k0); congruence.
Qed.

Lemma keys_dict_set (d : dict K V) k v :
  keys (dict_set K_dec d k v)
  = if dict_has K_dec d k then keys d else keys d ++ [k].
Proof.
  unfold dict_has. induction d as [|[k0 v0] d IH]; simpl; [reflexivity|].
  destruct (K_dec k k0) as [->|N]; simpl; [reflexivity|].
  rewrite IH. now destruct (dict_get K_dec d k).
Qed.

Lemma dict_get_In (d : dict K V) k v :
  dict_get K_dec d k = Some v -> In (k, v) d.
Proof.
  induction d as [|[k0 v0] d IH]; simpl; [discriminate|].
  destruct (K_dec k k0) as [->|N]; intros H.
  - injection H as ->. now left.
  - right. auto.
Qed.

Lemma dict_get_None (d : dict K V) k :
  dict_get K_dec d k = None <-> ~ In k (keys d).
Proof.
  induction d as [|[k0 v0] d IH]; simpl; [tauto|].
  destruct (K_dec k k0) as [->|N].
  - split; [discriminate|]. intros H. exfalso. apply H. now left.
  - rewrite IH. split; intros H; [intros [E|I]; [congruence|tauto]|tauto].
Qed.

Lemma In_dict_get (d : dict K V) k v :
  NoDup (keys d) -> In (k, v) d -> dict_get K_dec d k = Some v.
Proof.
  induction d as [|[k0 v0] d IH]; simpl; [tauto|].
  intros ND [E|I].
  - injection E as -> ->. destruct (K_dec k k); congruence.
  - inversion ND as [|? ? Hn ND']; subst.
    destruct (K_dec k k0) as [->|N]; [|auto].
    exfalso. apply Hn. change k0 with (fst (k0, v)). now apply in_map.
Qed.

Lemma NoDup_keys_dict_set (d : dict K V) k v :
  NoDup (keys d) -> NoDup (keys (dict_set K_dec d k v)).
Proof.
  intros ND. rewrite keys_dict_set. unfold dict_has.
  destruct (dict_get K_dec d k) eqn:E; [assumption|].
  apply dict_get_None in E.
  apply NoDup_app; [assumption | repeat constructor; simpl; tauto |].
  intros x Hx [<-|[]]. tauto.
Qed.

Lemma dict_get_map (W : Type) (f : V -> W) (d : dict K V) k :
  dict_get K_dec (map (fun e => (fst e, f (snd e))) d) k
  = option_map f (dict_get K_dec d k).
Proof.
  induction d as [|[k0 v0] d IH]; simpl; [reflexivity|].
  now destruct (K_dec k k0).
Qed.

Lemma keys_map (W : Type) (f : V -> W) (d : dict K V) :
  keys (map (fun e => (fst e, f (snd e))) d) = keys d.
Proof.
  unfold keys. rewrite map_map. reflexivity.
Qed.

End DictFacts.

(** ** The variable value formatter *)

Section Formatter.
Variable coord : Type.
Variable str_coord : coord -> text.
Variable masters_data : masters coord.

Let fmt := format_variable_value str_coord masters_data.
Let frag := coordinate_value str_coord masters_data.

Lemma coordinate_value_unregistered entry :
  dict_has text_dec masters_data (fst entry) = false -> frag entry = [].
Proof.
  unfold frag, coordinate_value, dict_has.
  now destruct (dict_get text_dec masters_data (fst entry)).
Qed.

Lemma coordinate_value_empty_location entry data :
  dict_get text_dec masters_data (fst entry) = Some data ->
  location data = [] -> frag entry = [].
Proof.
  unfold frag, coordinate_value. intros -> ->. reflexivity.
Qed.

Lemma coordinate_value_located entry data :
  dict_get text_dec masters_data (fst entry) = Some data ->
  location data <> [] ->
  exists f, frag entry = [f] /\ 2 <= length f.
Proof.
  unfold frag, coordinate_value. intros -> Hl.
  destruct (location data) as [|ax l]; [congruence|].
  cbn [map]. eexists. split; [reflexivity|].
  apply fragment_length.
Qed.

Lemma format_of_fragments master_values :
  fmt master_values
  = match flat_map frag master_values with
    | [] => txt "0"
    | fs => join " " fs
    end.
Proof.
  unfold fmt, frag, format_variable_value.
  destruct master_values as [|e l]; [reflexivity|].
  now destruct (flat_map (coordinate_value str_coord masters_data) (e :: l)).
Qed.

Lemma format_no_fragment master_values :
  flat_map frag master_values = [] -> fmt master_values = txt "0".
Proof. intros H. now rewrite format_of_fragments, H. Qed.

Lemma format_some_fragment master_values entry data :
  In entry master_values ->
  dict_get text_dec masters_data (fst entry) = Some data ->
  location data <> [] ->
  fmt master_values <> txt "0".
Proof.
  intros Hin Hget Hloc. rewrite format_of_fragments.
  destruct (coordinate_value_located entry Hget Hloc) as (f & Hf & Hlen).
  assert (Hf' : In f (flat_map frag master_values)).
  { apply in_flat_map. exists entry. rewrite Hf. simpl. auto. }
  destruct (flat_map frag master_values) as [|f0 fs] eqn:E; [destruct Hf'|].
  assert (Hall : forall g, In g (flat_map frag master_values) -> 2 <= length g).
  { intros g Hg. apply in_flat_map in Hg. destruct Hg as (e & _ & Hg).
    unfold frag, coordinate_value in Hg.
    destruct (dict_get text_dec masters_data (fst e)) as [d|] eqn:Ed;
      [|destruct Hg].
    destruct (location d) as [|ax l] eqn:El; [destruct Hg|].
    assert (Hne : location d <> []) by congruence.
    destruct (coordinate_value_located e Ed Hne) as (f' & Hf1 & Hl1).
    unfold frag, coordinate_value in Hf1. rewrite Ed, El in Hf1.
    rewrite Hf1 in Hg. destruct Hg as [<-|[]]. exact Hl1. }
  rewrite E in Hall.
  pose proof (join_cons_length " " f0 fs) as Hj.
  pose proof (Hall f0 (or_introl eq_refl)) as H0.
  intros Heq. rewrite Heq in Hj. simpl in Hj. lia.
Qed.

End Formatter.

(** C10. An entry of the value mapping whose master identifier is not
    registered adds no fragment: formatting a mapping and formatting
    its registered entries give the same string, and when no
    identifier is registered the string is "0". No case raises. *)
Theorem unregistered_master_skipped :
  forall (coord : Type) (str_coord : coord -> text)
         (masters_data : masters coord) (master_values : dict text Z),
    (forall entry,
        dict_has text_dec masters_data (fst entry) = false ->
        coordinate_value str_coord masters_data entry = [])
    /\ format_variable_value str_coord masters_data master_values
       = format_variable_value str_coord masters_data
           (filter (fun entry => dict_has text_dec masters_data (fst entry))
              master_values)
    /\ (forallb (fun entry => negb (dict_has text_dec masters_data (fst entry)))
          master_values = true ->
        format_variable_value str_coord masters_data master_values = txt "0").
Proof.
  intros coord str_coord md mv.
  split; [apply coordinate_value_unregistered|].
  split.
  - rewrite !format_of_fragments.
    rewrite flat_map_filter_nil; [reflexivity|].
    apply coordinate_value_unregistered.
  - intros H. apply format_no_fragment. apply flat_map_all_nil.
    intros e He. apply coordinate_value_unregistered.
    rewrite forallb_forall in H. specialize (H e He).
    now destruct (dict_has text_dec md (fst e)).
Qed.

Lemma unregistered_master_skipped_example :
  format_variable_value str_int scenario_light_bold
    [(txt "Medium", 5%Z); (txt "Bold", (-80)%Z)]
  = txt "wght=900:-80"
  /\ format_variable_value str_int scenario_light_bold
       [(txt "Medium", 5%Z); (txt "Black", 7%Z)]
     = txt "0".
Proof.
  destruct (unregistered_master_skipped str_int scenario_light_bold
              [(txt "Medium", 5%Z); (txt "Bold", (-80)%Z)]) as (_ & H1 & _).
  destruct (unregistered_master_skipped str_int scenario_light_bold
              [(txt "Medium", 5%Z); (txt "Black", 7%Z)]) as (_ & _ & H2).
  split.
  - rewrite H1. vm_compute. reflexivity.
  - apply H2. vm_compute. reflexivity.
Defined.

(** ** The kern combiner *)

(** C2. The kern block holds a statement for a merged entry exactly
    when the entry's formatted value is not the string "0". An entry
    all of whose masters have an empty location formats to "0" and is
    dropped; an entry with a master at a non-empty location never
    formats to "0", and the value zero of one master at one axis
    position formats as "axis=coord:0". *)
Theorem kern_entry_emitted_iff_not_zero :
  forall (coord : Type) (str_coord : coord -> text)
         (masters_data : masters coord) (all_kern_pairs : kern_table),
    let fmt := format_variable_value str_coord masters_data in
    kern_statements str_coord masters_data all_kern_pairs
    = map (fun entry => kern_statement (fst entry) (fmt (snd entry)))
        (filter (fun entry =>
                   if text_dec (fmt (snd entry)) "0" then false else true)
           all_kern_pairs)
    /\ (forall master_values,
           (forall entry data,
               In entry master_values ->
               dict_get text_dec masters_data (fst entry) = Some data ->
               location data = []) ->
           fmt master_values = txt "0")
    /\ (forall master_values entry data,
           In entry master_values ->
           dict_get text_dec masters_data (fst entry) = Some data ->
           location data <> [] ->
           fmt master_values <> txt "0")
    /\ (forall master_name data axis_tag axis_value,
           dict_get text_dec masters_data master_name = Some data ->
           location data = [(axis_tag, axis_value)] ->
           fmt [(master_name, 0%Z)]
           = axis_tag ++ txt "=" ++ str_coord axis_value ++ txt ":0").
Proof.
  intros coord str_coord md table fmt. repeat split.
  - unfold kern_statements. fold fmt.
    induction table as [|e t IH]; [reflexivity|].
    cbn [flat_map filter]. rewrite IH.
    destruct (text_dec (fmt (snd e)) "0"); reflexivity.
  - intros mv H. apply format_no_fragment. apply flat_map_all_nil.
    intros e He.
    destruct (dict_get text_dec md (fst e)) as [d|] eqn:Ed.
    + eapply coordinate_value_empty_location; eauto.
    + apply coordinate_value_unregistered. unfold dict_has. now rewrite Ed.
  - intros mv e d. apply format_some_fragment.
  - intros mn d tag v Hget Hloc.
    unfold fmt, format_variable_value, coordinate_value; simpl.
    rewrite Hget, Hloc. simpl. rewrite <- !app_assoc. reflexivity.
Qed.

Lemma kern_entry_emitted_iff_not_zero_example :
  kern_statements str_int scenario_zero
    [((txt "A V", false), [(txt "Default", (-50)%Z)]);
     ((txt "T o", false), [(txt "Bold", 0%Z)])]
  = [txt "    pos T o (wght=900:0);"]
  /\ format_variable_value str_int scenario_zero [(txt "Default", (-50)%Z)]
     = txt "0"
  /\ format_variable_value str_int scenario_zero [(txt "Bold", 0%Z)]
     <> txt "0"
  /\ format_variable_value str_int scenario_zero [(txt "Bold", 0%Z)]
     = txt "wght=900:0".
Proof.
  destruct (kern_entry_emitted_iff_not_zero str_int scenario_zero
    [((txt "A V", false), [(txt "Default", (-50)%Z)]);
     ((txt "T o", false), [(txt "Bold", 0%Z)])]) as (H1 & H2 & H3 & H4).
  split; [rewrite H1; vm_compute; reflexivity|].
  split.
  - apply H2. intros e d [<-|[]] Hd. vm_compute in Hd.
    injection Hd as <-. reflexivity.
  - split.
    + apply (H3 _ (txt "Bold", 0%Z) (at_weight 900
               "feature kern { pos T o : 0 ; } kern;")).
      * simpl. auto.
      * vm_compute. reflexivity.
      * discriminate.
    + apply (H4 (txt "Bold") (at_weight 900
               "feature kern { pos T o : 0 ; } kern;") (txt "wght") 900%Z);
        vm_compute; reflexivity.
Defined.

(** C3. With the masters Light at wght 100 and Bold at wght 900, each
    holding one kern block with the pair A V (values -50 and -80), the
    combiner returns the one statement
    "    pos A V (wght=100:-50 wght=900:-80);". *)
Theorem scenario_light_bold_merged :
  combine_kern_features str_int scenario_light_bold
  = Some [txt "    pos A V (wght=100:-50 wght=900:-80);"].
Proof. vm_compute. reflexivity. Qed.

(** ** Characters *)

Ltac all_chars c :=
  destruct c as [[] [] [] [] [] [] [] []]; vm_compute; try reflexivity;
  try discriminate.

Lemma name_char_not_space c : is_name_char c = true -> is_space c = false.
Proof. all_chars c. Qed.

Lemma name_char_not_equals c : is_name_char c = true -> Ascii.eqb c "=" = false.
Proof. all_chars c. Qed.

Lemma space_not_equals c : is_space c = true -> Ascii.eqb c "=" = false.
Proof. all_chars c. Qed.

Lemma space_not_bracket c : is_space c = true -> Ascii.eqb c "[" = false.
Proof. all_chars c. Qed.

Lemma digit_not_minus c : is_digit c = true -> Ascii.eqb c "-" = false.
Proof. all_chars c. Qed.

Lemma not_space_true c : not_space c = true <-> is_space c = false.
Proof. unfold not_space. destruct (is_space c); simpl; split; congruence. Qed.

(** ** Prefixes and suffixes *)

Lemma take_drop_while p s : take_while p s ++ drop_while p s = s.
Proof.
  induction s as [|c s IH]; simpl; [reflexivity|].
  destruct (p c); simpl; [now rewrite IH | reflexivity].
Qed.

Lemma take_while_all p s : forallb p (take_while p s) = true.
Proof.
  induction s as [|c s IH]; simpl; [reflexivity|].
  destruct (p c) eqn:E; simpl; [now rewrite E | reflexivity].
Qed.

Lemma drop_while_head p s :
  match drop_while p s with [] => True | c :: _ => p c = false end.
Proof.
  induction s as [|c s IH]; simpl; [exact I|].
  destruct (p c) eqn:E; [exact IH | exact E].
Qed.

Lemma take_while_app p a b :
  forallb p a = true ->
  match b with [] => True | c :: _ => p c = false end ->
  take_while p (a ++ b) = a.
Proof.
  intros Ha Hb. induction a as [|x a IH]; simpl in *.
  - destruct b as [|c b]; simpl; [reflexivity | now rewrite Hb].
  - apply andb_true_iff in Ha. destruct Ha as [-> Ha]. now rewrite IH.
Qed.

Lemma drop_while_app p a b :
  forallb p a = true ->
  match b with [] => True | c :: _ => p c = false end ->
  drop_while p (a ++ b) = b.
Proof.
  intros Ha Hb. induction a as [|x a IH]; simpl in *.
  - destruct b as [|c b]; simpl; [reflexivity | now rewrite Hb].
  - apply andb_true_iff in Ha. destruct Ha as [-> Ha]. now rewrite IH.
Qed.

Lemma drop_while_length p s : length (drop_while p s) <= length s.
Proof.
  induction s as [|c s IH]; simpl; [lia|]. destruct (p c); simpl; lia.
Qed.

Lemma consumed_app (pre post : text) : consumed (pre ++ post) post = pre.
Proof.
  unfold consumed. rewrite length_app.
  replace (length pre + length post - length post) with (length pre) by lia.
  rewrite firstn_app, Nat.sub_diag, firstn_all. simpl. apply app_nil_r.
Qed.

Lemma consumed_drop_while p s : consumed s (drop_while p s) = take_while p s.
Proof.
  rewrite <- (take_drop_while p s) at 1. apply consumed_app.
Qed.

Lemma consumed_cons_nonempty c (s rest : text) :
  length rest <= length s -> consumed (c :: s) rest <> [].
Proof.
  unfold consumed. intros H. simpl length.
  replace (S (length s) - length rest) with (S (length s - length rest)) by lia.
  simpl. discriminate.
Qed.

Lemma starts_with_spec t s rest :
  starts_with t s = Some rest <-> s = t ++ rest.
Proof.
  revert s. induction t as [|x t IH]; intros s; simpl.
  - split; congruence.
  - destruct s as [|y s]; [split; discriminate|].
    destruct (Ascii.eqb y x) eqn:E.
    + apply Ascii.eqb_eq in E. subst y. rewrite IH. split; congruence.
    + apply Ascii.eqb_neq in E. split; [discriminate | congruence].
Qed.

Lemma starts_with_app t s u r :
  starts_with t s = Some r -> starts_with t (s ++ u) = Some (r ++ u).
Proof.
  intros H. apply starts_with_spec in H. subst s.
  apply starts_with_spec. now rewrite app_assoc.
Qed.

Lemma find_close_spec s body rest :
  find_close s = Some (body, rest) ->
  s = body ++ txt "];" ++ rest /\ no_close body.
Proof.
  revert body. induction s as [|c s IH]; intros body.
  - simpl. discriminate.
  - cbn [find_close].
    destruct (starts_with (txt "];") (c :: s)) as [r|] eqn:E.
    + intros H. injection H as <- <-. apply starts_with_spec in E.
      split; [exact E|]. intros a b Hab.
      destruct a; destruct b; try discriminate. reflexivity.
    + destruct (find_close s) as [[body' rest']|]; [|discriminate].
      intros H. injection H as <- <-.
      destruct (IH body' eq_refl) as [-> Hnc]. split; [reflexivity|].
      intros a b Hab. destruct a as [|x a].
      * simpl in Hab. subst b.
        destruct (starts_with (txt "];") (c :: body')) as [r|] eqn:E2;
          [|reflexivity].
        apply starts_with_app with (u := txt "];" ++ rest') in E2.
        exfalso. cut (@None (list ascii) = Some (r ++ txt "];" ++ rest'));
          [discriminate | rewrite <- E; exact E2].
      * injection Hab as _ Hab. eapply Hnc. exact Hab.
Qed.

Lemma find_close_length s body rest :
  find_close s = Some (body, rest) -> length rest <= length s.
Proof.
  intros H. apply find_close_spec in H. destruct H as [-> _].
  rewrite !length_app. lia.
Qed.

Lemma find_close_first (body rest : text) :
  no_close (body ++ txt "]") ->
  find_close (body ++ txt "];" ++ rest) = Some (body, rest).
Proof.
  induction body as [|c body IH]; intros Hnc.
  - reflexivity.
  - rewrite <- app_comm_cons. cbn [find_close].
    destruct (starts_with (txt "];") (c :: body ++ txt "];" ++ rest))
      as [r|] eqn:E.
    + exfalso. apply starts_with_spec in E.
      specialize (Hnc [] ((c :: body) ++ txt "]") eq_refl).
      destruct body as [|d body]; simpl in *.
      * injection E as -> E. discriminate.
      * injection E as -> -> E. simpl in Hnc. discriminate.
    + rewrite IH; [reflexivity|].
      intros a b Hab. apply (Hnc (c :: a) b).
      rewrite <- !app_comm_cons. now f_equal.
Qed.

(** ** The matcher *)

Section MatcherFacts.
Variable A : Type.
Implicit Types k : text -> option A.

Lemma or_else_None (a : option A) : or_else a None = a.
Proof. now destruct a. Qed.

(** When what follows [p*] cannot start with a character of [p], the
    greedy repetition takes the whole run and never backtracks. *)
Lemma rep_greedy_skip p s k :
  (forall c s', p c = true -> k (c :: s') = None) ->
  rep_greedy p s k = k (drop_while p s).
Proof.
  intros Hk. induction s as [|c s IH]; simpl; [reflexivity|].
  destruct (p c) eqn:E; [|reflexivity].
  now rewrite IH, (Hk c s E), or_else_None.
Qed.

(** When what follows [p*] accepts after the whole run, this is the
    match. *)
Lemma rep_greedy_longest p s k a :
  k (drop_while p s) = Some a -> rep_greedy p s k = Some a.
Proof.
  intros Hk. induction s as [|c s IH]; simpl in *; [exact Hk|].
  destruct (p c) eqn:E; [|exact Hk].
  now rewrite (IH Hk).
Qed.

Lemma rep_lazy_ext p s k1 k2 :
  (forall s', k1 s' = k2 s') -> rep_lazy p s k1 = rep_lazy p s k2.
Proof.
  intros H. induction s as [|c s IH]; simpl; rewrite H; [reflexivity|].
  now rewrite IH.
Qed.

(** The lazy [.*?] before a closing "];" stops at the first one. *)
Lemma rep_lazy_find_close (h : text -> text -> A) s :
  rep_lazy any_char s
    (fun s' => match starts_with (txt "];") s' with
               | Some rest => Some (h s' rest)
               | None => None
               end)
  = match find_close s with
    | Some (body, rest) => Some (h (txt "];" ++ rest) rest)
    | None => None
    end.
Proof.
  induction s as [|c s IH].
  - reflexivity.
  - cbn [rep_lazy find_close].
    destruct (starts_with (txt "];") (c :: s)) as [rest|] eqn:E.
    + apply starts_with_spec in E. now rewrite E.
    + cbn [any_char]. rewrite IH.
      now destruct (find_close s) as [[body rest]|].
Qed.

End MatcherFacts.

(** The class pattern is the scanner [class_scan]: the name is the
    longest run of name characters after the "@", the body ends at the
    first "];". *)
Lemma class_match_at_scan s : match_at class_pattern s = class_scan s.
Proof.
  unfold match_at, class_pattern, class_scan.
  cbn [seqs run plus star lazy_star rep].
  destruct s as [|c s1]; [reflexivity|].
  destruct (Ascii.eqb c "@"); [|reflexivity].
  destruct s1 as [|x s1]; [reflexivity|].
  cbn [take_while drop_while].
  destruct (is_name_char x) eqn:Ex; [|reflexivity].
  rewrite rep_greedy_skip.
  2:{ intros d s' Hd. cbn [rep_greedy].
      rewrite (name_char_not_space d Hd), (name_char_not_equals d Hd).
      reflexivity. }
  rewrite rep_greedy_skip.
  2:{ intros d s' Hd. now rewrite (space_not_equals d Hd). }
  destruct (drop_while is_space (drop_while is_name_char s1)) as [|c2 s3];
    [reflexivity|].
  destruct (Ascii.eqb c2 "="); [|reflexivity].
  rewrite rep_greedy_skip.
  2:{ intros d s' Hd. now rewrite (space_not_bracket d Hd). }
  destruct (drop_while is_space s3) as [|c3 s4]; [reflexivity|].
  destruct (Ascii.eqb c3 "["); [|reflexivity].
  set (h := fun s' rest : text =>
       ({| whole := consumed (c :: x :: s1) rest;
           caps := [(2, consumed s4 s');
                    (1, consumed (x :: s1) (drop_while is_name_char s1))] |},
        rest)).
  rewrite (rep_lazy_ext _ _ _
    (fun s' => match starts_with (txt "];") s' with
               | Some rest => Some (h s' rest)
               | None => None
               end)).
  2:{ intros [|a [|b s']]; simpl; try reflexivity;
        destruct (Ascii.eqb a "]"); try reflexivity.
      destruct (Ascii.eqb b ";"); reflexivity. }
  rewrite rep_lazy_find_close. unfold h.
  destruct (find_close s4) as [[body rest]|] eqn:Ef; [|reflexivity].
  apply find_close_spec in Ef. destruct Ef as [Ef _].
  rewrite Ef at 1. rewrite consumed_app.
  replace (consumed (x :: s1) (drop_while is_name_char s1))
    with (x :: take_while is_name_char s1); [reflexivity|].
  pose proof (consumed_drop_while is_name_char (x :: s1)) as Hc.
  cbn [take_while drop_while] in Hc. rewrite Ex in Hc. now rewrite Hc.
Qed.

(** ** Splitting into tokens *)

Lemma split_space c s : is_space c = true -> split (c :: s) = split s.
Proof. intros H. simpl. now rewrite H. Qed.

Lemma split_token c s :
  is_space c = false ->
  split (c :: s)
  = (c :: take_while not_space s) :: split (drop_while not_space s).
Proof.
  revert c. induction s as [|d s IH]; intros c Hc.
  - simpl. now rewrite Hc.
  - cbn [take_while drop_while]. destruct (is_space d) eqn:Hd.
    + replace (not_space d) with false by (unfold not_space; now rewrite Hd).
      transitivity ([c] :: split (d :: s)); [|reflexivity].
      simpl. now rewrite Hc, Hd.
    + replace (not_space d) with true by (unfold not_space; now rewrite Hd).
      transitivity (match split (d :: s) with
                    | t :: ts => (c :: t) :: ts
                    | [] => [[c]]
                    end); [|now rewrite (IH d Hd)].
      simpl. now rewrite Hc, Hd.
Qed.

Lemma split_all_space w s :
  forallb is_space w = true -> split (w ++ s) = split s.
Proof.
  induction w as [|c w IH]; simpl app; intros H; [reflexivity|].
  simpl in H. apply andb_true_iff in H. destruct H as [Hc Hw].
  rewrite split_space by exact Hc. auto.
Qed.

Lemma tokenises_split s toks : tokenises s toks -> split s = toks.
Proof.
  induction 1 as [w Hw | w t rest toks Hw Hne Ht Hrest _ IH].
  - rewrite <- (app_nil_r w). now rewrite split_all_space.
  - rewrite split_all_space by exact Hw.
    destruct t as [|c t]; [congruence|].
    simpl in Ht. apply andb_true_iff in Ht. destruct Ht as [Hc Ht].
    apply not_space_true in Hc.
    rewrite <- app_comm_cons, split_token by exact Hc.
    assert (Hr : match rest with [] => True | x :: _ => not_space x = false end).
    { destruct rest; [exact I|]. unfold not_space. now rewrite Hrest. }
    rewrite take_while_app, drop_while_app by assumption.
    now rewrite IH.
Qed.

Lemma tokenises_space c s toks :
  is_space c = true -> tokenises s toks -> tokenises (c :: s) toks.
Proof.
  intros Hc Hs.
  inversion Hs as [w Hw Ew Et | w t rest toks' Hw Hne Ht Hrest Htl Ew Et].
  - apply tokenises_nil. simpl. now rewrite Hc, Hw.
  - change (c :: w ++ t ++ rest) with ((c :: w) ++ t ++ rest).
    apply tokenises_cons; try assumption. simpl. now rewrite Hc, Hw.
Qed.

Lemma split_tokenises s : tokenises s (split s).
Proof.
  remember (length s) as n eqn:Hn. revert s Hn.
  induction n as [n IH] using lt_wf_ind. intros s Hn.
  destruct s as [|c s].
  - apply (tokenises_nil []). reflexivity.
  - destruct (is_space c) eqn:Hc.
    + rewrite split_space by exact Hc.
      apply tokenises_space; [exact Hc|].
      apply (IH (length s)); simpl in *; lia.
    + rewrite split_token by exact Hc.
      rewrite <- (take_drop_while not_space s) at 1.
      change (c :: take_while not_space s ++ drop_while not_space s)
        with ([] ++ (c :: take_while not_space s) ++ drop_while not_space s).
      apply tokenises_cons.
      * reflexivity.
      * discriminate.
      * simpl. rewrite take_while_all. apply not_space_true in Hc.
        now rewrite Hc.
      * pose proof (drop_while_head not_space s) as H.
        destruct (drop_while not_space s) as [|x r]; [exact I|].
        unfold not_space in H. now destruct (is_space x).
      * apply (IH (length (drop_while not_space s))); [|reflexivity].
        pose proof (drop_while_length not_space s). simpl in Hn. lia.
Qed.

(** A token of [s] is a non-empty whitespace-free piece of [s]. *)
Lemma tokenises_In s toks t :
  tokenises s toks -> In t toks ->
  t <> [] /\ forallb not_space t = true /\ exists a b, s = a ++ t ++ b.
Proof.
  induction 1 as [w Hw | w t0 rest toks Hw Hne Ht Hrest _ IH]; [intros []|].
  intros [<-|Hin].
  - repeat split; try assumption. now exists w, rest.
  - destruct (IH Hin) as (H1 & H2 & a & b & ->).
    repeat split; try assumption.
    exists (w ++ t0 ++ a), b. now rewrite <- !app_assoc.
Qed.

Lemma lstrip_no_space t : forallb not_space t = true -> lstrip t = t.
Proof.
  destruct t as [|c t]; simpl; [reflexivity|].
  intros H. apply andb_true_iff in H. destruct H as [Hc _].
  apply not_space_true in Hc. now rewrite Hc.
Qed.

Lemma strip_no_space t : forallb not_space t = true -> strip t = t.
Proof.
  intros H. unfold strip, rstrip. rewrite (lstrip_no_space t H).
  rewrite lstrip_no_space; [apply rev_involutive|].
  apply forallb_forall. intros x Hx. apply in_rev in Hx.
  rewrite forallb_forall in H. auto.
Qed.

(** Stripping and filtering the pieces of [split] changes nothing. *)
Lemma glyph_tokens_split body : glyph_tokens body = split body.
Proof.
  unfold glyph_tokens.
  assert (H : forall t, In t (split body) ->
                        t <> [] /\ forallb not_space t = true).
  { intros t Ht.
    destruct (tokenises_In t (split_tokenises body) Ht) as (H1 & H2 & _).
    now split. }
  induction (split body) as [|t l IH]; [reflexivity|].
  destruct (H t (or_introl eq_refl)) as [Hne Hns].
  cbn [filter]. rewrite (strip_no_space t Hns).
  destruct t as [|c t]; [congruence|].
  cbn [map]. rewrite (strip_no_space (c :: t) Hns). f_equal.
  apply IH. intros t' Ht'. apply H. now right.
Qed.

Lemma no_close_piece a t b : no_close (a ++ t ++ b) -> no_close t.
Proof.
  intros H x y ->.
  specialize (H (a ++ x) (y ++ b)). rewrite <- !app_assoc in H.
  specialize (H eq_refl).
  destruct (starts_with (txt "];") y) as [r|] eqn:E; [|reflexivity].
  apply starts_with_app with (u := b) in E. congruence.
Qed.

Lemma glyph_tokens_valid body t :
  no_close body -> In t (glyph_tokens body) -> valid_token t.
Proof.
  rewrite glyph_tokens_split. intros Hnc Ht.
  destruct (tokenises_In t (split_tokenises body) Ht) as (H1 & H2 & a & b & E).
  repeat split; try assumption.
  rewrite E in Hnc. now apply no_close_piece in Hnc.
Qed.

Lemma join_space_tokenises toks :
  Forall (fun t => t <> [] /\ forallb not_space t = true) toks ->
  tokenises (join " " toks) toks.
Proof.
  induction 1 as [|t toks [Hne Hns] Hall IH].
  - apply (tokenises_nil []). reflexivity.
  - destruct toks as [|t' toks].
    + replace (join " " [t]) with ([] ++ t ++ [])
        by (simpl; now rewrite app_nil_r).
      apply (tokenises_cons [] (t := t) (rest := [])); try easy.
    + rewrite join_cons_cons.
      apply (tokenises_cons [] (t := t)); try easy.
      apply (tokenises_space " "%char); [reflexivity | exact IH].
Qed.

(** Whitespace-free non-empty tokens joined by single spaces split
    back into themselves. *)
Lemma glyph_tokens_join toks :
  Forall (fun t => t <> [] /\ forallb not_space t = true) toks ->
  glyph_tokens (join " " toks) = toks.
Proof.
  intros H. rewrite glyph_tokens_split.
  apply tokenises_split, join_space_tokenises, H.
Qed.

(** ** Occurrences of the closing "];" *)

Lemma no_close_nil : no_close [].
Proof. intros a b H. symmetry in H. apply app_eq_nil in H. now destruct H as [_ ->]. Qed.

Lemma no_close_cons c t :
  no_close (c :: t) <-> starts_with (txt "];") (c :: t) = None /\ no_close t.
Proof.
  split.
  - intros H. split; [apply (H [] (c :: t) eq_refl)|].
    intros a b ->. apply (H (c :: a) b eq_refl).
  - intros [H1 H2] a b Hab. destruct a as [|x a]; simpl in Hab.
    + now subst b.
    + injection Hab as _ Hab. now apply (H2 a b).
Qed.

(** A separator other than "]" and ";" keeps two pieces apart. *)
Lemma no_close_sep a c b :
  Ascii.eqb c "]" = false -> Ascii.eqb c ";" = false ->
  no_close a -> no_close b -> no_close (a ++ c :: b).
Proof.
  intros Hc1 Hc2 Ha Hb. induction a as [|x a IH].
  - simpl. apply no_close_cons. split; [|exact Hb].
    simpl. now rewrite Hc1.
  - apply no_close_cons in Ha. destruct Ha as [Hx Ha].
    rewrite <- app_comm_cons. apply no_close_cons. split; [|now apply IH].
    destruct a as [|y a]; simpl in *.
    + destruct (Ascii.eqb x "]"); [now rewrite Hc2 | reflexivity].
    + destruct (Ascii.eqb x "]"); [|reflexivity].
      now destruct (Ascii.eqb y ";").
Qed.

Lemma no_close_bracket a : no_close a -> no_close (a ++ txt "]").
Proof.
  intros Ha. induction a as [|x a IH].
  - intros [|y a] b Hab; simpl in Hab.
    + now subst b.
    + injection Hab as _ Hab. symmetry in Hab. apply app_eq_nil in Hab.
      now destruct Hab as [_ ->].
  - apply no_close_cons in Ha. destruct Ha as [Hx Ha].
    rewrite <- app_comm_cons. apply no_close_cons. split; [|now apply IH].
    destruct a as [|y a]; simpl in *.
    + now destruct (Ascii.eqb x "]").
    + destruct (Ascii.eqb x "]"); [|reflexivity].
      now destruct (Ascii.eqb y ";").
Qed.

Lemma join_space_no_close toks :
  Forall valid_token toks -> no_close (join " " toks).
Proof.
  induction 1 as [|t toks (_ & _ & Ht) Hall IH]; [apply no_close_nil|].
  destruct toks as [|t' toks]; [exact Ht|].
  rewrite join_cons_cons. now apply no_close_sep.
Qed.

(** ** Scanning for class declarations *)

Lemma search_match_at r s m rest :
  search r s = Some (m, rest) ->
  exists s0, match_at r s0 = Some (m, rest) /\ length s0 <= length s.
Proof.
  induction s as [|c s IH]; simpl.
  - destruct (match_at r []) as [p|] eqn:E; [|discriminate].
    intros H. injection H as ->. now exists [].
  - destruct (match_at r (c :: s)) as [p|] eqn:E.
    + intros H. injection H as ->. now exists (c :: s).
    + intros H. destruct (IH H) as (s0 & H0 & Hl). exists s0. split; auto.
Qed.

Lemma finditer_from_In fuel r s m :
  In m (finditer_from fuel r s) ->
  exists s0 rest, match_at r s0 = Some (m, rest).
Proof.
  revert s. induction fuel as [|fuel IH]; intros s; simpl; [intros []|].
  destruct (search r s) as [[m0 rest]|] eqn:E; [|intros []].
  intros [<-|Hin].
  - destruct (search_match_at _ _ E) as (s0 & H0 & _). now exists s0, rest.
  - now apply IH in Hin.
Qed.

Lemma search_skip_prefix r pre s :
  (forall a b, pre = a ++ b -> b <> [] -> match_at r (b ++ s) = None) ->
  search r (pre ++ s) = search r s.
Proof.
  induction pre as [|c pre IH]; intros H; [reflexivity|].
  rewrite <- app_comm_cons. cbn [search].
  rewrite app_comm_cons, (H [] (c :: pre) eq_refl) by discriminate.
  apply IH. intros a b -> Hb. now apply (H (c :: a) b).
Qed.

Lemma class_scan_inv s m rest :
  class_scan s = Some (m, rest) ->
  valid_name (group_str m 1) /\ no_close (group_str m 2)
  /\ whole m <> [] /\ length rest < length s.
Proof.
  unfold class_scan. destruct s as [|c s1]; [discriminate|].
  destruct (Ascii.eqb c "@"); [|discriminate].
  destruct (take_while is_name_char s1) as [|n0 name] eqn:En; [discriminate|].
  pose proof (drop_while_length is_name_char s1) as L1.
  pose proof (drop_while_length is_space (drop_while is_name_char s1)) as L2.
  destruct (drop_while is_space (drop_while is_name_char s1)) as [|c2 s3];
    [discriminate|].
  destruct (Ascii.eqb c2 "="); [|discriminate].
  pose proof (drop_while_length is_space s3) as L3.
  destruct (drop_while is_space s3) as [|c3 s4]; [discriminate|].
  destruct (Ascii.eqb c3 "["); [|discriminate].
  destruct (find_close s4) as [[body r]|] eqn:Ef; [|discriminate].
  intros H. injection H as <- <-.
  pose proof (find_close_length _ Ef) as L4.
  destruct (find_close_spec _ Ef) as [_ Hnc].
  simpl in L2, L3. repeat split.
  - discriminate.
  - change (forallb is_name_char (n0 :: name) = true).
    rewrite <- En. apply take_while_all.
  - exact Hnc.
  - apply consumed_cons_nonempty. lia.
  - simpl. lia.
Qed.

Lemma class_scan_not_at c s : Ascii.eqb c "@" = false -> class_scan (c :: s) = None.
Proof. intros H. simpl. now rewrite H. Qed.

(** A rendered declaration is scanned back into its name and body. *)
Lemma class_scan_line name toks rest :
  valid_name name -> Forall valid_token toks ->
  class_scan (class_line (name, toks) ++ rest)
  = Some ({| whole := class_line (name, toks);
             caps := [(2, join " " toks); (1, name)] |}, rest).
Proof.
  intros [Hne Hname] Htoks.
  assert (E : class_line (name, toks) ++ rest
              = "@"%char :: name
                ++ " "%char :: "="%char :: " "%char :: "["%char
                   :: join " " toks ++ txt "];" ++ rest).
  { unfold class_line. cbn [fst snd]. rewrite <- !app_assoc. reflexivity. }
  rewrite E. cbn [class_scan]. rewrite Ascii.eqb_refl.
  rewrite take_while_app, drop_while_app by (try exact Hname; reflexivity).
  destruct name as [|n0 name]; [congruence|].
  do 2 (cbn [drop_while]; change (is_space " ") with true;
        change (is_space "=") with false; change (is_space "[") with false;
        cbv iota; rewrite ?Ascii.eqb_refl).
  rewrite find_close_first.
  2:{ apply no_close_bracket, join_space_no_close, Htoks. }
  f_equal. f_equal. f_equal. rewrite <- E. apply consumed_app.
Qed.

(** ** Folds that fill a dictionary *)

Lemma fold_left_flat_map (A B C : Type) (f : A -> C -> A) (g : B -> list C)
    (l : list B) (acc : A) :
  fold_left (fun acc x => fold_left f (g x) acc) l acc
  = fold_left f (flat_map g l) acc.
Proof.
  revert acc. induction l as [|x l IH]; intros acc; simpl; [reflexivity|].
  now rewrite fold_left_app, IH.
Qed.

Lemma fold_left_invariant (A B : Type) (P : A -> Prop) (f : A -> B -> A)
    (l : list B) (acc : A) :
  P acc -> (forall a x, In x l -> P a -> P (f a x)) -> P (fold_left f l acc).
Proof.
  revert acc. induction l as [|x l IH]; intros acc H0 Hs; simpl; [exact H0|].
  apply IH; [apply Hs; simpl; auto|]. intros a y Hy. apply Hs. now right.
Qed.

Section DictFolds.
Variables K V : Type.
Variable K_dec : forall a b : K, {a = b} + {a <> b}.

Lemma dict_set_In (d : dict K V) k v k' v' :
  In (k', v') (dict_set K_dec d k v) -> In (k', v') d \/ (k' = k /\ v' = v).
Proof.
  induction d as [|[k0 v0] d IH]; simpl.
  - intros [E|[]]. injection E as <- <-. now right.
  - destruct (K_dec k k0) as [->|N]; simpl.
    + intros [E|Hin]; [injection E as <- <-; now right | left; now right].
    + intros [E|Hin]; [left; now left|].
      destruct (IH Hin) as [H|H]; [left; now right | now right].
Qed.

Lemma dict_set_fresh (d : dict K V) k v :
  ~ In k (keys d) -> dict_set K_dec d k v = d ++ [(k, v)].
Proof.
  induction d as [|[k0 v0] d IH]; simpl; intros H; [reflexivity|].
  destruct (K_dec k k0) as [->|N]; [tauto|].
  rewrite IH; tauto.
Qed.

(** Writing the entries of a dictionary, in order, rebuilds it. *)
Lemma fold_dict_set_rebuild (d acc : dict K V) :
  NoDup (keys (acc ++ d)) ->
  fold_left (fun a e => dict_set K_dec a (fst e) (snd e)) d acc = acc ++ d.
Proof.
  revert acc. induction d as [|[k v] d IH]; intros acc H; simpl.
  - now rewrite app_nil_r.
  - assert (Hk : ~ In k (keys acc)).
    { unfold keys in *. rewrite map_app in H. simpl in H.
      apply NoDup_remove_2 in H. intros Hin. apply H.
      apply in_or_app. now left. }
    rewrite dict_set_fresh by exact Hk.
    rewrite IH; rewrite <- app_assoc; [reflexivity | exact H].
Qed.

End DictFolds.

(** ** The class parser *)

Lemma parse_glyph_classes_In text name toks :
  In (name, toks) (parse_glyph_classes text) ->
  exists m, In m (finditer class_pattern text)
            /\ name = group_str m 1
            /\ toks = glyph_tokens (group_str m 2).
Proof.
  unfold parse_glyph_classes.
  assert (H : forall ms acc,
    In (name, toks)
      (fold_left (fun classes m =>
                    dict_set text_dec classes (group_str m 1)
                      (glyph_tokens (group_str m 2))) ms acc) ->
    In (name, toks) acc
    \/ exists m, In m ms /\ name = group_str m 1
                 /\ toks = glyph_tokens (group_str m 2)).
  { induction ms as [|m ms IH]; intros acc; simpl; [now left|].
    intros Hin. destruct (IH _ Hin) as [Hacc|(m' & H1 & H2)].
    - apply dict_set_In in Hacc. destruct Hacc as [Hacc|[-> ->]].
      + now left.
      + right. exists m. auto.
    - right. exists m'. auto. }
  intros Hin. destruct (H _ _ Hin) as [[]|Hm]. exact Hm.
Qed.

Lemma parse_glyph_classes_NoDup text :
  NoDup (keys (parse_glyph_classes text)).
Proof.
  unfold parse_glyph_classes. apply fold_left_invariant.
  - constructor.
  - intros a m _ Ha. now apply NoDup_keys_dict_set.
Qed.

(** What the parser returns is a name of the class pattern with
    whitespace-free tokens that hold no "];". *)
Lemma parse_glyph_classes_valid text name toks :
  In (name, toks) (parse_glyph_classes text) ->
  valid_name name /\ Forall valid_token toks.
Proof.
  intros Hin. apply parse_glyph_classes_In in Hin.
  destruct Hin as (m & Hm & -> & ->).
  apply finditer_from_In in Hm. destruct Hm as (s0 & rest & Hm).
  rewrite class_match_at_scan in Hm. apply class_scan_inv in Hm.
  destruct Hm as (Hn & Hb & _). split; [exact Hn|].
  apply Forall_forall. intros t Ht. now apply (glyph_tokens_valid _ Hb).
Qed.

(** ** The order on text and [sorted] *)

Lemma code_inj x y : code x = code y -> x = y.
Proof.
  unfold code. intros H.
  rewrite <- (ascii_N_embedding x), <- (ascii_N_embedding y). now rewrite H.
Qed.

Lemma text_leb_total a b : text_leb a b = true \/ text_leb b a = true.
Proof.
  revert b. induction a as [|x a IH]; intros [|y b]; simpl; auto.
  destruct (N.ltb_spec (code x) (code y)); [now left|].
  destruct (N.ltb_spec (code y) (code x)); [now right|].
  apply IH.
Qed.

Lemma text_leb_antisym a b :
  text_leb a b = true -> text_leb b a = true -> a = b.
Proof.
  revert b. induction a as [|x a IH]; intros [|y b]; simpl;
    try discriminate; [reflexivity|].
  destruct (N.ltb_spec (code x) (code y)) as [L|L];
    destruct (N.ltb_spec (code y) (code x)) as [L'|L'];
    try discriminate; try lia.
  intros H1 H2. f_equal; [apply code_inj; lia | now apply IH].
Qed.

Lemma text_leb_trans a b c :
  text_leb a b = true -> text_leb b c = true -> text_leb a c = true.
Proof.
  revert b c. induction a as [|x a IH]; intros [|y b] [|z c]; simpl;
    try discriminate; try reflexivity.
  destruct (N.ltb_spec (code x) (code y)) as [L1|L1];
    destruct (N.ltb_spec (code y) (code x)) as [L1'|L1'];
    destruct (N.ltb_spec (code y) (code z)) as [L2|L2];
    destruct (N.ltb_spec (code z) (code y)) as [L2'|L2'];
    destruct (N.ltb_spec (code x) (code z)) as [L3|L3];
    destruct (N.ltb_spec (code z) (code x)) as [L3'|L3'];
    try discriminate; try reflexivity; try lia.
  apply IH.
Qed.

Lemma insert_sorted_perm x l : Permutation (insert_sorted x l) (x :: l).
Proof.
  induction l as [|y l IH]; simpl; [reflexivity|].
  destruct (text_leb x y); [reflexivity|].
  rewrite IH. apply perm_swap.
Qed.

Lemma sorted_perm l : Permutation (sorted l) l.
Proof.
  induction l as [|x l IH]; simpl; [reflexivity|].
  rewrite insert_sorted_perm. now constructor.
Qed.

Lemma insert_sorted_sorted x l :
  StronglySorted text_le l -> StronglySorted text_le (insert_sorted x l).
Proof.
  induction 1 as [|y l Hl IH Hy]; simpl; [repeat constructor|].
  destruct (text_leb x y) eqn:E.
  - constructor; [now constructor|]. constructor; [exact E|].
    eapply Forall_impl; [|exact Hy]. intros z Hz.
    unfold text_le in *. eapply text_leb_trans; eauto.
  - constructor; [exact IH|].
    apply Forall_forall. intros z Hz.
    apply (Permutation_in _ (insert_sorted_perm x l)) in Hz.
    destruct Hz as [<-|Hz].
    + unfold text_le. destruct (text_leb_total x y); congruence.
    + rewrite Forall_forall in Hy. auto.
Qed.

Lemma sorted_sorted l : StronglySorted text_le (sorted l).
Proof.
  induction l as [|x l IH]; simpl; [constructor|].
  now apply insert_sorted_sorted.
Qed.

(** A sorted duplicate-free list is determined by its elements. *)
Lemma sorted_unique l1 l2 :
  StronglySorted text_le l1 -> StronglySorted text_le l2 ->
  NoDup l1 -> NoDup l2 ->
  (forall x, In x l1 <-> In x l2) -> l1 = l2.
Proof.
  intros S1. revert l2.
  induction S1 as [|x l1 S1 IH Hx]; intros l2 S2 N1 N2 Hel.
  - destruct l2 as [|y l2]; [reflexivity|].
    exfalso. apply (Hel y). now left.
  - destruct S2 as [|y l2 S2 Hy].
    + exfalso. apply (Hel x). now left.
    + inversion N1 as [|? ? Nx N1']; subst.
      inversion N2 as [|? ? Ny N2']; subst.
      rewrite Forall_forall in Hx, Hy.
      assert (Exy : x = y).
      { destruct (proj1 (Hel x) (or_introl eq_refl)) as [E|Hin]; [auto|].
        destruct (proj2 (Hel y) (or_introl eq_refl)) as [E|Hin']; [auto|].
        apply text_leb_antisym; [apply Hx | apply Hy]; assumption. }
      subst y. f_equal. apply IH; try assumption.
      intros z. split; intros Hz.
      * destruct (proj1 (Hel z) (or_intror Hz)) as [E|H]; [|exact H].
        subst z. contradiction.
      * destruct (proj2 (Hel z) (or_intror Hz)) as [E|H]; [|exact H].
        subst z. contradiction.
Qed.

(** ** Sets *)

Lemma pyset_add_In s x y : In y (pyset_add s x) <-> y = x \/ In y s.
Proof. unfold pyset_add. apply set_add_iff. Qed.

Lemma pyset_add_NoDup s x : NoDup s -> NoDup (pyset_add s x).
Proof. unfold pyset_add. apply set_add_nodup. Qed.

Lemma pyset_update_In s l y : In y (pyset_update s l) <-> In y s \/ In y l.
Proof.
  unfold pyset_update. revert s.
  induction l as [|x l IH]; intros s; simpl; [tauto|].
  rewrite IH, pyset_add_In. intuition.
Qed.

Lemma pyset_update_NoDup s l : NoDup s -> NoDup (pyset_update s l).
Proof.
  unfold pyset_update. revert s.
  induction l as [|x l IH]; intros s H; simpl; [exact H|].
  apply IH. now apply pyset_add_NoDup.
Qed.

(** ** The class merger *)

Lemma dict_get_add_class acc cls n :
  dict_get text_dec (add_class acc cls) n
  = if text_dec n (fst cls)
    then Some (pyset_update (dict_default text_dec acc (fst cls) []) (snd cls))
    else dict_get text_dec acc n.
Proof.
  unfold add_class. destruct (text_dec n (fst cls)) as [->|N].
  - apply dict_get_set_same.
  - now apply dict_get_set_other.
Qed.

Lemma member_add_class acc cls n g :
  member (add_class acc cls) n g
  <-> member acc n g \/ (n = fst cls /\ In g (snd cls)).
Proof.
  unfold member. rewrite dict_get_add_class.
  destruct (text_dec n (fst cls)) as [->|N].
  - unfold dict_default. split.
    + intros (s & E & Hg). injection E as <-.
      apply pyset_update_In in Hg. destruct Hg as [Hg|Hg]; [|now right].
      destruct (dict_get text_dec acc (fst cls)) as [s0|]; [|destruct Hg].
      left. now exists s0.
    + intros H. eexists. split; [reflexivity|]. apply pyset_update_In.
      destruct H as [(s & E & Hg)|[_ Hg]]; [|now right].
      left. now rewrite E.
  - split; [now left|]. intros [H|[E _]]; [exact H | congruence].
Qed.

Lemma member_collected items acc n g :
  member (fold_left add_class items acc) n g
  <-> member acc n g \/ exists toks, In (n, toks) items /\ In g toks.
Proof.
  revert acc. induction items as [|[n0 toks0] items IH]; intros acc; simpl.
  - split; [now left|]. intros [H|(toks & [] & _)]. exact H.
  - rewrite IH, member_add_class. simpl. split.
    + intros [[H|[-> Hg]]|(toks & Hin & Hg)].
      * now left.
      * right. exists toks0. auto.
      * right. exists toks. auto.
    + intros [H|(toks & [E|Hin] & Hg)].
      * left. now left.
      * injection E as -> ->. left. right. auto.
      * right. exists toks. auto.
Qed.

Lemma keys_collected items acc n :
  In n (keys (fold_left add_class items acc))
  <-> In n (keys acc) \/ In n (keys items).
Proof.
  revert acc. induction items as [|[n0 toks0] items IH]; intros acc; simpl.
  - tauto.
  - rewrite IH. unfold add_class. rewrite keys_dict_set. unfold dict_has.
    cbn [fst snd].
    destruct (dict_get text_dec acc n0) as [s|] eqn:E.
    + apply dict_get_In in E. apply (in_map fst) in E. simpl in E.
      unfold keys. split; [tauto|]. intros [H|[<-|H]]; auto.
    + rewrite in_app_iff. simpl. tauto.
Qed.

Lemma NoDup_keys_collected items acc :
  NoDup (keys acc) -> NoDup (keys (fold_left add_class items acc)).
Proof.
  intros H. apply fold_left_invariant; [exact H|].
  intros a x _ Ha. unfold add_class. now apply NoDup_keys_dict_set.
Qed.

(** Every set of [all_classes] holds only what [Q] admits, without
    duplicates, when the declarations do. *)
Lemma sets_collected (Q : text -> Prop) items acc :
  (forall n s, In (n, s) acc -> NoDup s /\ Forall Q s) ->
  (forall n toks, In (n, toks) items -> Forall Q toks) ->
  forall n s, In (n, s) (fold_left add_class items acc) ->
              NoDup s /\ Forall Q s.
Proof.
  intros Hacc Hitems.
  apply (fold_left_invariant
           (fun d => forall n s, In (n, s) d -> NoDup s /\ Forall Q s));
    [exact Hacc|].
  intros a [n0 toks0] Hx Ha n s Hin. unfold add_class in Hin.
  apply dict_set_In in Hin. destruct Hin as [Hin|[-> ->]]; [eauto|].
  cbn [fst snd]. unfold dict_default.
  assert (H0 : NoDup (match dict_get text_dec a n0 with
                      | Some v => v | None => [] end)
               /\ Forall Q (match dict_get text_dec a n0 with
                            | Some v => v | None => [] end)).
  { destruct (dict_get text_dec a n0) as [s0|] eqn:E.
    - apply dict_get_In in E. eauto.
    - split; constructor. }
  destruct H0 as [H1 H2]. split; [now apply pyset_update_NoDup|].
  apply Forall_forall. intros g Hg. apply pyset_update_In in Hg.
  destruct Hg as [Hg|Hg].
  - rewrite Forall_forall in H2. auto.
  - specialize (Hitems _ _ Hx). rewrite Forall_forall in Hitems. auto.
Qed.

Section ClassMerger.
Variable coord : Type.
Variable set_iter : pyset -> list text.
Hypothesis set_iter_lists : iteration_order set_iter.
Implicit Types masters_data : masters coord.

Lemma collect_classes_items masters_data :
  collect_classes masters_data
  = fold_left add_class (class_items masters_data) [].
Proof.
  unfold collect_classes, class_items.
  apply (fold_left_flat_map add_class
           (fun entry : text * master coord =>
              parse_glyph_classes (features (snd entry)))).
Qed.

Lemma class_items_In masters_data n toks :
  In (n, toks) (class_items masters_data)
  <-> exists master_name data,
        In (master_name, data) masters_data
        /\ dict_get text_dec (parse_glyph_classes (features data)) n
           = Some toks.
Proof.
  unfold class_items. rewrite in_flat_map. split.
  - intros ([mn data] & Hin & H). exists mn, data. split; [exact Hin|].
    apply In_dict_get; [apply parse_glyph_classes_NoDup | exact H].
  - intros (mn & data & Hin & H). exists (mn, data). split; [exact Hin|].
    now apply dict_get_In in H.
Qed.

Lemma collected_member masters_data n g :
  member (collect_classes masters_data) n g <-> declared_in masters_data n g.
Proof.
  rewrite collect_classes_items, member_collected. unfold declared_in. split.
  - intros [(s & E & _)|(toks & Hin & Hg)]; [discriminate|].
    apply class_items_In in Hin. destruct Hin as (mn & data & H1 & H2).
    now exists mn, data, toks.
  - intros (mn & data & toks & H1 & H2 & Hg). right. exists toks.
    split; [|exact Hg]. apply class_items_In. now exists mn, data.
Qed.

Lemma collected_keys masters_data n :
  In n (keys (collect_classes masters_data)) <-> declares masters_data n.
Proof.
  rewrite collect_classes_items, keys_collected. unfold declares. split.
  - intros [[]|Hin]. unfold keys in Hin. apply in_map_iff in Hin.
    destruct Hin as ([n' toks] & <- & Hin). apply class_items_In in Hin.
    destruct Hin as (mn & data & H1 & H2). now exists mn, data, toks.
  - intros (mn & data & toks & H1 & H2). right.
    change n with (fst (n, toks)). apply in_map. apply class_items_In.
    now exists mn, data.
Qed.

Lemma collected_NoDup masters_data n s :
  dict_get text_dec (collect_classes masters_data) n = Some s -> NoDup s.
Proof.
  intros E. apply dict_get_In in E. rewrite collect_classes_items in E.
  eapply (sets_collected (Q := fun _ => True)); [| |exact E].
  - intros ? ? [].
  - intros ? toks _. apply Forall_forall. auto.
Qed.

Lemma merged_get masters_data n :
  dict_get text_dec (merge_classes set_iter masters_data) n
  = option_map (fun s => sorted (set_iter s))
      (dict_get text_dec (collect_classes masters_data) n).
Proof.
  unfold merge_classes.
  apply (dict_get_map text_dec (fun s => sorted (set_iter s))).
Qed.

Lemma merged_class masters_data n glyphs :
  dict_get text_dec (merge_classes set_iter masters_data) n = Some glyphs ->
  StronglySorted text_le glyphs /\ NoDup glyphs
  /\ forall g, In g glyphs <-> declared_in masters_data n g.
Proof.
  rewrite merged_get.
  destruct (dict_get text_dec (collect_classes masters_data) n) as [s|] eqn:E;
    [|discriminate].
  intros H. injection H as <-.
  pose proof (Permutation_trans (sorted_perm (set_iter s)) (set_iter_lists s))
    as Hp.
  split; [apply sorted_sorted|]. split.
  - apply (Permutation_NoDup (Permutation_sym Hp)).
    eapply collected_NoDup, E.
  - intros g. rewrite <- collected_member. unfold member. rewrite E. split.
    + intros Hg. exists s. split; [reflexivity|].
      now apply (Permutation_in _ Hp).
    + intros (s' & E' & Hg). injection E' as <-.
      now apply (Permutation_in _ (Permutation_sym Hp)).
Qed.

Lemma merged_declared masters_data n :
  dict_has text_dec (merge_classes set_iter masters_data) n = true
  <-> declares masters_data n.
Proof.
  rewrite <- collected_keys. unfold dict_has. rewrite merged_get.
  destruct (dict_get text_dec (collect_classes masters_data) n) as [s|] eqn:E;
    simpl.
  - split; [|reflexivity]. intros _. apply dict_get_In in E.
    change n with (fst (n, s)). now apply in_map.
  - split; [discriminate|]. intros H. now apply dict_get_None in E.
Qed.

Lemma declares_perm masters_data masters_data' n :
  Permutation masters_data masters_data' ->
  declares masters_data n -> declares masters_data' n.
Proof.
  intros Hp (mn & data & toks & H1 & H2). exists mn, data, toks.
  split; [now apply (Permutation_in _ Hp) | exact H2].
Qed.

Lemma declared_in_perm masters_data masters_data' n g :
  Permutation masters_data masters_data' ->
  declared_in masters_data n g -> declared_in masters_data' n g.
Proof.
  intros Hp (mn & data & toks & H1 & H2). exists mn, data, toks.
  split; [now apply (Permutation_in _ Hp) | exact H2].
Qed.

Lemma merged_order_independent masters_data masters_data' n :
  Permutation masters_data masters_data' ->
  dict_get text_dec (merge_classes set_iter masters_data') n
  = dict_get text_dec (merge_classes set_iter masters_data) n.
Proof.
  intros Hp.
  pose proof (merged_declared masters_data n) as D.
  pose proof (merged_declared masters_data' n) as D'.
  unfold dict_has in D, D'.
  destruct (dict_get text_dec (merge_classes set_iter masters_data) n)
    as [l|] eqn:E;
    destruct (dict_get text_dec (merge_classes set_iter masters_data') n)
      as [l'|] eqn:E'.
  - f_equal.
    destruct (merged_class _ _ E) as (S1 & N1 & M1).
    destruct (merged_class _ _ E') as (S2 & N2 & M2).
    apply sorted_unique; try assumption.
    intros g. rewrite M1, M2. split; apply declared_in_perm;
      [now apply Permutation_sym | exact Hp].
  - exfalso. assert (H : declares masters_data' n)
      by (apply (declares_perm Hp), D; reflexivity).
    apply D' in H. discriminate.
  - exfalso. assert (H : declares masters_data n)
      by (apply (declares_perm (Permutation_sym Hp)), D'; reflexivity).
    apply D in H. discriminate.
  - reflexivity.
Qed.

End ClassMerger.

(** C1. For every collection of masters and every class name: the
    merged table has the name exactly when some master declares it;
    its glyph list is sorted in the order of [str], has no duplicate,
    and holds exactly the glyphs that some master's class of that name
    holds; and the list is the same for every processing order of the
    masters. *)
Theorem merged_class_is_union :
  forall (coord : Type) (set_iter : pyset -> list text)
         (masters_data : masters coord) (name : text),
    iteration_order set_iter ->
    (dict_has text_dec (merge_classes set_iter masters_data) name = true
     <-> declares masters_data name)
    /\ (forall glyphs,
           dict_get text_dec (merge_classes set_iter masters_data) name
           = Some glyphs ->
           StronglySorted text_le glyphs /\ NoDup glyphs
           /\ forall g, In g glyphs <-> declared_in masters_data name g)
    /\ (forall masters_data',
           Permutation masters_data masters_data' ->
           dict_get text_dec (merge_classes set_iter masters_data') name
           = dict_get text_dec (merge_classes set_iter masters_data) name).
Proof.
  intros coord set_iter masters_data name Hiter. repeat split.
  - now apply merged_declared.
  - now apply merged_declared.
  - eapply merged_class; eauto.
  - eapply merged_class; eauto.
  - eapply merged_class; eauto.
  - eapply merged_class; eauto.
  - intros md' Hp. now apply merged_order_independent.
Qed.

Lemma merged_class_is_union_example :
  iteration_order oldest_first
  /\ dict_get text_dec (merge_classes oldest_first scenario_uppercase)
       "UPPERCASE"
     = Some [txt "A"; txt "B"; txt "C"; txt "D"]
  /\ (forall g, In g [txt "A"; txt "B"; txt "C"; txt "D"]
                <-> declared_in scenario_uppercase "UPPERCASE" g)
  /\ dict_get text_dec (merge_classes oldest_first (rev scenario_uppercase))
       "UPPERCASE"
     = Some [txt "A"; txt "B"; txt "C"; txt "D"].
Proof.
  assert (H : iteration_order oldest_first)
    by (intros s; apply Permutation_refl).
  assert (E : dict_get text_dec (merge_classes oldest_first scenario_uppercase)
                "UPPERCASE"
              = Some [txt "A"; txt "B"; txt "C"; txt "D"])
    by (vm_compute; reflexivity).
  destruct (merged_class_is_union scenario_uppercase "UPPERCASE" H)
    as (_ & H2 & H3).
  split; [exact H|]. split; [exact E|]. split.
  - apply (H2 _ E).
  - rewrite H3; [exact E | apply Permutation_rev].
Defined.

(** ** Reading back the rendered class declarations *)

Lemma join_cons_nonempty sep x l :
  l <> [] -> join sep (x :: l) = x ++ sep ++ join sep l.
Proof. destruct l; [congruence | reflexivity]. Qed.

Lemma fold_left_map (A B C : Type) (f : A -> C -> A) (g : B -> C) l a :
  fold_left f (map g l) a = fold_left (fun a x => f a (g x)) l a.
Proof.
  revert a. induction l as [|x l IH]; intros a; simpl; [reflexivity|].
  apply IH.
Qed.

Lemma fold_left_ext_in (A B : Type) (f g : A -> B -> A) l a :
  (forall a x, In x l -> f a x = g a x) ->
  fold_left f l a = fold_left g l a.
Proof.
  revert a. induction l as [|x l IH]; intros a H; simpl; [reflexivity|].
  rewrite H by (simpl; auto). apply IH. intros a' y Hy. apply H. now right.
Qed.

Lemma search_here r s m : match_at r s = Some m -> search r s = Some m.
Proof. intros H. destruct s; simpl; now rewrite H. Qed.

Lemma search_class_skip pre s :
  forallb (fun c => negb (Ascii.eqb c "@")) pre = true ->
  search class_pattern (pre ++ s) = search class_pattern s.
Proof.
  intros H. apply search_skip_prefix. intros a b -> Hb.
  destruct b as [|c b]; [congruence|].
  rewrite class_match_at_scan, <- app_comm_cons.
  apply class_scan_not_at.
  rewrite forallb_app in H. apply andb_true_iff in H. destruct H as [_ H].
  simpl in H. apply andb_true_iff in H. destruct H as [H _].
  now destruct (Ascii.eqb c "@").
Qed.

Lemma class_line_nonempty entry : class_line entry <> [].
Proof. unfold class_line. discriminate. Qed.

(** The scan of the rendered lines finds one declaration per line. *)
Lemma finditer_class_lines d pre fuel :
  (forall name toks, In (name, toks) d ->
                     valid_name name /\ Forall valid_token toks) ->
  forallb (fun c => negb (Ascii.eqb c "@")) pre = true ->
  length (pre ++ join newline (map class_line d ++ [txt ""])) < fuel ->
  finditer_from fuel class_pattern
    (pre ++ join newline (map class_line d ++ [txt ""]))
  = map line_match d.
Proof.
  revert pre fuel. induction d as [|[name toks] d IH]; intros pre fuel Hd Hpre Hf.
  - destruct fuel as [|fuel]; [inversion Hf|].
    cbn [finditer_from]. rewrite search_class_skip by exact Hpre.
    reflexivity.
  - destruct fuel as [|fuel]; [inversion Hf|].
    cbn [map app] in *.
    rewrite join_cons_nonempty in * by (destruct (map class_line d); discriminate).
    cbn [finditer_from]. rewrite search_class_skip by exact Hpre.
    assert (Hs : search class_pattern
                   (class_line (name, toks)
                    ++ newline ++ join newline (map class_line d ++ [txt ""]))
                 = Some (line_match (name, toks),
                         newline ++ join newline (map class_line d ++ [txt ""]))).
    { apply search_here. rewrite class_match_at_scan.
      apply class_scan_line; apply (Hd name toks); now left. }
    rewrite Hs. cbn [whole line_match].
    destruct (class_line (name, toks)) eqn:El;
      [now apply class_line_nonempty in El|].
    f_equal. apply IH.
    + intros n t Hin. apply Hd. now right.
    + reflexivity.
    + rewrite !length_app in *. simpl in *. lia.
Qed.

Lemma parse_class_lines d pre :
  valid_table d ->
  forallb (fun c => negb (Ascii.eqb c "@")) pre = true ->
  parse_glyph_classes (pre ++ join newline (map class_line d ++ [txt ""])) = d.
Proof.
  intros [Hnd Hd] Hpre. unfold parse_glyph_classes, finditer.
  rewrite finditer_class_lines by (try assumption; lia).
  rewrite fold_left_map.
  rewrite (fold_left_ext_in _
             (fun a e => dict_set text_dec a (fst e) (snd e))).
  - now apply (fold_dict_set_rebuild text_dec d []).
  - intros a [name toks] Hin. unfold line_match, group_str. cbn.
    f_equal. apply glyph_tokens_join.
    destruct (Hd _ _ Hin) as [_ Ht].
    eapply Forall_impl; [|exact Ht]. intros t (H1 & H2 & _). now split.
Qed.

Lemma merged_valid_table (coord : Type) (set_iter : pyset -> list text)
    (masters_data : masters coord) :
  iteration_order set_iter ->
  valid_table (merge_classes set_iter masters_data).
Proof.
  intros Hiter. unfold merge_classes. split.
  - rewrite (keys_map (fun s => sorted (set_iter s))).
    rewrite collect_classes_items. apply NoDup_keys_collected. constructor.
  - intros name toks Hin. apply in_map_iff in Hin.
    destruct Hin as ([n s] & E & Hin). cbn [fst snd] in E.
    injection E as -> <-. split.
    + assert (Hk : In name (keys (collect_classes masters_data))).
      { change name with (fst (name, s)). now apply in_map. }
      apply collected_keys in Hk. destruct Hk as (mn & data & t & _ & Hk).
      apply dict_get_In in Hk. now apply parse_glyph_classes_valid in Hk.
    + rewrite collect_classes_items in Hin.
      apply (sets_collected (Q := valid_token)) in Hin.
      * destruct Hin as [_ Hs]. rewrite Forall_forall in *.
        intros g Hg. apply Hs.
        apply (Permutation_in _ (sorted_perm _)) in Hg.
        now apply (Permutation_in _ (Hiter s)) in Hg.
      * intros ? ? [].
      * intros n0 t Ht. unfold class_items in Ht.
        apply in_flat_map in Ht. destruct Ht as (e & _ & Ht).
        now apply parse_glyph_classes_valid in Ht.
Qed.

(** C9. For every collection of masters, the class parser reads the
    class section that the output generator renders for the merged
    table back into that table: the same names, in the same order, each
    with the same glyph list. This holds for the section alone and for
    the section under the header of the output. *)
Theorem class_section_round_trip :
  forall (coord : Type) (set_iter : pyset -> list text)
         (masters_data : masters coord),
    iteration_order set_iter ->
    let combined_classes := merge_classes set_iter masters_data in
    parse_glyph_classes (join newline (class_section combined_classes))
    = combined_classes
    /\ parse_glyph_classes
         (join newline (header ++ class_section combined_classes))
       = combined_classes.
Proof.
  intros coord set_iter masters_data Hiter combined_classes.
  pose proof (merged_valid_table masters_data Hiter) as Hv.
  fold combined_classes in Hv. clearbody combined_classes.
  destruct combined_classes as [|e d].
  - split; vm_compute; reflexivity.
  - unfold class_section, header. cbn [app].
    change (class_line e :: map class_line d ++ [txt ""])
      with (map class_line (e :: d) ++ [txt ""]).
    assert (Hne : map class_line (e :: d) ++ [txt ""] <> []) by discriminate.
    split.
    + rewrite join_cons_nonempty by exact Hne.
      rewrite app_assoc. now apply parse_class_lines.
    + rewrite !join_cons_cons, join_cons_nonempty by exact Hne.
      rewrite !app_assoc. now apply parse_class_lines.
Qed.

Lemma class_section_round_trip_example :
  iteration_order oldest_first
  /\ parse_glyph_classes
       (join newline
          (class_section (merge_classes oldest_first scenario_uppercase)))
     = [(txt "UPPERCASE", [txt "A"; txt "B"; txt "C"; txt "D"])].
Proof.
  assert (H : iteration_order oldest_first)
    by (intros s; apply Permutation_refl).
  split; [exact H|].
  destruct (class_section_round_trip scenario_uppercase H) as [E _].
  rewrite E. vm_compute. reflexivity.
Defined.

(** ** First-seen order *)

Lemma filter_filter (A : Type) (p q : A -> bool) l :
  filter p (filter q l) = filter (fun x => q x && p x) l.
Proof.
  induction l as [|x l IH]; simpl; [reflexivity|].
  destruct (q x); simpl; [destruct (p x)|]; now rewrite IH.
Qed.

Lemma pyset_add_app s x :
  pyset_add s x = if in_dec text_dec x s then s else s ++ [x].
Proof.
  unfold pyset_add. induction s as [|y s IH]; simpl; [reflexivity|].
  destruct (text_dec x y) as [E|N].
  - subst y. case (text_dec x x); intros; [reflexivity | congruence].
  - destruct (text_dec y x) as [E|N']; [congruence|].
    rewrite IH. now destruct (in_dec text_dec x s).
Qed.

(** Adding the elements of [l] one by one appends the new ones in the
    order of their first occurrence. *)
Lemma pyset_update_first_seen s l :
  pyset_update s l = s ++ filter (not_in s) (first_seen l).
Proof.
  unfold pyset_update. revert s.
  induction l as [|x l IH]; intros s; simpl; [now rewrite app_nil_r|].
  rewrite IH, pyset_add_app, filter_filter. unfold not_in at 2.
  destruct (in_dec text_dec x s) as [Hin|Hout].
  - f_equal. apply filter_ext_in. intros y _. unfold not_in.
    destruct (text_dec y x) as [E|N]; simpl; [|reflexivity].
    subst y. now destruct (in_dec text_dec x s).
  - rewrite <- app_assoc. simpl. do 2 f_equal.
    apply filter_ext_in. intros y _. unfold not_in.
    destruct (text_dec y x) as [E|N]; simpl.
    + subst y. destruct (in_dec text_dec x (s ++ [x])) as [H|H];
        [reflexivity|].
      exfalso. apply H, in_or_app. right. now left.
    + destruct (in_dec text_dec y (s ++ [x])) as [H|H];
        destruct (in_dec text_dec y s) as [H'|H']; try reflexivity; exfalso.
      * apply in_app_or in H. destruct H as [H|[E|[]]]; [tauto | congruence].
      * apply H, in_or_app. now left.
Qed.

Lemma filter_all (A : Type) (p : A -> bool) l :
  (forall x, p x = true) -> filter p l = l.
Proof.
  intros H. induction l as [|x l IH]; simpl; [reflexivity|].
  now rewrite H, IH.
Qed.

Lemma pyset_update_empty l : pyset_update [] l = first_seen l.
Proof.
  rewrite pyset_update_first_seen. simpl. now apply filter_all.
Qed.

Lemma keys_add_class acc cls :
  keys (add_class acc cls) = pyset_add (keys acc) (fst cls).
Proof.
  unfold add_class. rewrite keys_dict_set, pyset_add_app. unfold dict_has.
  destruct (dict_get text_dec acc (fst cls)) as [v|] eqn:E.
  - apply dict_get_In in E. apply (in_map fst) in E. simpl in E.
    destruct (in_dec text_dec (fst cls) (keys acc)); [reflexivity|].
    contradiction.
  - apply dict_get_None in E.
    destruct (in_dec text_dec (fst cls) (keys acc)); [contradiction|].
    reflexivity.
Qed.

Lemma keys_collected_order items acc :
  keys (fold_left add_class items acc) = pyset_update (keys acc) (keys items).
Proof.
  unfold pyset_update. revert acc.
  induction items as [|cls items IH]; intros acc; simpl; [reflexivity|].
  now rewrite IH, keys_add_class.
Qed.

(** ** The output generator: class declarations *)

(** C4, as the code has it. The class declaration lines of the output
    are the lines "@name = [glyphs joined by spaces];" of the merged
    table in the order of the table, and that order is the order in
    which the class names are first met while the masters are parsed in
    sequence; it is not the sorted order of the names. *)
Theorem class_lines_first_seen_order :
  forall (coord : Type) (set_iter : pyset -> list text)
         (masters_data : masters coord),
    let combined_classes := merge_classes set_iter masters_data in
    class_section combined_classes
    = match combined_classes with
      | [] => []
      | _ => txt "# Glyph class definitions"
             :: map (fun entry =>
                       txt "@" ++ fst entry ++ txt " = ["
                       ++ join " " (snd entry) ++ txt "];")
                  combined_classes
             ++ [txt ""]
      end
    /\ keys combined_classes = first_seen (keys (class_items masters_data)).
Proof.
  intros coord set_iter masters_data combined_classes. split.
  - reflexivity.
  - unfold combined_classes, merge_classes.
    rewrite (keys_map (fun s => sorted (set_iter s))).
    rewrite collect_classes_items, keys_collected_order.
    apply pyset_update_empty.
Qed.

(** C4, as the claim has it, fails: a master that declares B before A
    gives the line of B before the line of A. *)
Lemma class_lines_not_sorted_by_name :
  class_section (merge_classes oldest_first scenario_class_order)
  = [txt "# Glyph class definitions"; txt "@B = [x];"; txt "@A = [y];";
     txt ""]
  /\ ~ StronglySorted text_le
         (keys (merge_classes oldest_first scenario_class_order)).
Proof.
  split; [vm_compute; reflexivity|].
  intros H. vm_compute in H. inversion H as [|? ? _ Hall]; subst.
  inversion Hall as [|? ? Hle _]; subst. vm_compute in Hle. discriminate.
Qed.

(** ** The output generator: other feature blocks *)

Lemma fold_other_blocks ms acc :
  fold_left
    (fun acc m =>
       if text_dec (group_str m 1) "kern" then acc
       else pyset_add acc (whole m))
    ms acc
  = fold_left pyset_add
      (map (@whole)
         (filter (fun m => if text_dec (group_str m 1) "kern"
                           then false else true) ms))
      acc.
Proof.
  revert acc. induction ms as [|m ms IH]; intros acc; [reflexivity|].
  cbn [fold_left filter].
  destruct (text_dec (group_str m 1) "kern"); cbn [map fold_left]; apply IH.
Qed.

Lemma other_features_blocks (coord : Type) (masters_data : masters coord) :
  other_features masters_data = first_seen (block_texts masters_data).
Proof.
  rewrite <- pyset_update_empty.
  unfold other_features, block_texts, pyset_update.
  generalize (@nil (list ascii)) as acc.
  induction masters_data as [|e md IH]; intros acc; [reflexivity|].
  cbn [fold_left flat_map].
  rewrite fold_left_app, <- IH, fold_other_blocks. reflexivity.
Qed.

Lemma first_seen_In l x : In x (first_seen l) <-> In x l.
Proof.
  rewrite <- pyset_update_empty, pyset_update_In. simpl. tauto.
Qed.

Lemma first_seen_NoDup l : NoDup (first_seen l).
Proof.
  rewrite <- pyset_update_empty. apply pyset_update_NoDup. constructor.
Qed.

Lemma block_texts_In (coord : Type) (masters_data : masters coord) b :
  In b (block_texts masters_data)
  <-> exists master_name data m,
        In (master_name, data) masters_data
        /\ In m (finditer feature_pattern (features data))
        /\ group_str m 1 <> txt "kern"
        /\ whole m = b.
Proof.
  unfold block_texts. rewrite in_flat_map. split.
  - intros ([mn data] & Hin & Hb). apply in_map_iff in Hb.
    destruct Hb as (m & <- & Hm). apply filter_In in Hm.
    destruct Hm as [Hm Hk]. exists mn, data, m. repeat split; try assumption.
    cbn [snd] in Hk. now destruct (text_dec (group_str m 1) "kern").
  - intros (mn & data & m & Hin & Hm & Hk & <-). exists (mn, data).
    split; [exact Hin|]. apply in_map. apply filter_In. split; [exact Hm|].
    now destruct (text_dec (group_str m 1) "kern").
Qed.

(** C5, as the code has it. The blocks other than [kern] are emitted
    verbatim, each followed by an empty line; every distinct block text
    found in some master is emitted exactly once (the emitted blocks
    are a rearrangement of the distinct texts in first-seen order); the
    order is the iteration order of the set that collects them. *)
Theorem other_blocks_deduplicated :
  forall (coord : Type) (set_iter : pyset -> list text)
         (masters_data : masters coord),
    iteration_order set_iter ->
    let blocks := set_iter (other_features masters_data) in
    other_section set_iter masters_data
    = flat_map (fun block => [block; txt ""]) blocks
    /\ NoDup blocks
    /\ Permutation blocks (first_seen (block_texts masters_data))
    /\ (forall block,
           In block blocks
           <-> exists master_name data m,
                 In (master_name, data) masters_data
                 /\ In m (finditer feature_pattern (features data))
                 /\ group_str m 1 <> txt "kern"
                 /\ whole m = block).
Proof.
  intros coord set_iter masters_data Hiter blocks.
  assert (Hp : Permutation blocks (first_seen (block_texts masters_data))).
  { unfold blocks. rewrite <- other_features_blocks. apply Hiter. }
  split; [reflexivity|]. split; [|split; [exact Hp|]].
  - apply (Permutation_NoDup (Permutation_sym Hp)), first_seen_NoDup.
  - intros b. rewrite <- block_texts_In.
    rewrite <- (first_seen_In (block_texts masters_data)). split.
    + apply Permutation_in, Hp.
    + apply Permutation_in, Permutation_sym, Hp.
Qed.

Lemma other_blocks_deduplicated_example :
  iteration_order newest_first
  /\ other_section newest_first
       [(txt "Light", at_weight 100 liga_block);
        (txt "Bold", at_weight 900 liga_block)]
     = [liga_block; txt ""].
Proof.
  assert (H : iteration_order newest_first)
    by (intros s; apply Permutation_sym, Permutation_rev).
  split; [exact H|].
  destruct (other_blocks_deduplicated
              [(txt "Light", at_weight 100 liga_block);
               (txt "Bold", at_weight 900 liga_block)] H) as [E _].
  rewrite E. vm_compute. reflexivity.
Defined.

(** C5, as the claim has it, fails: under an iteration order that
    yields the last added block first, the blocks of a master that
    holds liga before calt are emitted calt first. *)
Lemma other_blocks_not_first_seen :
  iteration_order newest_first
  /\ first_seen (block_texts scenario_two_blocks) = [liga_block; calt_block]
  /\ other_section newest_first scenario_two_blocks
     = [calt_block; txt ""; liga_block; txt ""]
  /\ other_section newest_first scenario_two_blocks
     <> flat_map (fun block => [block; txt ""])
          (first_seen (block_texts scenario_two_blocks)).
Proof.
  split; [intros s; apply Permutation_sym, Permutation_rev|].
  split; [vm_compute; reflexivity|].
  split; [vm_compute; reflexivity|].
  vm_compute. discriminate.
Qed.

(** ** The class parser: tokens *)

(** C6, as the code has it. For every feature text, the glyph list the
    class parser returns for a class name is the list of the
    whitespace-delimited tokens of the body of a matched declaration of
    that name, in the order of the declaration, a repeated token as
    often as it is written: the parser removes no duplicate. *)
Theorem class_parser_tokens_in_order :
  forall (features_text name : text) (toks : list text),
    dict_get text_dec (parse_glyph_classes features_text) name = Some toks ->
    exists m,
      In m (finditer class_pattern features_text)
      /\ group_str m 1 = name
      /\ tokenises (group_str m 2) toks.
Proof.
  intros features_text name toks H. apply dict_get_In in H.
  apply parse_glyph_classes_In in H. destruct H as (m & Hm & -> & ->).
  exists m. repeat split; [exact Hm|].
  rewrite glyph_tokens_split. apply split_tokenises.
Qed.

Lemma class_parser_tokens_in_order_example :
  exists m,
    In m (finditer class_pattern "@A = [a b a];")
    /\ group_str m 1 = txt "A"
    /\ tokenises (group_str m 2) [txt "a"; txt "b"; txt "a"].
Proof.
  apply (class_parser_tokens_in_order "@A = [a b a];" "A").
  vm_compute. reflexivity.
Defined.

(** C6, as the claim has it, fails: a token written twice is returned
    twice. *)
Lemma class_parser_keeps_duplicates :
  parse_glyph_classes "@A = [a b a];"
  = [(txt "A", [txt "a"; txt "b"; txt "a"])]
  /\ ~ NoDup [txt "a"; txt "b"; txt "a"].
Proof.
  split; [vm_compute; reflexivity|].
  intros H. inversion H as [|? ? Hn _]; subst. apply Hn. simpl. auto.
Qed.

(** ** The numeric value of a kern statement *)

Lemma digit_not_plus c : is_digit c = true -> Ascii.eqb c "+" = false.
Proof. all_chars c. Qed.

Lemma match_at_int s :
  option_map (fun r => group_str (fst r) 1) (match_at int_pattern s)
  = match s with
    | [] => None
    | c :: s' =>
        if is_digit c then Some (c :: take_while is_digit s')
        else if Ascii.eqb c "-" then
          match s' with
          | d :: s'' =>
              if is_digit d then Some (c :: d :: take_while is_digit s'')
              else None
          | [] => None
          end
        else None
    end.
Proof.
  unfold match_at, int_pattern. cbn [run plus rep].
  destruct s as [|c s']; [reflexivity|].
  destruct (is_digit c) eqn:Ec.
  - rewrite (digit_not_minus c Ec). cbn [or_else].
    erewrite rep_greedy_longest by reflexivity.
    cbn [option_map fst]. unfold group_str, group. cbn [caps dict_get].
    destruct (Nat.eq_dec 1 1); [|congruence].
    f_equal.
    rewrite <- (take_drop_while is_digit s') at 1.
    apply (consumed_app (c :: take_while is_digit s')).
  - destruct (Ascii.eqb c "-") eqn:Em; [|reflexivity].
    destruct s' as [|d s'']; [reflexivity|].
    destruct (is_digit d) eqn:Ed; [|reflexivity].
    erewrite rep_greedy_longest by reflexivity.
    cbn [or_else option_map fst]. unfold group_str, group.
    cbn [caps dict_get].
    destruct (Nat.eq_dec 1 1); [|congruence].
    f_equal.
    rewrite <- (take_drop_while is_digit s'') at 1.
    apply (consumed_app (c :: d :: take_while is_digit s'')).
Qed.

(** Group 1 of the search for the integer pattern is the first signed
    integer literal of the text. *)
Lemma search_int_literal v :
  option_map (fun r => group_str (fst r) 1) (search int_pattern v)
  = first_int_literal v.
Proof.
  induction v as [|c s IH].
  - reflexivity.
  - pose proof (match_at_int (c :: s)) as H. cbn [search first_int_literal].
    destruct (match_at int_pattern (c :: s)) as [r|]; cbn [option_map] in *.
    + destruct (is_digit c); [exact H|].
      destruct (Ascii.eqb c "-"); [|discriminate].
      destruct s as [|d s]; [discriminate|].
      destruct (is_digit d); [exact H | discriminate].
    + rewrite IH. destruct (is_digit c); [discriminate|].
      destruct (Ascii.eqb c "-"); [|reflexivity].
      destruct s as [|d s]; [reflexivity|].
      destruct (is_digit d); [discriminate | reflexivity].
Qed.

Lemma digits_val_total ds acc :
  forallb is_digit ds = true -> exists z, digits_val acc ds = Some z.
Proof.
  revert acc. induction ds as [|d ds IH]; intros acc H; simpl in *.
  - now exists acc.
  - apply andb_true_iff in H. destruct H as [-> H]. now apply IH.
Qed.

Lemma filter_forallb (A : Type) (p : A -> bool) l :
  forallb p l = true -> filter p l = l.
Proof.
  induction l as [|x l IH]; cbn [forallb filter]; [reflexivity|].
  intros H. apply andb_true_iff in H. destruct H as [-> H].
  now rewrite IH.
Qed.

(** A first integer literal is a run of digits, after a minus sign or
    not. *)
Lemma first_int_literal_shape v lit :
  first_int_literal v = Some lit ->
  exists d ds, forallb is_digit (d :: ds) = true
               /\ (lit = d :: ds \/ lit = "-"%char :: d :: ds).
Proof.
  induction v as [|c s IH]; [discriminate|]. cbn [first_int_literal].
  destruct (is_digit c) eqn:Ec.
  - intros H. injection H as <-. exists c, (take_while is_digit s).
    split; [|now left]. cbn [forallb]. rewrite Ec. apply take_while_all.
  - destruct (Ascii.eqb c "-") eqn:Em; [|exact IH].
    destruct s as [|d s]; [discriminate|].
    destruct (is_digit d) eqn:Ed; [|exact IH].
    intros H. injection H as <-. apply Ascii.eqb_eq in Em. subst c.
    exists d, (take_while is_digit s).
    split; [|now right]. cbn [forallb]. rewrite Ed. apply take_while_all.
Qed.

Lemma int_of_digits_spec ds :
  forallb is_digit ds = true ->
  if (max_str_digits <? Z.of_nat (length ds))%Z
  then int_of_digits ds = None
  else exists z, int_of_digits ds = Some z.
Proof.
  intros H. unfold int_of_digits.
  destruct (max_str_digits <? Z.of_nat (length ds))%Z; [reflexivity|].
  now apply digits_val_total.
Qed.

(** [int] accepts a first integer literal of at most [max_str_digits]
    digits and raises on a longer one. *)
Lemma py_int_literal v lit :
  first_int_literal v = Some lit ->
  if (max_str_digits <? digit_count lit)%Z
  then py_int lit = None
  else exists z, py_int lit = Some z.
Proof.
  intros H. destruct (first_int_literal_shape _ H) as (d & ds & Hd & [->| ->]).
  - unfold digit_count. rewrite (filter_forallb _ _ Hd).
    pose proof (int_of_digits_spec _ Hd) as Hi.
    assert (Ed : is_digit d = true).
    { cbn [forallb] in Hd. now apply andb_true_iff in Hd. }
    unfold py_int. rewrite (digit_not_minus d Ed), (digit_not_plus d Ed).
    exact Hi.
  - unfold digit_count.
    replace (filter is_digit ("-"%char :: d :: ds))
      with (filter is_digit (d :: ds)) by reflexivity.
    rewrite (filter_forallb _ _ Hd).
    pose proof (int_of_digits_spec _ Hd) as Hi.
    change (py_int ("-"%char :: d :: ds))
      with (option_map Z.opp (int_of_digits (d :: ds))).
    destruct (max_str_digits <? Z.of_nat (length (d :: ds)))%Z.
    + now rewrite Hi.
    + destruct Hi as [z ->]. now exists (- z)%Z.
Qed.

Lemma first_int_literal_None v :
  first_int_literal v = None
  <-> forallb (fun c => negb (is_digit c)) v = true.
Proof.
  induction v as [|c s IH]; [simpl; tauto|]. cbn [first_int_literal forallb].
  destruct (is_digit c) eqn:Ec; cbn [negb andb]; [split; discriminate|].
  destruct (Ascii.eqb c "-"); [|exact IH].
  destruct s as [|d s]; [simpl; tauto|].
  destruct (is_digit d) eqn:Ed; [|exact IH].
  cbn [forallb]. rewrite Ed. split; discriminate.
Qed.

(** What one statement does to [all_kern_pairs]. *)
Lemma add_kern_pair_value master_name all_kern_pairs pair :
  add_kern_pair master_name (Some all_kern_pairs) pair
  = match first_int_literal (value pair) with
    | Some literal =>
        match py_int literal with
        | Some numeric_value =>
            Some (dict_set pair_key_dec all_kern_pairs
                    (glyphs pair, enum pair)
                    (dict_set text_dec
                       (dict_default pair_key_dec all_kern_pairs
                          (glyphs pair, enum pair) [])
                       master_name numeric_value))
        | None => None
        end
    | None => Some all_kern_pairs
    end.
Proof.
  unfold add_kern_pair. rewrite <- search_int_literal.
  destruct (search int_pattern (value pair)) as [[m rest]|]; reflexivity.
Qed.

(** A statement makes the loop raise exactly when its literal is too
    long for [int]. *)
Lemma add_kern_pair_None master_name acc pair :
  add_kern_pair master_name acc pair = None
  <-> acc = None \/ too_long (value pair) = true.
Proof.
  destruct acc as [t|]; [|split; [now left | reflexivity]].
  rewrite add_kern_pair_value. unfold too_long.
  destruct (first_int_literal (value pair)) as [lit|] eqn:E.
  - pose proof (py_int_literal _ E) as Hp.
    destruct (max_str_digits <? digit_count lit)%Z.
    + rewrite Hp. split; [now right | reflexivity].
    + destruct Hp as [z ->].
      split; [discriminate | intros [H|H]; discriminate].
  - split; [discriminate | intros [H|H]; discriminate].
Qed.

Lemma fold_add_kern_pair_None master_name pairs : forall acc,
  fold_left (add_kern_pair master_name) pairs acc = None
  <-> acc = None \/ existsb (fun pair => too_long (value pair)) pairs = true.
Proof.
  induction pairs as [|p ps IH]; intros acc; cbn [fold_left existsb].
  - split; [now left | intros [H|H]; [exact H | discriminate]].
  - rewrite IH, add_kern_pair_None, orb_true_iff. tauto.
Qed.

Lemma collect_from_None (coord : Type) (masters_data : masters coord) :
  forall acc,
    fold_left
      (fun acc entry =>
         fold_left (add_kern_pair (fst entry))
           (parse_kern_pairs (features (snd entry))) acc)
      masters_data acc = None
    <-> acc = None \/ limit_exceeded masters_data = true.
Proof.
  induction masters_data as [|e md IH]; intros acc;
    cbn [fold_left limit_exceeded existsb].
  - split; [now left | intros [H|H]; [exact H | discriminate]].
  - rewrite IH, fold_add_kern_pair_None, orb_true_iff.
    unfold limit_exceeded. tauto.
Qed.

(** The first loop raises exactly when some statement's literal is too
    long for [int]. *)
Lemma collect_kern_pairs_None (coord : Type) (masters_data : masters coord) :
  collect_kern_pairs masters_data = None
  <-> limit_exceeded masters_data = true.
Proof.
  unfold collect_kern_pairs. rewrite collect_from_None.
  split; [intros [H|H]; [discriminate | exact H] | now right].
Qed.

Lemma collect_kern_pairs_total (coord : Type) (masters_data : masters coord) :
  limit_exceeded masters_data = false ->
  exists t, collect_kern_pairs masters_data = Some t.
Proof.
  intros H. destruct (collect_kern_pairs masters_data) as [t|] eqn:E;
    [now exists t|].
  apply collect_kern_pairs_None in E. congruence.
Qed.

(** C8. The value the combiner reads from a kern statement is the
    first signed integer literal of its value text. A statement whose
    value text holds no digit, and so no such literal, leaves the
    merged table as it was and raises nothing. A literal of at most
    4300 digits is accepted by [int] and its value is stored for the
    master under the statement's key; a longer literal makes [int]
    raise, and the combiner with it. The first loop and the combiner
    return a result when no statement of any master holds a literal
    that long, and raise when one does. *)
Theorem kern_statement_without_integer_dropped :
  forall (coord : Type) (str_coord : coord -> text)
         (masters_data : masters coord)
         (master_name : text) (all_kern_pairs : kern_table)
         (pair : kern_pair),
    option_map (fun r => group_str (fst r) 1)
      (search int_pattern (value pair))
    = first_int_literal (value pair)
    /\ (first_int_literal (value pair) = None
        <-> forallb (fun c => negb (is_digit c)) (value pair) = true)
    /\ (first_int_literal (value pair) = None ->
        add_kern_pair master_name (Some all_kern_pairs) pair
        = Some all_kern_pairs)
    /\ (forall literal,
           first_int_literal (value pair) = Some literal ->
           (digit_count literal <= max_str_digits)%Z ->
           exists numeric_value,
             py_int literal = Some numeric_value
             /\ add_kern_pair master_name (Some all_kern_pairs) pair
                = Some (dict_set pair_key_dec all_kern_pairs
                          (glyphs pair, enum pair)
                          (dict_set text_dec
                             (dict_default pair_key_dec all_kern_pairs
                                (glyphs pair, enum pair) [])
                             master_name numeric_value)))
    /\ (forall literal,
           first_int_literal (value pair) = Some literal ->
           (max_str_digits < digit_count literal)%Z ->
           py_int literal = None
           /\ add_kern_pair master_name (Some all_kern_pairs) pair = None)
    /\ (limit_exceeded masters_data = false ->
        (exists table, collect_kern_pairs masters_data = Some table)
        /\ (exists lines,
               combine_kern_features str_coord masters_data = Some lines))
    /\ (limit_exceeded masters_data = true ->
        collect_kern_pairs masters_data = None
        /\ combine_kern_features str_coord masters_data = None).
Proof.
  intros coord str_coord masters_data master_name all_kern_pairs pair.
  split; [apply search_int_literal|].
  split; [apply first_int_literal_None|].
  split.
  { intros H. now rewrite add_kern_pair_value, H. }
  split.
  { intros literal H Hl. pose proof (py_int_literal _ H) as Hp.
    destruct (Z.ltb_spec max_str_digits (digit_count literal)); [lia|].
    destruct Hp as [z Hz].
    exists z. split; [exact Hz|]. now rewrite add_kern_pair_value, H, Hz. }
  split.
  { intros literal H Hl. pose proof (py_int_literal _ H) as Hp.
    destruct (Z.ltb_spec max_str_digits (digit_count literal)); [|lia].
    split; [exact Hp|]. now rewrite add_kern_pair_value, H, Hp. }
  split.
  { intros H. destruct (collect_kern_pairs_total masters_data H) as [t Ht].
    split; [now exists t|].
    unfold combine_kern_features. rewrite Ht. simpl. eauto. }
  intros H. apply collect_kern_pairs_None in H.
  split; [exact H|]. unfold combine_kern_features. now rewrite H.
Qed.

Lemma kern_statement_without_integer_dropped_example :
  add_kern_pair "Bold" (Some [((txt "A V", false), [(txt "Light", (-50)%Z)])])
    (pair_A_V "<none>")
  = Some [((txt "A V", false), [(txt "Light", (-50)%Z)])]
  /\ (exists numeric_value,
         py_int "-80" = Some numeric_value
         /\ add_kern_pair "Bold"
              (Some [((txt "A V", false), [(txt "Light", (-50)%Z)])])
              (pair_A_V "x -80 12")
            = Some (dict_set pair_key_dec
                      [((txt "A V", false), [(txt "Light", (-50)%Z)])]
                      (txt "A V", false)
                      (dict_set text_dec
                         (dict_default pair_key_dec
                            [((txt "A V", false), [(txt "Light", (-50)%Z)])]
                            (txt "A V", false) [])
                         "Bold" numeric_value)))
  /\ (py_int long_literal = None
      /\ add_kern_pair "Bold"
           (Some [((txt "A V", false), [(txt "Light", (-50)%Z)])])
           (pair_A_V long_literal)
         = None)
  /\ (exists lines,
         combine_kern_features str_int scenario_non_numeric = Some lines)
  /\ combine_kern_features str_int scenario_long_literal = None.
Proof.
  destruct (kern_statement_without_integer_dropped str_int
              scenario_non_numeric "Bold"
              [((txt "A V", false), [(txt "Light", (-50)%Z)])]
              (pair_A_V "<none>")) as (_ & _ & H1 & _ & _ & H5 & _).
  destruct (kern_statement_without_integer_dropped str_int
              scenario_long_literal "Bold"
              [((txt "A V", false), [(txt "Light", (-50)%Z)])]
              (pair_A_V "x -80 12")) as (_ & _ & _ & H2 & _ & _ & H6).
  destruct (kern_statement_without_integer_dropped str_int
              scenario_non_numeric "Bold"
              [((txt "A V", false), [(txt "Light", (-50)%Z)])]
              (pair_A_V long_literal)) as (_ & _ & _ & _ & H3 & _).
  split; [apply H1; vm_compute; reflexivity|].
  split; [apply (H2 (txt "-80")); vm_compute; [reflexivity | discriminate]|].
  split; [apply (H3 long_literal); vm_compute; reflexivity|].
  split; [apply H5; vm_compute; reflexivity|].
  apply H6. vm_compute. reflexivity.
Defined.

(** C8, as the claim has it, fails: on a kern value whose integer
    literal has 4301 digits the literal is present, yet [int] raises,
    no numeric value is read, no entry is merged, and neither the
    combiner nor the generator returns a result. *)
Lemma long_integer_literal_raises :
  first_int_literal long_literal = Some long_literal
  /\ py_int long_literal = None
  /\ collect_kern_pairs scenario_long_literal = None
  /\ combine_kern_features str_int scenario_long_literal = None
  /\ generate_variable_features str_int oldest_first scenario_long_literal
     = None.
Proof.
  assert (L : limit_exceeded scenario_long_literal = true)
    by (vm_compute; reflexivity).
  apply collect_kern_pairs_None in L.
  split; [vm_compute; reflexivity|].
  split; [vm_compute; reflexivity|].
  split; [exact L|].
  unfold generate_variable_features, combine_kern_features.
  rewrite L. split; reflexivity.
Qed.

(** C7. Statements are merged under the pair of the glyph
    specification text and the enum flag, compared exactly: two
    statements with numeric values, read from two masters, end in one
    merged entry when their pairs are equal and in two entries
    otherwise. In particular the specifications "A V" and "A  V" of two
    masters give two merged entries and two statements. *)
Theorem kern_key_exact_text :
  (forall (m1 m2 : text) (p1 p2 : kern_pair) (z1 z2 : Z),
      kern_value (value p1) = Some z1 ->
      kern_value (value p2) = Some z2 ->
      add_kern_pair m2 (add_kern_pair m1 (Some []) p1) p2
      = Some (if pair_key_dec (glyphs p2, enum p2) (glyphs p1, enum p1)
              then [((glyphs p1, enum p1), dict_set text_dec [(m1, z1)] m2 z2)]
              else [((glyphs p1, enum p1), [(m1, z1)]);
                    ((glyphs p2, enum p2), [(m2, z2)])]))
  /\ collect_kern_pairs scenario_whitespace
     = Some [((txt "A V", false), [(txt "Light", (-50)%Z)]);
             ((txt "A  V", false), [(txt "Bold", (-80)%Z)])]
  /\ combine_kern_features str_int scenario_whitespace
     = Some [txt "    pos A V (wght=100:-50);";
             txt "    pos A  V (wght=900:-80);"].
Proof.
  split; [|split; vm_compute; reflexivity].
  intros m1 m2 p1 p2 z1 z2 H1 H2. unfold kern_value in *.
  rewrite add_kern_pair_value.
  destruct (first_int_literal (value p1)) as [l1|]; [|discriminate].
  rewrite H1. rewrite add_kern_pair_value.
  destruct (first_int_literal (value p2)) as [l2|]; [|discriminate].
  rewrite H2. unfold dict_default. cbn [dict_set dict_get].
  destruct (pair_key_dec (glyphs p2, enum p2) (glyphs p1, enum p1));
    reflexivity.
Qed.

Lemma kern_key_exact_text_example :
  add_kern_pair "Bold" (add_kern_pair "Light" (Some []) (pair_A_V "-50"))
    (pair_A__V "-80")
  = Some [((txt "A V", false), [(txt "Light", (-50)%Z)]);
          ((txt "A  V", false), [(txt "Bold", (-80)%Z)])].
Proof.
  destruct kern_key_exact_text as [H _].
  rewrite (H "Light" "Bold" (pair_A_V "-50") (pair_A__V "-80")
             (-50)%Z (-80)%Z);
    vm_compute; reflexivity.
Defined.

(** * Further properties *)

(** ** The matcher finds matches only *)

Section MatcherSound.
Variable A : Type.

Lemma rep_greedy_inv p s (k : text -> option A) a :
  rep_greedy p s k = Some a ->
  exists pre post, s = pre ++ post /\ forallb p pre = true /\ k post = Some a.
Proof.
  induction s as [|c s IH]; simpl.
  - intros H. now exists [], [].
  - destruct (p c) eqn:E.
    + destruct (rep_greedy p s k) as [b|] eqn:Er; simpl.
      * intros H. injection H as <-.
        destruct (IH eq_refl) as (pre & post & -> & Hp & Hk).
        exists (c :: pre), post. simpl. now rewrite E, Hp.
      * intros H. now exists [], (c :: s).
    + intros H. now exists [], (c :: s).
Qed.

Lemma rep_lazy_inv p s (k : text -> option A) a :
  rep_lazy p s k = Some a ->
  exists pre post, s = pre ++ post /\ forallb p pre = true /\ k post = Some a.
Proof.
  induction s as [|c s IH]; simpl.
  - destruct (k []) eqn:E; [|discriminate]. intros H. injection H as <-.
    now exists [], [].
  - destruct (k (c :: s)) eqn:E.
    + intros H. injection H as <-. now exists [], (c :: s).
    + destruct (p c) eqn:Ec; [|discriminate]. intros H.
      destruct (IH H) as (pre & post & -> & Hp & Hk).
      exists (c :: pre), post. simpl. now rewrite Ec, Hp.
Qed.

Lemma rep_inv greedy p s (k : text -> option A) a :
  rep greedy p s k = Some a ->
  exists pre post, s = pre ++ post /\ forallb p pre = true /\ k post = Some a.
Proof.
  destruct greedy; [apply rep_greedy_inv | apply rep_lazy_inv].
Qed.

(** Whatever the matcher returns, it returns through a match. *)
Lemma run_sound r : forall s gs (k : groups -> text -> option A) a,
  run r s gs k = Some a ->
  exists w s' gs', s = w ++ s' /\ matches r w gs gs' /\ k gs' s' = Some a.
Proof.
  induction r as [|c|p|r1 IH1 r2 IH2|r IH|greedy least p|n r IH|n];
    intros s gs k a H; cbn [run] in H.
  - exists [], s, gs. repeat split; [constructor | exact H].
  - destruct s as [|x s]; [discriminate|].
    destruct (Ascii.eqb x c) eqn:E; [|discriminate].
    apply Ascii.eqb_eq in E. subst x.
    exists [c], s, gs. repeat split; [constructor | exact H].
  - destruct s as [|x s]; [discriminate|].
    destruct (p x) eqn:E; [|discriminate].
    exists [x], s, gs. repeat split; [now constructor | exact H].
  - apply IH1 in H. destruct H as (w1 & s1 & gs1 & -> & M1 & H).
    apply IH2 in H. destruct H as (w2 & s2 & gs2 & -> & M2 & H).
    exists (w1 ++ w2), s2, gs2. rewrite <- app_assoc.
    repeat split; [econstructor; eauto | exact H].
  - destruct (run r s gs k) as [b|] eqn:E; simpl in H.
    + injection H as <-. apply IH in E.
      destruct E as (w & s' & gs' & -> & M & Hk).
      exists w, s', gs'. repeat split; [now constructor | exact Hk].
    + exists [], s, gs. repeat split; [apply matches_opt_none | exact H].
  - destruct least.
    + destruct s as [|x s]; [discriminate|].
      destruct (p x) eqn:E; [|discriminate].
      apply rep_inv in H. destruct H as (pre & post & -> & Hp & Hk).
      exists (x :: pre), post, gs. repeat split; [|exact Hk].
      constructor; [simpl; now rewrite E, Hp | discriminate].
    + apply rep_inv in H. destruct H as (pre & post & -> & Hp & Hk).
      exists pre, post, gs. repeat split; [|exact Hk].
      constructor; [exact Hp | discriminate].
  - apply IH in H. destruct H as (w & s' & gs' & -> & M & Hk).
    rewrite consumed_app in Hk.
    exists w, s', ((n, w) :: gs'). repeat split; [now constructor | exact Hk].
  - destruct (group gs n) as [t|] eqn:Eg; [|discriminate].
    destruct (starts_with t s) as [s'|] eqn:Es; [|discriminate].
    apply starts_with_spec in Es. subst s.
    exists t, s', gs. repeat split; [now constructor | exact H].
Qed.

End MatcherSound.

Lemma match_at_sound r s m rest :
  match_at r s = Some (m, rest) ->
  s = whole m ++ rest /\ matches r (whole m) [] (caps m).
Proof.
  unfold match_at. intros H. apply run_sound in H.
  destruct H as (w & s' & gs' & -> & M & H). injection H as <- <-.
  cbn [whole caps]. rewrite consumed_app. now split.
Qed.

Lemma search_sound r s m rest :
  search r s = Some (m, rest) ->
  exists pre, s = pre ++ whole m ++ rest /\ matches r (whole m) [] (caps m).
Proof.
  induction s as [|c s IH]; cbn [search].
  - destruct (match_at r []) as [[m0 r0]|] eqn:E; [|discriminate].
    intros H. injection H as -> ->. apply match_at_sound in E.
    destruct E as [E M]. now exists [].
  - destruct (match_at r (c :: s)) as [[m0 r0]|] eqn:E.
    + intros H. injection H as -> ->. apply match_at_sound in E.
      destruct E as [E M]. now exists [].
    + intros H. destruct (IH H) as (pre & -> & M). now exists (c :: pre).
Qed.

(** Every match of a scan is a piece of the scanned text. *)
Lemma finditer_from_sound fuel r : forall s m,
  In m (finditer_from fuel r s) ->
  exists pre post, s = pre ++ whole m ++ post
                   /\ matches r (whole m) [] (caps m).
Proof.
  induction fuel as [|fuel IH]; intros s m; cbn [finditer_from]; [intros []|].
  destruct (search r s) as [[m0 rest]|] eqn:E; [|intros []].
  apply search_sound in E. destruct E as (pre & -> & M).
  intros [<-|Hin]; [now exists pre, rest|].
  apply IH in Hin. destruct Hin as (pre' & post' & E' & M').
  assert (Hr : exists x, rest = x ++ pre' ++ whole m ++ post').
  { destruct (whole m0); [|now exists []].
    destruct rest as [|c rest]; simpl in E'.
    - exists []. exact E'.
    - exists [c]. simpl. now rewrite E'. }
  destruct Hr as (x & ->).
  exists (pre ++ whole m0 ++ x ++ pre'), post'.
  split; [now rewrite <- !app_assoc | exact M'].
Qed.

Lemma matches_min_len r w gs gs' : matches r w gs gs' -> min_len r <= length w.
Proof.
  induction 1 as [| | |r1 r2 w1 w2 gs gs1 gs2 _ IH1 _ IH2| | |g l p w gs Hp Hl| |];
    cbn [min_len]; simpl length; try lia.
  - rewrite length_app. lia.
  - destruct l; [|lia]. destruct w; [now specialize (Hl eq_refl)|simpl; lia].
Qed.

(** A scan with a pattern that holds at least one character never runs
    out of fuel: it returns every successive leftmost match. *)
Lemma finditer_from_scan r : 1 <= min_len r ->
  forall fuel s, length s < fuel -> scan r s (finditer_from fuel r s).
Proof.
  intros Hr. induction fuel as [|fuel IH]; intros s Hf; [inversion Hf|].
  cbn [finditer_from].
  destruct (search r s) as [[m rest]|] eqn:E; [|now constructor].
  pose proof (search_sound _ _ E) as (pre & Es & M).
  apply matches_min_len in M.
  destruct (whole m) as [|c w] eqn:Ew; [simpl in M; lia|].
  apply scan_next with (rest := rest); [exact E | now rewrite Ew |].
  apply IH. subst s. rewrite !length_app in Hf. simpl in Hf. lia.
Qed.

Lemma scan_unique r s ms1 : scan r s ms1 -> forall ms2, scan r s ms2 -> ms1 = ms2.
Proof.
  induction 1 as [s E|s m rest ms E Hne Hs IH]; intros ms2 H2;
    inversion H2 as [s' E'|s' m' rest' ms' E' Hne' Hs']; subst;
    try congruence.
  rewrite E in E'. injection E' as <- <-. f_equal. now apply IH.
Qed.

Lemma finditer_scan_iff r s ms :
  1 <= min_len r -> (scan r s ms <-> finditer r s = ms).
Proof.
  intros Hr. split.
  - intros Hs. eapply scan_unique; [|exact Hs].
    apply finditer_from_scan; [exact Hr | lia].
  - intros <-. apply finditer_from_scan; [exact Hr | lia].
Qed.

(** ** The matcher misses no match *)

Section MatcherComplete.
Variable A : Type.

Lemma rep_greedy_complete p w :
  forallb p w = true ->
  forall rest (k : text -> option A),
    k rest <> None -> rep_greedy p (w ++ rest) k <> None.
Proof.
  induction w as [|c w IH]; intros Hp rest k Hk.
  - cbn [app]. destruct rest as [|c s]; cbn [rep_greedy]; [exact Hk|].
    destruct (p c); [|exact Hk].
    destruct (rep_greedy p s k); cbn [or_else]; [discriminate | exact Hk].
  - cbn [forallb] in Hp. apply andb_true_iff in Hp. destruct Hp as [Hc Hp].
    cbn [app rep_greedy]. rewrite Hc.
    specialize (IH Hp rest k Hk).
    destruct (rep_greedy p (w ++ rest) k); cbn [or_else];
      [discriminate | contradiction].
Qed.

Lemma rep_lazy_complete p w :
  forallb p w = true ->
  forall rest (k : text -> option A),
    k rest <> None -> rep_lazy p (w ++ rest) k <> None.
Proof.
  induction w as [|c w IH]; intros Hp rest k Hk.
  - cbn [app]. destruct rest as [|c s]; cbn [rep_lazy].
    + destruct (k []); [discriminate | contradiction].
    + destruct (k (c :: s)); [discriminate | contradiction].
  - cbn [forallb] in Hp. apply andb_true_iff in Hp. destruct Hp as [Hc Hp].
    cbn [app rep_lazy]. destruct (k (c :: w ++ rest)); [discriminate|].
    rewrite Hc. now apply IH.
Qed.

Lemma rep_complete greedy p w :
  forallb p w = true ->
  forall rest (k : text -> option A),
    k rest <> None -> rep greedy p (w ++ rest) k <> None.
Proof.
  destruct greedy; [apply rep_greedy_complete | apply rep_lazy_complete].
Qed.

(** Where a match exists after which the rest of the expression
    succeeds, the matcher succeeds (through this match or through one
    it tries before). *)
Lemma run_complete r w gs gs' :
  matches r w gs gs' ->
  forall rest (k : groups -> text -> option A),
    k gs' rest <> None -> run r (w ++ rest) gs k <> None.
Proof.
  induction 1 as [gs|c gs|p x gs Hx|r1 r2 w1 w2 gs gs1 gs2 _ IH1 _ IH2
                 |r w gs gs' _ IH|r gs|greedy least p w gs Hp Hl
                 |n r w gs gs' _ IH|n t gs Hg];
    intros rest k Hk; cbn [run].
  - exact Hk.
  - cbn [app]. now rewrite Ascii.eqb_refl.
  - cbn [app]. now rewrite Hx.
  - rewrite <- app_assoc. apply IH1. now apply IH2.
  - specialize (IH rest k Hk).
    destruct (run r (w ++ rest) gs k); cbn [or_else];
      [discriminate | contradiction].
  - cbn [app]. destruct (run r rest gs k); cbn [or_else];
      [discriminate | exact Hk].
  - destruct least.
    + destruct w as [|x w]; [now specialize (Hl eq_refl)|].
      cbn [forallb] in Hp. apply andb_true_iff in Hp.
      destruct Hp as [Hx Hp]. cbn [app]. rewrite Hx.
      now apply rep_complete.
    + now apply rep_complete.
  - apply IH. now rewrite consumed_app.
  - rewrite Hg.
    assert (E : starts_with t (t ++ rest) = Some rest)
      by now apply starts_with_spec.
    now rewrite E.
Qed.

End MatcherComplete.

Lemma match_at_complete r w gs rest :
  matches r w [] gs -> match_at r (w ++ rest) <> None.
Proof.
  intros M. unfold match_at. apply (run_complete M). discriminate.
Qed.

Lemma match_at_None r s : match_at r s = None -> no_match_at r s.
Proof.
  intros H w rest gs -> M. now apply (match_at_complete rest M).
Qed.

(** When the search finds nothing, no position of the text starts a
    match. *)
Lemma search_None r s :
  search r s = None -> forall a b, s = a ++ b -> match_at r b = None.
Proof.
  induction s as [|c s IH]; cbn [search].
  - destruct (match_at r []) as [m|] eqn:E; [discriminate|].
    intros _ a b Hs. symmetry in Hs. apply app_eq_nil in Hs.
    destruct Hs as [_ ->]. exact E.
  - destruct (match_at r (c :: s)) as [m|] eqn:E; [discriminate|].
    intros H [|x a] b Hs; cbn [app] in Hs.
    + now subst b.
    + injection Hs as _ Hs. now apply (IH H a b).
Qed.

(** What the search finds is what the matcher gives at the first
    position where it gives anything. *)
Lemma search_leftmost r s m rest :
  search r s = Some (m, rest) ->
  exists skipped,
    s = skipped ++ whole m ++ rest
    /\ match_at r (whole m ++ rest) = Some (m, rest)
    /\ (forall a b, skipped = a ++ b -> b <> [] ->
                    match_at r (b ++ whole m ++ rest) = None).
Proof.
  assert (Hhere : forall s,
             match_at r s = Some (m, rest) ->
             exists skipped,
               s = skipped ++ whole m ++ rest
               /\ match_at r (whole m ++ rest) = Some (m, rest)
               /\ (forall a b, skipped = a ++ b -> b <> [] ->
                               match_at r (b ++ whole m ++ rest) = None)).
  { intros s0 E. pose proof (match_at_sound _ _ E) as [Es _].
    exists []. split; [exact Es|]. split; [now rewrite <- Es|].
    intros a b Hs Hb. symmetry in Hs. apply app_eq_nil in Hs.
    destruct Hs as [_ ->]. now contradiction Hb. }
  induction s as [|c s IH]; cbn [search].
  - destruct (match_at r []) as [[m0 r0]|] eqn:E; [|discriminate].
    intros H. injection H as -> ->. now apply Hhere.
  - destruct (match_at r (c :: s)) as [[m0 r0]|] eqn:E.
    + intros H. injection H as -> ->. now apply Hhere.
    + intros H. destruct (IH H) as (skipped & Es & Em & Hn).
      exists (c :: skipped). split; [cbn [app]; now rewrite <- Es|].
      split; [exact Em|].
      intros [|x a] b Hs Hb; cbn [app] in Hs.
      * subst b. cbn [app]. now rewrite <- Es.
      * injection Hs as _ Hs. now apply (Hn a b).
Qed.

(** The successive results of the search are the successive leftmost
    matches. *)
Lemma scan_leftmost r s ms : scan r s ms -> leftmost r s ms.
Proof.
  induction 1 as [s E|s m rest ms E Hne _ IH].
  - apply leftmost_end. intros skipped rest Hs.
    apply match_at_None. eapply search_None; eassumption.
  - apply search_leftmost in E. destruct E as (skipped & -> & Em & Hn).
    apply leftmost_next; [|exact Hne| |exact IH].
    + intros a b Hs Hb. apply match_at_None. now apply (Hn a b).
    + apply match_at_sound in Em. now destruct Em.
Qed.

(** X1: the three scans of the source ([re.finditer] with the class
    pattern in [parse_glyph_classes], with the positioning pattern in
    [parse_kern_pairs], with the feature-block pattern in
    [generate_variable_features]) return, for every text, successive
    leftmost matches: every element returned is a non-empty match of
    the pattern, it starts at the first position after the previous
    element where any match of the pattern starts, and no match of the
    pattern starts anywhere after the last element. What a match is
    does not depend on the matcher: it is given by the meaning of the
    expression. The scan misses no match and never stops early,
    whatever the length of the text. *)
Theorem scans_are_complete :
  forall s,
    leftmost class_pattern s (finditer class_pattern s)
    /\ leftmost pos_pattern s (finditer pos_pattern s)
    /\ leftmost feature_pattern s (finditer feature_pattern s).
Proof.
  intros s. repeat split; apply scan_leftmost;
    (apply finditer_from_scan; [vm_compute; lia | lia]).
Qed.

(** ** The shape of a match *)

Lemma matches_seq_inv r1 r2 w gs gs' :
  matches (Seq r1 r2) w gs gs' ->
  exists w1 w2 gs1,
    w = w1 ++ w2 /\ matches r1 w1 gs gs1 /\ matches r2 w2 gs1 gs'.
Proof. inversion 1; subst. eauto 7. Qed.

Lemma matches_lit_inv c w gs gs' :
  matches (Lit c) w gs gs' -> w = [c] /\ gs' = gs.
Proof. inversion 1; subst. auto. Qed.

Lemma matches_eps_inv w gs gs' : matches Eps w gs gs' -> w = [] /\ gs' = gs.
Proof. inversion 1; subst. auto. Qed.

Lemma matches_rep_inv greedy least p w gs gs' :
  matches (Rep greedy least p) w gs gs' ->
  gs' = gs /\ forallb p w = true /\ (least = true -> w <> []).
Proof. inversion 1; subst. auto. Qed.

Lemma matches_grp_inv n r w gs gs' :
  matches (Grp n r) w gs gs' ->
  exists gs0, gs' = (n, w) :: gs0 /\ matches r w gs gs0.
Proof. inversion 1; subst. eauto. Qed.

Lemma matches_ref_inv n w gs gs' :
  matches (Ref n) w gs gs' -> gs' = gs /\ group gs n = Some w.
Proof. inversion 1; subst. auto. Qed.

Lemma matches_opt_inv r w gs gs' :
  matches (Opt r) w gs gs' -> matches r w gs gs' \/ (w = [] /\ gs' = gs).
Proof. inversion 1; subst; auto. Qed.

Lemma matches_lits_inv t w gs gs' :
  matches (lits t) w gs gs' -> w = t /\ gs' = gs.
Proof.
  revert w gs'. induction t as [|c t IH]; intros w gs' H; cbn [lits] in H.
  - now apply matches_eps_inv in H.
  - apply matches_seq_inv in H. destruct H as (w1 & w2 & gs1 & -> & H1 & H2).
    apply matches_lit_inv in H1. destruct H1 as [-> ->].
    apply IH in H2. destruct H2 as [-> ->]. auto.
Qed.

Ltac invert_matches :=
  repeat match goal with
  | H : matches (Seq _ _) _ _ _ |- _ =>
      apply matches_seq_inv in H;
      let w1 := fresh "w" in let w2 := fresh "w" in let g := fresh "gs" in
      let E := fresh "E" in
      destruct H as (w1 & w2 & g & E & ? & ?); try subst
  | H : matches (Lit _) _ _ _ |- _ =>
      apply matches_lit_inv in H; destruct H as [? ?]; try subst
  | H : matches (lits _) _ _ _ |- _ =>
      apply matches_lits_inv in H; destruct H as [? ?]; try subst
  | H : matches (Rep _ _ _) _ _ _ |- _ =>
      apply matches_rep_inv in H; destruct H as (? & ? & ?); try subst
  | H : matches (Grp _ _) _ _ _ |- _ =>
      apply matches_grp_inv in H;
      let g := fresh "gs" in destruct H as (g & ? & ?); try subst
  | H : matches (Ref _) _ _ _ |- _ =>
      apply matches_ref_inv in H; destruct H as [? ?]; try subst
  end.

(** A match of the class pattern. *)
Lemma class_match_shape w gs :
  matches class_pattern w [] gs ->
  exists name ws1 ws2 body,
    w = txt "@" ++ name ++ ws1 ++ txt "=" ++ ws2 ++ txt "[" ++ body
        ++ txt "];"
    /\ gs = [(2, body); (1, name)]
    /\ name <> [] /\ forallb is_name_char name = true
    /\ forallb is_space ws1 = true /\ forallb is_space ws2 = true.
Proof.
  unfold class_pattern, seqs, plus, star, lazy_star. intros H.
  invert_matches.
  match goal with
  | Hn : forallb is_name_char ?n = true,
    H1 : forallb is_space ?a = true, H2 : forallb is_space ?b = true,
    Hb : forallb any_char ?c = true |- _ =>
      exists n, a, b, c; repeat split; solve [auto]
  end.
Qed.

(** A match of the kern block pattern. *)
Lemma kern_match_shape w gs :
  matches kern_pattern w [] gs ->
  exists ws1 ws2 body ws3,
    w = txt "feature" ++ ws1 ++ txt "kern" ++ ws2 ++ txt "{" ++ body
        ++ txt "}" ++ ws3 ++ txt "kern;"
    /\ gs = [(1, body)]
    /\ ws1 <> [] /\ forallb is_space ws1 = true
    /\ forallb is_space ws2 = true /\ forallb is_space ws3 = true.
Proof.
  unfold kern_pattern, seqs, plus, star, lazy_star. intros H.
  invert_matches.
  match goal with
  | H1 : forallb is_space ?a = true, H2 : forallb is_space ?b = true,
    Hb : forallb any_char ?c = true, H3 : forallb is_space ?d = true,
    Hne : true = true -> ?a <> [] |- _ =>
      exists a, b, c, d; repeat split; solve [auto]
  end.
Qed.

(** A match of the pattern of the other feature blocks: the tag after
    [feature] and the tag before the last semicolon are the same. *)
Lemma feature_match_shape w gs :
  matches feature_pattern w [] gs ->
  exists ws1 tag ws2 body ws3,
    w = txt "feature" ++ ws1 ++ tag ++ ws2 ++ txt "{" ++ body
        ++ txt "}" ++ ws3 ++ tag ++ txt ";"
    /\ gs = [(1, tag)]
    /\ ws1 <> [] /\ forallb is_space ws1 = true
    /\ tag <> [] /\ forallb is_word tag = true
    /\ forallb is_space ws2 = true /\ forallb is_space ws3 = true.
Proof.
  unfold feature_pattern, seqs, plus, star, lazy_star. intros H.
  invert_matches.
  match goal with
  | Hg : group _ 1 = Some ?t |- _ =>
      unfold group in Hg; cbn [dict_get] in Hg;
      destruct (Nat.eq_dec 1 1); [|congruence]; injection Hg as <-
  end.
  match goal with
  | H1 : forallb is_space ?a = true, Ht : forallb is_word ?t = true,
    H2 : forallb is_space ?b = true,
    Hb : forallb any_char ?c = true, H3 : forallb is_space ?d = true,
    Hne : true = true -> ?a <> [] |- _ =>
      exists a, t, b, c, d; repeat split; solve [auto]
  end.
Qed.

(** ** Stripping *)

Lemma lstrip_drop_while s : lstrip s = drop_while is_space s.
Proof.
  induction s as [|c s IH]; simpl; [reflexivity|]. now rewrite IH.
Qed.

Lemma lstrip_suffix s : exists w, s = w ++ lstrip s /\ forallb is_space w = true.
Proof.
  exists (take_while is_space s). rewrite lstrip_drop_while.
  split; [symmetry; apply take_drop_while | apply take_while_all].
Qed.

Lemma rstrip_prefix s : exists w, s = rstrip s ++ w /\ forallb is_space w = true.
Proof.
  unfold rstrip. destruct (lstrip_suffix (rev s)) as (w & E & Hw).
  exists (rev w). split.
  - rewrite <- rev_app_distr, <- E. symmetry. apply rev_involutive.
  - apply forallb_forall. intros x Hx. apply in_rev in Hx.
    rewrite forallb_forall in Hw. auto.
Qed.

Lemma lstrip_head s :
  match lstrip s with [] => True | c :: _ => is_space c = false end.
Proof. rewrite lstrip_drop_while. apply drop_while_head. Qed.

Lemma strip_In c s : In c (strip s) -> In c s.
Proof.
  unfold strip. intros H.
  destruct (rstrip_prefix (lstrip s)) as (w & E & _).
  destruct (lstrip_suffix s) as (w' & E' & _).
  rewrite E'. apply in_or_app. right. rewrite E. apply in_or_app. now left.
Qed.

Lemma strip_trimmed s : trimmed (strip s).
Proof.
  unfold trimmed, strip. split.
  - destruct (rstrip_prefix (lstrip s)) as (w & E & _).
    pose proof (lstrip_head s) as H.
    destruct (rstrip (lstrip s)) as [|c t]; [exact I|].
    rewrite E in H. exact H.
  - unfold rstrip. rewrite rev_involutive. apply lstrip_head.
Qed.

Lemma none_of_spec l c : none_of l c = true <-> ~ In c l.
Proof.
  unfold none_of. rewrite negb_true_iff. split.
  - intros H Hin. assert (existsb (Ascii.eqb c) l = true).
    { apply existsb_exists. exists c. split; [exact Hin|apply Ascii.eqb_refl]. }
    congruence.
  - intros H. destruct (existsb (Ascii.eqb c) l) eqn:E; [|reflexivity].
    apply existsb_exists in E. destruct E as (x & Hx & E).
    apply Ascii.eqb_eq in E. subst x. contradiction.
Qed.

Lemma none_of_all l w c :
  forallb (none_of l) w = true -> In c w -> ~ In c l.
Proof.
  intros H Hc. rewrite forallb_forall in H. apply none_of_spec. auto.
Qed.

(** ** The kern parser *)

(** A match of the pattern of positioning statements. *)
Lemma pos_match_fields w gs :
  matches pos_pattern w [] gs ->
  exists g v,
    group gs 2 = Some g /\ group gs 4 = Some v
    /\ forallb (none_of ["("; ";"]%char) g = true
    /\ forallb (none_of [";"]%char) v = true
    /\ (forall c, group gs 3 = Some c -> forallb (none_of [")"]%char) c = true).
Proof.
  unfold pos_pattern, seqs, plus, star, lazy_plus. intros H.
  invert_matches.
  repeat match goal with
  | H : matches (Opt _) _ _ _ |- _ =>
      apply matches_opt_inv in H; destruct H as [H|[? ?]]; try subst;
      invert_matches
  end;
  match goal with
  | Hg : forallb (none_of ["("; ";"]%char) ?g = true,
    Hv : forallb (none_of [";"]%char) ?v = true |- _ =>
      exists g, v; unfold group; cbn [dict_get];
      repeat (match goal with
              | |- context [Nat.eq_dec ?a ?b] =>
                  destruct (Nat.eq_dec a b); try lia
              end);
      repeat split; auto; try discriminate;
      intros c Hc; injection Hc as <-; assumption
  end.
Qed.

Lemma kern_pair_of_fields m :
  matches pos_pattern (whole m) [] (caps m) ->
  let pair := kern_pair_of m in
  trimmed (glyphs pair) /\ trimmed (value pair)
  /\ (forall c, In c (glyphs pair) -> c <> "("%char /\ c <> ";"%char)
  /\ (forall c, In c (value pair) -> c <> ";"%char)
  /\ (forall cond, conditions pair = Some cond -> ~ In ")"%char cond).
Proof.
  intros H. apply pos_match_fields in H.
  destruct H as (g & v & Hg & Hv & Fg & Fv & Fc).
  unfold kern_pair_of, group_str. cbn [glyphs value conditions].
  rewrite Hg, Hv. repeat split; try apply strip_trimmed.
  - intros E. subst c. apply strip_In in H.
    apply (none_of_all _ _ _ Fg H). simpl. auto.
  - intros E. subst c. apply strip_In in H.
    apply (none_of_all _ _ _ Fg H). simpl. auto.
  - intros c Hc E. subst c. apply strip_In in Hc.
    apply (none_of_all _ _ _ Fv Hc). simpl. auto.
  - intros cond Hc Hin. specialize (Fc cond Hc).
    apply (none_of_all _ _ _ Fc Hin). simpl. auto.
Qed.

Lemma rep_lazy_skip (A : Type) p pre post (k : text -> option A) :
  forallb p pre = true ->
  (forall c s', In c pre -> k (c :: s') = None) ->
  rep_lazy p (pre ++ post) k = rep_lazy p post k.
Proof.
  induction pre as [|c pre IH]; intros Hp Hk; [reflexivity|].
  simpl in Hp. apply andb_true_iff in Hp. destruct Hp as [Hc Hp].
  rewrite <- app_comm_cons. cbn [rep_lazy].
  rewrite (Hk c (pre ++ post)) by (simpl; auto). rewrite Hc.
  apply IH; [exact Hp|]. intros d s' Hd. apply Hk. now right.
Qed.

Lemma consumed_eq (s pre s' : text) : s = pre ++ s' -> consumed s s' = pre.
Proof. intros ->. apply consumed_app. Qed.

(** The kern block pattern on a block written as the output generator
    writes it, with a body free of closing braces. *)
Lemma kern_block_match body rest :
  ~ In "}"%char body ->
  match_at kern_pattern
    (txt "feature kern {" ++ body ++ txt "} kern;" ++ rest)
  = Some ({| whole := txt "feature kern {" ++ body ++ txt "} kern;";
             caps := [(1, body)] |}, rest).
Proof.
  intros Hb.
  unfold match_at, kern_pattern, seqs, plus, star, lazy_star.
  cbn -[consumed].
  rewrite rep_lazy_skip.
  - cbn -[consumed]. f_equal. f_equal. f_equal.
    + apply consumed_eq. cbn. rewrite <- app_assoc. reflexivity.
    + f_equal. f_equal. apply consumed_eq. reflexivity.
  - apply forallb_forall. reflexivity.
  - intros c s' Hc. destruct (Ascii.eqb c "}") eqn:E; [|reflexivity].
    apply Ascii.eqb_eq in E. subst c. contradiction.
Qed.

Lemma kern_match_at_not_f c s :
  Ascii.eqb c "f" = false -> match_at kern_pattern (c :: s) = None.
Proof.
  intros H. unfold match_at, kern_pattern, seqs. cbn -[consumed].
  now rewrite H.
Qed.

(** X7: when the text before a block [feature kern { body } kern;]
    holds no letter f and the body holds no closing brace,
    [parse_kern_pairs] returns the positioning statements of that body
    and nothing else: whatever follows the block, further kern blocks
    included, is not read. *)
Theorem first_kern_block_only :
  forall pre body rest : text,
    forallb (fun c => negb (Ascii.eqb c "f")) pre = true ->
    ~ In "}"%char body ->
    parse_kern_pairs
      (pre ++ txt "feature kern {" ++ body ++ txt "} kern;" ++ rest)
    = map kern_pair_of (finditer pos_pattern body).
Proof.
  intros pre body rest Hpre Hb. unfold parse_kern_pairs.
  rewrite search_skip_prefix.
  - rewrite (search_here _ _ (kern_block_match body rest Hb)).
    reflexivity.
  - intros a b -> Hne. destruct b as [|c b]; [congruence|].
    rewrite <- app_comm_cons. apply kern_match_at_not_f.
    rewrite forallb_app in Hpre. apply andb_true_iff in Hpre.
    destruct Hpre as [_ Hpre]. simpl in Hpre.
    apply andb_true_iff in Hpre. destruct Hpre as [Hc _].
    now destruct (Ascii.eqb c "f").
Qed.

Lemma first_kern_block_only_example :
  parse_kern_pairs
    (txt "@A = [x];" ++ txt "feature kern {" ++ txt " pos A V : -50 ; "
     ++ txt "} kern;" ++ txt " feature kern { pos B C : 1; } kern;")
  = [pair_A_V "-50"].
Proof.
  rewrite first_kern_block_only.
  - vm_compute. reflexivity.
  - vm_compute. reflexivity.
  - vm_compute. intros H. repeat (destruct H as [H|H]; [discriminate|]).
    exact H.
Defined.

(** X6: whenever [parse_kern_pairs] returns at least one pair, the
    text contains a block of the form feature, whitespace, kern,
    optional whitespace, an opening brace, a body, a closing brace,
    optional whitespace, kern and a semicolon, and the pairs returned
    are the positioning statements found in that body alone. Statements
    outside a kern block are never returned. *)
Theorem kern_pairs_need_block :
  forall features_text : text,
    parse_kern_pairs features_text <> [] ->
    exists pre ws1 ws2 body ws3 post,
      features_text
      = pre ++ txt "feature" ++ ws1 ++ txt "kern" ++ ws2 ++ txt "{" ++ body
        ++ txt "}" ++ ws3 ++ txt "kern;" ++ post
      /\ ws1 <> [] /\ forallb is_space ws1 = true
      /\ forallb is_space ws2 = true /\ forallb is_space ws3 = true
      /\ parse_kern_pairs features_text
         = map kern_pair_of (finditer pos_pattern body).
Proof.
  intros features_text. unfold parse_kern_pairs.
  destruct (search kern_pattern features_text) as [[m rest]|] eqn:E;
    [|congruence].
  intros _. apply search_sound in E. destruct E as (pre & -> & M).
  apply kern_match_shape in M.
  destruct M as (ws1 & ws2 & body & ws3 & Ew & Eg & H1 & H2 & H3 & H4).
  exists pre, ws1, ws2, body, ws3, rest. rewrite Ew. unfold group_str.
  rewrite Eg. rewrite <- !app_assoc. repeat split; auto.
Qed.

Lemma kern_pairs_need_block_example :
  exists pre ws1 ws2 body ws3 post,
    txt "feature kern { pos A V : -50 ; } kern;"
    = pre ++ txt "feature" ++ ws1 ++ txt "kern" ++ ws2 ++ txt "{" ++ body
      ++ txt "}" ++ ws3 ++ txt "kern;" ++ post
    /\ ws1 <> [] /\ forallb is_space ws1 = true
    /\ forallb is_space ws2 = true /\ forallb is_space ws3 = true
    /\ parse_kern_pairs "feature kern { pos A V : -50 ; } kern;"
       = map kern_pair_of (finditer pos_pattern body).
Proof.
  apply (kern_pairs_need_block "feature kern { pos A V : -50 ; } kern;").
  vm_compute. discriminate.
Defined.

(** X8: in every pair returned by [parse_kern_pairs], the glyph text
    and the value text carry no whitespace at either end, the glyph
    text holds neither an opening parenthesis nor a semicolon, the
    value text holds no semicolon, and the condition text, when there
    is one, holds no closing parenthesis. *)
Theorem kern_pair_fields :
  forall (features_text : text) (pair : kern_pair),
    In pair (parse_kern_pairs features_text) ->
    trimmed (glyphs pair) /\ trimmed (value pair)
    /\ (forall c, In c (glyphs pair) -> c <> "("%char /\ c <> ";"%char)
    /\ (forall c, In c (value pair) -> c <> ";"%char)
    /\ (forall cond, conditions pair = Some cond -> ~ In ")"%char cond).
Proof.
  intros features_text pair. unfold parse_kern_pairs.
  destruct (search kern_pattern features_text) as [[km rest]|]; [|intros []].
  intros H. apply in_map_iff in H. destruct H as (m & <- & Hm).
  apply finditer_from_sound in Hm. destruct Hm as (_ & _ & _ & M).
  now apply kern_pair_of_fields.
Qed.

Lemma kern_pair_fields_example :
  trimmed (txt "A V") /\ trimmed (txt "-50")
  /\ (forall c, In c (txt "A V") -> c <> "("%char /\ c <> ";"%char)
  /\ (forall c, In c (txt "-50") -> c <> ";"%char)
  /\ (forall cond, @None text = Some cond -> ~ In ")"%char cond).
Proof.
  apply (kern_pair_fields "feature kern { pos A V : -50 ; } kern;"
           (pair_A_V "-50")).
  vm_compute. auto.
Defined.

(** ** Texts with nothing to find *)

Lemma nil_of_no_element (A : Type) (l : list A) :
  (forall x, ~ In x l) -> l = [].
Proof. destruct l as [|x l]; [reflexivity|]. intros H. now destruct (H x); left. Qed.

Lemma finditer_without r c s :
  (forall w gs, matches r w [] gs -> In c w) ->
  ~ In c s -> finditer r s = [].
Proof.
  intros Hr Hc. apply nil_of_no_element. intros m Hm.
  apply finditer_from_sound in Hm. destruct Hm as (pre & post & E & M).
  apply Hc. rewrite E. apply in_or_app. right. apply in_or_app. left.
  eapply Hr, M.
Qed.

Lemma search_without r c s :
  (forall w gs, matches r w [] gs -> In c w) ->
  ~ In c s -> search r s = None.
Proof.
  intros Hr Hc. destruct (search r s) as [[m rest]|] eqn:E; [|reflexivity].
  apply search_sound in E. destruct E as (pre & E & M).
  exfalso. apply Hc. rewrite E. apply in_or_app. right. apply in_or_app. left.
  eapply Hr, M.
Qed.

Ltac in_shape := rewrite ?in_app_iff; simpl; tauto.

Lemma class_match_chars w gs c :
  matches class_pattern w [] gs ->
  In c [ "@"; "="; "["; "]"; ";" ]%char -> In c w.
Proof.
  intros M Hc. apply class_match_shape in M.
  destruct M as (name & ws1 & ws2 & body & -> & _).
  simpl in Hc. destruct Hc as [<-|[<-|[<-|[<-|[<-|[]]]]]]; in_shape.
Qed.

Lemma kern_match_chars w gs c :
  matches kern_pattern w [] gs ->
  In c [ "{"; "}"; ";" ]%char -> In c w.
Proof.
  intros M Hc. apply kern_match_shape in M.
  destruct M as (ws1 & ws2 & body & ws3 & -> & _).
  simpl in Hc. destruct Hc as [<-|[<-|[<-|[]]]]; in_shape.
Qed.

Lemma feature_match_chars w gs c :
  matches feature_pattern w [] gs ->
  In c [ "{"; "}"; ";" ]%char -> In c w.
Proof.
  intros M Hc. apply feature_match_shape in M.
  destruct M as (ws1 & tag & ws2 & body & ws3 & -> & _).
  simpl in Hc. destruct Hc as [<-|[<-|[<-|[]]]]; in_shape.
Qed.

Lemma parse_glyph_classes_without features_text c :
  In c [ "@"; "="; "["; "]"; ";" ]%char -> ~ In c features_text ->
  parse_glyph_classes features_text = [].
Proof.
  intros Hc Hn. unfold parse_glyph_classes.
  rewrite (finditer_without (r := class_pattern) c);
    [reflexivity| |exact Hn].
  intros w gs M. now apply (class_match_chars M).
Qed.

(** X2: a text in which one of the characters at-sign, equals sign,
    opening bracket, closing bracket or semicolon does not occur
    declares no class: [parse_glyph_classes] returns the empty
    table. *)
Theorem no_class_without_delimiters :
  forall (features_text : text) (c : ascii),
    In c [ "@"; "="; "["; "]"; ";" ]%char ->
    ~ In c features_text ->
    parse_glyph_classes features_text = [].
Proof. intros. eapply parse_glyph_classes_without; eauto. Qed.

Lemma no_class_without_delimiters_example :
  parse_glyph_classes "@UPPERCASE = [A B C" = [].
Proof.
  apply (@no_class_without_delimiters "@UPPERCASE = [A B C" "]"%char).
  - simpl. tauto.
  - vm_compute. intros H. repeat (destruct H as [H|H]; [discriminate|]).
    exact H.
Defined.

Lemma parse_kern_pairs_without features_text c :
  In c [ "{"; "}"; ";" ]%char -> ~ In c features_text ->
  parse_kern_pairs features_text = [].
Proof.
  intros Hc Hn. unfold parse_kern_pairs.
  rewrite (search_without (r := kern_pattern) c);
    [reflexivity| |exact Hn].
  intros w gs M. now apply (kern_match_chars M).
Qed.

Lemma feature_blocks_without features_text c :
  In c [ "{"; "}"; ";" ]%char -> ~ In c features_text ->
  finditer feature_pattern features_text = [].
Proof.
  intros Hc Hn.
  apply (finditer_without (r := feature_pattern) c); [|exact Hn].
  intros w gs M. now apply (feature_match_chars M).
Qed.

(** ** The other feature blocks *)

(** X12: every block that [generate_variable_features] passes
    through is a contiguous piece of the feature text of some master,
    of the form feature, whitespace, a tag, optional whitespace, an
    opening brace, a body, a closing brace, optional whitespace, the
    same tag again and a semicolon, where the tag is a non-empty word
    other than kern. *)
Theorem other_blocks_are_tagged_pieces :
  forall (coord : Type) (masters_data : masters coord) (block : text),
    In block (other_features masters_data) ->
    exists master_name data pre post ws1 tag ws2 body ws3,
      In (master_name, data) masters_data
      /\ features data = pre ++ block ++ post
      /\ block = txt "feature" ++ ws1 ++ tag ++ ws2 ++ txt "{" ++ body
                 ++ txt "}" ++ ws3 ++ tag ++ txt ";"
      /\ tag <> txt "kern"
      /\ tag <> [] /\ forallb is_word tag = true
      /\ ws1 <> [] /\ forallb is_space ws1 = true
      /\ forallb is_space ws2 = true /\ forallb is_space ws3 = true.
Proof.
  intros coord masters_data block H.
  rewrite other_features_blocks in H.
  apply (proj1 (first_seen_In _ _)) in H.
  apply (proj1 (block_texts_In _ _)) in H. destruct H as (mn & data & m & Hin & Hm & Hk & <-).
  apply finditer_from_sound in Hm. destruct Hm as (pre & post & E & M).
  apply feature_match_shape in M.
  destruct M as (ws1 & tag & ws2 & body & ws3 & Ew & Eg & H1 & H2 & H3 & H4
                 & H5 & H6).
  exists mn, data, pre, post, ws1, tag, ws2, body, ws3.
  unfold group_str in Hk. rewrite Eg in Hk. unfold group in Hk.
  cbn [dict_get] in Hk. destruct (Nat.eq_dec 1 1); [|congruence].
  repeat split; auto.
Qed.

Lemma other_blocks_are_tagged_pieces_example :
  exists master_name data pre post ws1 tag ws2 body ws3,
    In (master_name, data) scenario_two_blocks
    /\ features data = pre ++ liga_block ++ post
    /\ liga_block = txt "feature" ++ ws1 ++ tag ++ ws2 ++ txt "{" ++ body
                    ++ txt "}" ++ ws3 ++ tag ++ txt ";"
    /\ tag <> txt "kern"
    /\ tag <> [] /\ forallb is_word tag = true
    /\ ws1 <> [] /\ forallb is_space ws1 = true
    /\ forallb is_space ws2 = true /\ forallb is_space ws3 = true.
Proof.
  apply (other_blocks_are_tagged_pieces scenario_two_blocks liga_block).
  vm_compute. auto.
Defined.

(** ** The whole output *)

Lemma join_header_more lines :
  join newline (header ++ lines)
  = join newline header
    ++ match lines with [] => [] | _ => newline ++ join newline lines end.
Proof.
  unfold header. destruct lines as [|l lines].
  - now rewrite !app_nil_r.
  - cbn [app]. rewrite !join_cons_cons. cbn [join].
    now rewrite <- !app_assoc.
Qed.

Section Output.
Variable coord : Type.
Variable str_coord : coord -> text.
Variable set_iter : pyset -> list text.
Hypothesis set_iter_lists : iteration_order set_iter.
Variable masters_data : masters coord.

Lemma set_iter_empty : set_iter [] = [].
Proof. apply Permutation_nil, Permutation_sym, set_iter_lists. Qed.

Hypothesis nothing_to_find :
  forall master_name data,
    In (master_name, data) masters_data ->
    ~ In "@"%char (features data) /\ ~ In "{"%char (features data).

Lemma no_content_classes : merge_classes set_iter masters_data = [].
Proof.
  unfold merge_classes. rewrite collect_classes_items.
  replace (class_items masters_data) with (@nil (list ascii * list text));
    [reflexivity|].
  symmetry. unfold class_items. apply flat_map_all_nil.
  intros [mn data] Hin. apply (@parse_glyph_classes_without _ "@"%char).
  - simpl. tauto.
  - now apply (nothing_to_find mn data).
Qed.

Lemma no_content_kern : collect_kern_pairs masters_data = Some [].
Proof.
  unfold collect_kern_pairs.
  apply (fold_left_invariant (fun acc => acc = Some [])); [reflexivity|].
  intros acc [mn data] Hin ->. cbn [fst snd].
  rewrite (@parse_kern_pairs_without _ "{"%char); [reflexivity| |].
  - simpl. tauto.
  - now apply (nothing_to_find mn data).
Qed.

Lemma no_content_blocks : other_features masters_data = [].
Proof.
  rewrite other_features_blocks.
  replace (block_texts masters_data) with (@nil (list ascii));
    [reflexivity|].
  symmetry. unfold block_texts. apply flat_map_all_nil.
  intros [mn data] Hin. cbn [snd].
  rewrite (@feature_blocks_without _ "{"%char); [reflexivity| |].
  - simpl. tauto.
  - now apply (nothing_to_find mn data).
Qed.

Lemma no_content_output :
  generate_variable_features str_coord set_iter masters_data
  = Some (join newline header).
Proof.
  unfold generate_variable_features, combine_kern_features, other_section.
  rewrite no_content_kern, no_content_classes, no_content_blocks,
    set_iter_empty.
  reflexivity.
Qed.

End Output.

(** X13: when no kern statement of any master holds an integer
    literal longer than [int] accepts, the text built by
    [generate_variable_features] exists and starts with the three
    header lines (two comment lines and an empty one); when some
    statement does, the generator raises and builds no text; and when
    no master's feature text holds an at-sign or an opening brace, the
    text is the header and nothing else (no class line, no kern block,
    no other block). *)
Theorem output_is_header_when_nothing_found :
  forall (coord : Type) (str_coord : coord -> text)
         (set_iter : pyset -> list text) (masters_data : masters coord),
    (limit_exceeded masters_data = false ->
     exists rest,
       generate_variable_features str_coord set_iter masters_data
       = Some (join newline header ++ rest))
    /\ (limit_exceeded masters_data = true ->
        generate_variable_features str_coord set_iter masters_data = None)
    /\ (iteration_order set_iter ->
        (forall master_name data,
            In (master_name, data) masters_data ->
            ~ In "@"%char (features data) /\ ~ In "{"%char (features data)) ->
        generate_variable_features str_coord set_iter masters_data
        = Some (join newline header)).
Proof.
  intros coord str_coord set_iter masters_data. split; [|split].
  - intros Hl. unfold generate_variable_features, combine_kern_features.
    destruct (collect_kern_pairs_total masters_data Hl) as [t ->].
    cbn [option_map]. rewrite join_header_more. eauto.
  - intros Hl. apply collect_kern_pairs_None in Hl.
    unfold generate_variable_features, combine_kern_features.
    now rewrite Hl.
  - intros Hi Hn. now apply no_content_output.
Qed.

Lemma output_is_header_when_nothing_found_example :
  (exists rest,
      generate_variable_features str_int oldest_first scenario_light_bold
      = Some (join newline header ++ rest))
  /\ generate_variable_features str_int oldest_first scenario_long_literal
     = None
  /\ generate_variable_features str_int oldest_first
       [(txt "Light", at_weight 100 "# no features");
        (txt "Bold", at_weight 900 "")]
     = Some (join newline header).
Proof.
  destruct (output_is_header_when_nothing_found str_int oldest_first
              scenario_light_bold) as (H1 & _ & _).
  destruct (output_is_header_when_nothing_found str_int oldest_first
              scenario_long_literal) as (_ & H2 & _).
  destruct (output_is_header_when_nothing_found str_int oldest_first
              [(txt "Light", at_weight 100 "# no features");
               (txt "Bold", at_weight 900 "")]) as (_ & _ & H).
  split; [apply H1; vm_compute; reflexivity|].
  split; [apply H2; vm_compute; reflexivity|].
  apply H.
  - intros s. apply Permutation_refl.
  - intros mn data [E|[E|[]]]; injection E as <- <-; split; vm_compute;
      intros H0; repeat (destruct H0 as [H0|H0]; [discriminate|]); exact H0.
Defined.

(** ** The class parser: declarations of one text *)

Lemma keys_dict_set_text (V : Type) (d : dict text V) k v :
  keys (dict_set text_dec d k v) = pyset_add (keys d) k.
Proof.
  rewrite keys_dict_set, pyset_add_app. unfold dict_has.
  destruct (dict_get text_dec d k) as [x|] eqn:E.
  - apply dict_get_In in E. apply (in_map fst) in E. simpl in E.
    destruct (in_dec text_dec k (keys d)); [reflexivity | contradiction].
  - apply dict_get_None in E.
    destruct (in_dec text_dec k (keys d)); [contradiction | reflexivity].
Qed.

Lemma keys_fold_dict_set (A V : Type) (kf : A -> text) (vf : A -> V) l :
  forall acc,
    keys (fold_left (fun d x => dict_set text_dec d (kf x) (vf x)) l acc)
    = pyset_update (keys acc) (map kf l).
Proof.
  unfold pyset_update.
  induction l as [|x l IH]; intros acc; cbn [fold_left map]; [reflexivity|].
  now rewrite IH, keys_dict_set_text.
Qed.

Lemma dict_get_fold_other (A V : Type) (kf : A -> text) (vf : A -> V) l k :
  (forall x, In x l -> kf x <> k) ->
  forall acc,
    dict_get text_dec
      (fold_left (fun d x => dict_set text_dec d (kf x) (vf x)) l acc) k
    = dict_get text_dec acc k.
Proof.
  induction l as [|x l IH]; intros H acc; cbn [fold_left]; [reflexivity|].
  rewrite IH by (intros y Hy; apply H; now right).
  apply dict_get_set_other. intros E. apply (H x); [now left | auto].
Qed.

(** X3: the class names returned by [parse_glyph_classes] are the
    names of the declarations matched in the text, each once, in the
    order of their first declaration; the glyph list stored for a name
    is the token list of the last declaration of that name (a later
    declaration replaces an earlier one and keeps its place). *)
Theorem later_declaration_wins :
  forall features_text : text,
    keys (parse_glyph_classes features_text)
    = first_seen (map (fun m => group_str m 1)
                    (finditer class_pattern features_text))
    /\ (forall ms1 m ms2,
           finditer class_pattern features_text = ms1 ++ m :: ms2 ->
           (forall m', In m' ms2 -> group_str m' 1 <> group_str m 1) ->
           dict_get text_dec (parse_glyph_classes features_text)
             (group_str m 1)
           = Some (glyph_tokens (group_str m 2))).
Proof.
  intros features_text. unfold parse_glyph_classes. split.
  - rewrite (keys_fold_dict_set (fun m => group_str m 1)
               (fun m => glyph_tokens (group_str m 2))).
    apply pyset_update_empty.
  - intros ms1 m ms2 -> Hlast. rewrite fold_left_app. cbn [fold_left].
    rewrite (dict_get_fold_other (fun m => group_str m 1)
               (fun m => glyph_tokens (group_str m 2)) ms2 Hlast).
    apply dict_get_set_same.
Qed.

Lemma later_declaration_wins_example :
  parse_glyph_classes "@A = [x];@B = [y];@A = [z w];"
  = [(txt "A", [txt "z"; txt "w"]); (txt "B", [txt "y"])]
  /\ dict_get text_dec (parse_glyph_classes "@A = [x];@B = [y];@A = [z w];")
       "A"
     = Some [txt "z"; txt "w"].
Proof.
  split; [vm_compute; reflexivity|].
  destruct (later_declaration_wins "@A = [x];@B = [y];@A = [z w];")
    as [_ H].
  assert (E : finditer class_pattern "@A = [x];@B = [y];@A = [z w];"
              = [line_match (txt "A", [txt "x"]);
                 line_match (txt "B", [txt "y"])]
                ++ line_match (txt "A", [txt "z"; txt "w"]) :: [])
    by (vm_compute; reflexivity).
  exact (H _ _ _ E (fun m' F => match F with end)).
Defined.

(** X4: in the table returned by [parse_glyph_classes] no class name
    occurs twice, every name is a non-empty run of ASCII letters,
    digits, underscores and dots, and every glyph token is non-empty,
    free of whitespace and free of the closing bracket-semicolon. *)
Theorem parsed_classes_well_formed :
  forall features_text : text,
    NoDup (keys (parse_glyph_classes features_text))
    /\ (forall name toks,
           dict_get text_dec (parse_glyph_classes features_text) name
           = Some toks ->
           valid_name name /\ Forall valid_token toks).
Proof.
  intros features_text. split; [apply parse_glyph_classes_NoDup|].
  intros name toks H. apply dict_get_In in H.
  now apply parse_glyph_classes_valid in H.
Qed.

Lemma parsed_classes_well_formed_example :
  valid_name (txt "UPPERCASE") /\ Forall valid_token [txt "A"; txt "B"].
Proof.
  destruct (parsed_classes_well_formed "@UPPERCASE = [A B];") as [_ H].
  apply H. vm_compute. reflexivity.
Defined.

(** ** The kern combiner: one master, one key *)

Section DictOverwrite.
Variables K V : Type.
Variable K_dec : forall a b : K, {a = b} + {a <> b}.

Lemma dict_set_twice (d : dict K V) k v1 v2 :
  dict_set K_dec (dict_set K_dec d k v1) k v2 = dict_set K_dec d k v2.
Proof.
  induction d as [|[k0 v0] d IH]; simpl.
  - destruct (K_dec k k); [reflexivity | congruence].
  - destruct (K_dec k k0) as [E|N]; simpl.
    + destruct (K_dec k k0); [reflexivity | congruence].
    + destruct (K_dec k k0); [congruence | now rewrite IH].
Qed.

Lemma dict_default_set (d : dict K V) k v dflt :
  dict_default K_dec (dict_set K_dec d k v) k dflt = v.
Proof. unfold dict_default. now rewrite dict_get_set_same. Qed.

End DictOverwrite.

(** X9: when one master holds two positioning statements with
    numeric values for the same glyph text and the same enum flag, the
    first loop of [combine_kern_features] leaves the table exactly as if
    only the second statement had been there: the later value replaces
    the earlier one. *)
Theorem repeated_statement_last_wins :
  forall (master_name : text) (all_kern_pairs : kern_table)
         (p1 p2 : kern_pair) (z1 z2 : Z),
    kern_value (value p1) = Some z1 ->
    kern_value (value p2) = Some z2 ->
    glyphs p1 = glyphs p2 -> enum p1 = enum p2 ->
    add_kern_pair master_name
      (add_kern_pair master_name (Some all_kern_pairs) p1) p2
    = add_kern_pair master_name (Some all_kern_pairs) p2.
Proof.
  intros mn t p1 p2 z1 z2 H1 H2 Eg Ee. unfold kern_value in *.
  rewrite (add_kern_pair_value mn t p1).
  destruct (first_int_literal (value p1)) as [l1|]; [|discriminate].
  rewrite H1, !add_kern_pair_value.
  destruct (first_int_literal (value p2)) as [l2|]; [|discriminate].
  rewrite H2, Eg, Ee.
  now rewrite dict_default_set, !dict_set_twice.
Qed.

Lemma repeated_statement_last_wins_example :
  add_kern_pair "Light" (add_kern_pair "Light" (Some []) (pair_A_V "-50"))
    (pair_A_V "-70")
  = Some [((txt "A V", false), [(txt "Light", (-70)%Z)])].
Proof.
  transitivity (add_kern_pair "Light" (Some []) (pair_A_V "-70"));
    [|vm_compute; reflexivity].
  apply (@repeated_statement_last_wins "Light" [] (pair_A_V "-50")
           (pair_A_V "-70") (-50)%Z (-70)%Z);
    vm_compute; reflexivity.
Defined.

(** ** The kern combiner: the order of the merged entries *)

Section FirstSeenByFacts.
Variable A : Type.
Variable A_dec : forall a b : A, {a = b} + {a <> b}.

Let add_new (s : list A) (x : A) : list A :=
  if in_dec A_dec x s then s else s ++ [x].

Let fresh (s : list A) (y : A) : bool :=
  if in_dec A_dec y s then false else true.

Lemma fold_add_new_first_seen l : forall s,
  fold_left add_new l s = s ++ filter (fresh s) (first_seen_by A_dec l).
Proof.
  induction l as [|x l IH]; intros s; cbn [fold_left first_seen_by filter].
  - now rewrite app_nil_r.
  - rewrite IH, filter_filter. unfold add_new at 1 2, fresh at 2.
    destruct (in_dec A_dec x s) as [Hin|Hout].
    + f_equal. apply filter_ext_in. intros y _. unfold fresh.
      destruct (A_dec y x) as [E|N]; simpl; [|reflexivity].
      subst y. now destruct (in_dec A_dec x s).
    + rewrite <- app_assoc. simpl. do 2 f_equal.
      apply filter_ext_in. intros y _. unfold fresh.
      destruct (A_dec y x) as [E|N]; simpl.
      * subst y. destruct (in_dec A_dec x (s ++ [x])) as [H|H];
          [reflexivity|].
        exfalso. apply H, in_or_app. right. now left.
      * destruct (in_dec A_dec y (s ++ [x])) as [H|H];
          destruct (in_dec A_dec y s) as [H'|H']; try reflexivity; exfalso.
        -- apply in_app_or in H. destruct H as [H|[E|[]]]; [tauto | congruence].
        -- apply H, in_or_app. now left.
Qed.

Lemma fold_add_new_NoDup l : forall s,
  NoDup s -> NoDup (fold_left add_new l s).
Proof.
  induction l as [|x l IH]; intros s Hs; cbn [fold_left]; [exact Hs|].
  apply IH. unfold add_new. destruct (in_dec A_dec x s); [exact Hs|].
  apply NoDup_app; [exact Hs | repeat constructor; simpl; tauto|].
  intros y Hy [<-|[]]. contradiction.
Qed.

Lemma keys_dict_set_new (V : Type) (d : dict A V) k v :
  keys (dict_set A_dec d k v) = add_new (keys d) k.
Proof.
  rewrite keys_dict_set. unfold add_new, dict_has.
  destruct (dict_get A_dec d k) as [x|] eqn:E.
  - apply dict_get_In in E. apply (in_map fst) in E. simpl in E.
    destruct (in_dec A_dec k (keys d)); [reflexivity | contradiction].
  - apply dict_get_None in E.
    destruct (in_dec A_dec k (keys d)); [contradiction | reflexivity].
Qed.

Lemma first_seen_by_fold l :
  first_seen_by A_dec l = fold_left add_new l [].
Proof.
  rewrite fold_add_new_first_seen. simpl. symmetry. now apply filter_all.
Qed.

End FirstSeenByFacts.

Lemma add_kern_pair_keys master_name t pair t' :
  add_kern_pair master_name (Some t) pair = Some t' ->
  keys t'
  = fold_left (fun s x => if in_dec pair_key_dec x s then s else s ++ [x])
      (numeric_key pair) (keys t).
Proof.
  rewrite add_kern_pair_value. unfold numeric_key, kern_value.
  destruct (first_int_literal (value pair)) as [lit|] eqn:E.
  - destruct (py_int lit) as [z|]; [|discriminate].
    intros H. injection H as <-. cbn [fold_left]. apply keys_dict_set_new.
  - intros H. now injection H as <-.
Qed.

Lemma fold_add_kern_pair_keys master_name pairs : forall t t',
  fold_left (add_kern_pair master_name) pairs (Some t) = Some t' ->
  keys t'
  = fold_left (fun s x => if in_dec pair_key_dec x s then s else s ++ [x])
      (flat_map numeric_key pairs) (keys t).
Proof.
  induction pairs as [|p pairs IH]; intros t t'; cbn [fold_left flat_map].
  - intros H. now injection H as <-.
  - destruct (add_kern_pair master_name (Some t) p) as [t1|] eqn:E1.
    + intros H. rewrite fold_left_app, <- (add_kern_pair_keys _ _ _ E1).
      now apply IH.
    + intros H. exfalso.
      assert (N : fold_left (add_kern_pair master_name) pairs None = None).
      { apply fold_add_kern_pair_None. now left. }
      congruence.
Qed.

Lemma collect_kern_pairs_keys (coord : Type) (masters_data : masters coord) :
  forall t t',
    fold_left
      (fun acc entry =>
         fold_left (add_kern_pair (fst entry))
           (parse_kern_pairs (features (snd entry))) acc)
      masters_data (Some t) = Some t' ->
    keys t'
    = fold_left (fun s x => if in_dec pair_key_dec x s then s else s ++ [x])
        (kern_keys masters_data) (keys t).
Proof.
  induction masters_data as [|e md IH]; intros t t';
    cbn [fold_left kern_keys flat_map].
  - intros H. now injection H as <-.
  - destruct (fold_left (add_kern_pair (fst e))
                (parse_kern_pairs (features (snd e))) (Some t))
      as [t1|] eqn:E1.
    + intros H. rewrite fold_left_app, <- (fold_add_kern_pair_keys _ _ _ E1).
      now apply IH.
    + intros H. exfalso.
      assert (N : fold_left
                    (fun acc entry =>
                       fold_left (add_kern_pair (fst entry))
                         (parse_kern_pairs (features (snd entry))) acc)
                    md None = None).
      { apply collect_from_None. now left. }
      congruence.
Qed.

(** X10: when no kern statement of any master holds an integer
    literal longer than [int] accepts, the first loop of
    [combine_kern_features] ends with a table; its keys are the merge
    keys of the statements with a numeric value, each once, in the
    order in which the masters and their statements first show them;
    and the statements returned are those of this table in that order,
    the entries whose variable value is the bare text 0 left out. *)
Theorem kern_entries_first_seen_order :
  forall (coord : Type) (str_coord : coord -> text)
         (masters_data : masters coord),
    limit_exceeded masters_data = false ->
    exists table,
      collect_kern_pairs masters_data = Some table
      /\ keys table = first_seen_by pair_key_dec (kern_keys masters_data)
      /\ NoDup (keys table)
      /\ combine_kern_features str_coord masters_data
         = Some (flat_map
                   (fun entry =>
                      let variable_value :=
                        format_variable_value str_coord masters_data
                          (snd entry) in
                      if text_dec variable_value "0" then []
                      else [kern_statement (fst entry) variable_value])
                   table).
Proof.
  intros coord str_coord masters_data Hl.
  destruct (collect_kern_pairs_total masters_data Hl) as [t E].
  pose proof (collect_kern_pairs_keys masters_data [] E) as Ek.
  exists t. split; [exact E|]. split; [|split].
  - rewrite first_seen_by_fold. exact Ek.
  - rewrite Ek. apply fold_add_new_NoDup. constructor.
  - unfold combine_kern_features. rewrite E. reflexivity.
Qed.

Lemma kern_entries_first_seen_order_example :
  exists table,
    collect_kern_pairs scenario_whitespace = Some table
    /\ keys table
       = first_seen_by pair_key_dec (kern_keys scenario_whitespace)
    /\ NoDup (keys table)
    /\ combine_kern_features str_int scenario_whitespace
       = Some (flat_map
                 (fun entry =>
                    let variable_value :=
                      format_variable_value str_int scenario_whitespace
                        (snd entry) in
                    if text_dec variable_value "0" then []
                    else [kern_statement (fst entry) variable_value])
                 table).
Proof.
  apply (kern_entries_first_seen_order str_int scenario_whitespace).
  vm_compute. reflexivity.
Defined.

(** ** The class merger: a repeated feature text *)

Lemma dict_ext (K V : Type) (K_dec : forall a b : K, {a = b} + {a <> b})
    (d1 : dict K V) : forall d2 : dict K V,
  NoDup (keys d1) -> keys d1 = keys d2 ->
  (forall k, dict_get K_dec d1 k = dict_get K_dec d2 k) -> d1 = d2.
Proof.
  induction d1 as [|[k1 v1] d1 IH]; intros [|[k2 v2] d2] Hn Hk Hg;
    try discriminate; [reflexivity|].
  simpl in Hk. injection Hk as -> Hk.
  inversion Hn as [|? ? Hnot Hn']; subst.
  pose proof (Hg k2) as Hv. simpl in Hv.
  destruct (K_dec k2 k2) as [_|N]; [|congruence]. injection Hv as ->.
  f_equal. apply IH; [exact Hn' | exact Hk|].
  intros k. specialize (Hg k). simpl in Hg.
  destruct (K_dec k k2) as [->|N]; [|exact Hg].
  assert (H1 : dict_get K_dec d1 k2 = None) by now apply dict_get_None.
  assert (H2 : dict_get K_dec d2 k2 = None).
  { apply dict_get_None. unfold keys in *. now rewrite <- Hk. }
  now rewrite H1, H2.
Qed.

Lemma merged_same_declarations (coord : Type) (set_iter : pyset -> list text)
    (m1 m2 : masters coord) n :
  iteration_order set_iter ->
  (declares m1 n <-> declares m2 n) ->
  (forall g, declared_in m1 n g <-> declared_in m2 n g) ->
  dict_get text_dec (merge_classes set_iter m2) n
  = dict_get text_dec (merge_classes set_iter m1) n.
Proof.
  intros Hi Hd Hg.
  pose proof (merged_declared set_iter m1 n) as D1.
  pose proof (merged_declared set_iter m2 n) as D2.
  unfold dict_has in D1, D2.
  destruct (dict_get text_dec (merge_classes set_iter m1) n) as [l1|] eqn:E1;
    destruct (dict_get text_dec (merge_classes set_iter m2) n) as [l2|] eqn:E2.
  - f_equal.
    destruct (merged_class Hi _ _ E1) as (S1 & N1 & M1).
    destruct (merged_class Hi _ _ E2) as (S2 & N2 & M2).
    apply sorted_unique; try assumption.
    intros g. rewrite M1, M2. symmetry. apply Hg.
  - exfalso. assert (H : declares m2 n) by (apply Hd, D1; reflexivity).
    apply D2 in H. discriminate.
  - exfalso. assert (H : declares m1 n) by (apply Hd, D2; reflexivity).
    apply D1 in H. discriminate.
  - reflexivity.
Qed.

Lemma filter_none (A : Type) (p : A -> bool) l :
  (forall x, In x l -> p x = false) -> filter p l = [].
Proof.
  induction l as [|x l IH]; intros H; simpl; [reflexivity|].
  rewrite (H x) by (simpl; auto). apply IH. intros y Hy. apply H. now right.
Qed.

Lemma first_seen_app_known l l2 :
  (forall x, In x l2 -> In x l) -> first_seen (l ++ l2) = first_seen l.
Proof.
  intros H. rewrite <- !pyset_update_empty. unfold pyset_update.
  rewrite fold_left_app. fold (pyset_update [] l).
  fold (pyset_update (pyset_update [] l) l2).
  rewrite pyset_update_first_seen, filter_none; [apply app_nil_r|].
  intros x Hx. apply (proj1 (first_seen_In _ _)) in Hx. unfold not_in.
  destruct (in_dec text_dec x (pyset_update [] l)) as [_|N]; [reflexivity|].
  exfalso. apply N. apply pyset_update_In. right. auto.
Qed.

Lemma merged_keys (coord : Type) (set_iter : pyset -> list text)
    (masters_data : masters coord) :
  keys (merge_classes set_iter masters_data)
  = first_seen (keys (class_items masters_data)).
Proof.
  unfold merge_classes.
  rewrite (keys_map (fun s => sorted (set_iter s))).
  rewrite collect_classes_items, keys_collected_order.
  apply pyset_update_empty.
Qed.

(** X11: a further master whose feature text equals that of a master
    already present does not change the result of [merge_classes]: the
    merged table, names, order and glyph lists, is the same with and
    without it. *)
Theorem merge_ignores_repeated_text :
  forall (coord : Type) (set_iter : pyset -> list text)
         (masters_data : masters coord)
         (master_name : text) (data : master coord)
         (master_name' : text) (data' : master coord),
    iteration_order set_iter ->
    In (master_name, data) masters_data ->
    features data' = features data ->
    merge_classes set_iter (masters_data ++ [(master_name', data')])
    = merge_classes set_iter masters_data.
Proof.
  intros coord set_iter md mn data mn' data' Hi Hin Ef.
  assert (Hsub : forall p, In p (parse_glyph_classes (features data')) ->
                           In p (class_items md)).
  { intros p Hp. unfold class_items. apply in_flat_map.
    exists (mn, data). split; [exact Hin|]. cbn [snd]. now rewrite <- Ef. }
  symmetry. apply (dict_ext text_dec).
  - apply (proj1 (merged_valid_table md Hi)).
  - rewrite !merged_keys. unfold class_items. rewrite flat_map_app.
    cbn [flat_map snd]. rewrite app_nil_r. unfold keys. rewrite map_app.
    symmetry. apply first_seen_app_known.
    intros x Hx. apply in_map_iff in Hx. destruct Hx as (p & <- & Hp).
    apply in_map. now apply Hsub.
  - intros n. symmetry. apply merged_same_declarations; [exact Hi| |].
    + unfold declares. split.
      * intros (a & d & t & H1 & H2). exists a, d, t. split; [|exact H2].
        apply in_or_app. now left.
      * intros (a & d & t & H1 & H2). apply in_app_or in H1.
        destruct H1 as [H1|[E|[]]]; [now exists a, d, t|].
        injection E as <- <-. exists mn, data, t. split; [exact Hin|].
        now rewrite <- Ef.
    + intros g. unfold declared_in. split.
      * intros (a & d & t & H1 & H2). exists a, d, t. split; [|exact H2].
        apply in_or_app. now left.
      * intros (a & d & t & H1 & H2). apply in_app_or in H1.
        destruct H1 as [H1|[E|[]]]; [now exists a, d, t|].
        injection E as <- <-. exists mn, data, t. split; [exact Hin|].
        now rewrite <- Ef.
Qed.

Lemma merge_ignores_repeated_text_example :
  merge_classes oldest_first
    (scenario_uppercase ++ [(txt "Black", at_weight 1000 "@UPPERCASE = [A B];")])
  = [(txt "UPPERCASE", [txt "A"; txt "B"; txt "C"; txt "D"])].
Proof.
  rewrite (@merge_ignores_repeated_text Z oldest_first scenario_uppercase
             (txt "Light") (at_weight 100 "@UPPERCASE = [A B];")
             (txt "Black") (at_weight 1000 "@UPPERCASE = [A B];")).
  - vm_compute. reflexivity.
  - intros s. apply Permutation_refl.
  - simpl. auto.
  - reflexivity.
Defined.

(** ** Loading the masters *)

Section LoaderFacts.
Variable coord : Type.
Variable path_exists : text -> bool.
Variable font_open : text -> font_result.
Variable beside_designspace : text -> text.

Let load := load_ufo_features (coord := coord) path_exists font_open
              beside_designspace.
Let step := load_source (coord := coord) path_exists font_open
              beside_designspace.
Let reg := registers (coord := coord) path_exists font_open beside_designspace.
Let regs := registered (coord := coord) path_exists font_open
              beside_designspace.

Lemma load_source_loaded (st : loader_state coord) src :
  loaded (step st src)
  = match reg src with
    | Some e => dict_set text_dec (loaded st) (fst e) (snd e)
    | None => loaded st
    end.
Proof.
  unfold step, reg, load_source, registers, load_at.
  destruct (truthy (source_path src)) as [p|];
    destruct (truthy (source_filename src)) as [f|]; try reflexivity;
    match goal with
    | |- context [path_exists ?u] =>
        destruct (path_exists u); [|reflexivity];
        destruct (font_open u); reflexivity
    end.
Qed.

Lemma load_loaded sources : forall st : loader_state coord,
  loaded (load sources st)
  = fold_left (fun d e => dict_set text_dec d (fst e) (snd e))
      (regs sources) (loaded st).
Proof.
  unfold load, regs, load_ufo_features, registered.
  induction sources as [|src sources IH]; intros st;
    cbn [fold_left flat_map]; [reflexivity|].
  rewrite IH, fold_left_app. fold step. rewrite load_source_loaded.
  fold reg. now destruct (reg src).
Qed.

Lemma truthy_nonempty s t : truthy s = Some t -> t <> [].
Proof.
  destruct s as [[|c s]|]; simpl; try discriminate.
  intros H. injection H as <-. discriminate.
Qed.

Lemma registers_key_nonempty src key data :
  reg src = Some (key, data) -> key <> [].
Proof.
  unfold reg, registers.
  destruct (truthy (source_path src)) as [p|] eqn:Ep;
    destruct (truthy (source_filename src)) as [f|] eqn:Ef;
    try discriminate;
    match goal with
    | |- context [path_exists ?u] =>
        destruct (path_exists u); [|discriminate];
        destruct (font_open u); [discriminate|]
    end;
    intros H; injection H as <- _; eauto using truthy_nonempty.
Qed.

End LoaderFacts.

(** X14: a source that [load_ufo_features] cannot use (neither path
    nor filename, a font path that does not exist, or a font that fails
    to open) leaves the registry of masters as it would be without that
    source in the document: the loop goes on with the next source and
    nothing of the unusable one is stored. *)
Theorem unusable_source_is_skipped :
  forall (coord : Type) (path_exists : text -> bool)
         (font_open : text -> font_result)
         (beside_designspace : text -> text)
         (before : list (source coord)) (src : source coord)
         (after : list (source coord)) (st : loader_state coord),
    registers path_exists font_open beside_designspace src = None ->
    loaded (load_ufo_features path_exists font_open beside_designspace
              (before ++ src :: after) st)
    = loaded (load_ufo_features path_exists font_open beside_designspace
                (before ++ after) st).
Proof.
  intros coord pe fo bd before src after st H.
  rewrite !load_loaded. unfold registered.
  rewrite !flat_map_app. cbn [flat_map]. now rewrite H.
Qed.

(** X15: after [load_ufo_features], started on an empty registry,
    the identifiers of the registry are those of the usable sources,
    each once, in the order of their first usable source; no identifier
    is the empty string; and the entry kept for an identifier is that
    of the last usable source with this identifier. *)
Theorem registry_holds_last_source_per_identifier :
  forall (coord : Type) (path_exists : text -> bool)
         (font_open : text -> font_result)
         (beside_designspace : text -> text)
         (sources : list (source coord)),
    let masters_data :=
      loaded (load_ufo_features path_exists font_open beside_designspace
                sources loader_start) in
    let entries :=
      registered path_exists font_open beside_designspace sources in
    keys masters_data = first_seen (keys entries)
    /\ NoDup (keys masters_data)
    /\ (forall key, In key (keys masters_data) -> key <> [])
    /\ (forall earlier key data later,
           entries = earlier ++ (key, data) :: later ->
           ~ In key (keys later) ->
           dict_get text_dec masters_data key = Some data).
Proof.
  intros coord pe fo bd sources masters_data entries.
  assert (E : masters_data
              = fold_left (fun d e => dict_set text_dec d (fst e) (snd e))
                  entries []).
  { unfold masters_data. now rewrite load_loaded. }
  assert (Hk : keys masters_data = first_seen (keys entries)).
  { rewrite E. rewrite (keys_fold_dict_set (@fst text (master coord))
                          (@snd text (master coord))).
    apply pyset_update_empty. }
  split; [exact Hk|]. split; [rewrite Hk; apply first_seen_NoDup|]. split.
  - intros key Hin. rewrite Hk in Hin.
    apply (proj1 (first_seen_In _ _)) in Hin.
    unfold keys in Hin. apply in_map_iff in Hin.
    destruct Hin as ([k d] & <- & Hin). unfold entries, registered in Hin.
    apply in_flat_map in Hin. destruct Hin as (src & _ & Hin).
    destruct (registers pe fo bd src) as [e|] eqn:Er; [|destruct Hin].
    destruct Hin as [->|[]]. now apply registers_key_nonempty in Er.
  - intros earlier key data later He Hl. rewrite E, He, fold_left_app.
    cbn [fold_left fst snd].
    rewrite (dict_get_fold_other (@fst text (master coord))
               (@snd text (master coord)) later).
    + apply dict_get_set_same.
    + intros x Hx Ex. apply Hl. rewrite <- Ex. unfold keys. now apply in_map.
Qed.

Lemma unusable_source_is_skipped_example :
  loaded (load_ufo_features demo_exists demo_open demo_beside
            ([demo_source "Light.ufo" "Light.ufo" 100]
             ++ demo_source "Missing.ufo" "Missing.ufo" 400
                :: [demo_source "Bold.ufo" "Bold.ufo" 900])
            loader_start)
  = [(txt "Light.ufo", at_weight 100 "@A = [x];");
     (txt "Bold.ufo", at_weight 900 "@A = [y];")].
Proof.
  rewrite unusable_source_is_skipped.
  - vm_compute. reflexivity.
  - vm_compute. reflexivity.
Defined.

Lemma registry_holds_last_source_per_identifier_example :
  dict_get text_dec
    (loaded (load_ufo_features demo_exists demo_open demo_beside
               [demo_source "Light.ufo" "Master.ufo" 100;
                demo_source "Broken.ufo" "Broken.ufo" 400;
                demo_source "Bold.ufo" "Master.ufo" 900]
               loader_start))
    "Master.ufo"
  = Some (at_weight 900 "@A = [y];").
Proof.
  destruct (registry_holds_last_source_per_identifier demo_exists demo_open
              demo_beside
              [demo_source "Light.ufo" "Master.ufo" 100;
               demo_source "Broken.ufo" "Broken.ufo" 400;
               demo_source "Bold.ufo" "Master.ufo" 900]) as (_ & _ & _ & H).
  apply (H [(txt "Master.ufo", at_weight 100 "@A = [x];")] _ _ []).
  - vm_compute. reflexivity.
  - simpl. tauto.
Defined.

(** ** The class parser: one declaration in any layout *)

Lemma class_scan_declaration name ws1 ws2 body rest :
  valid_name name ->
  forallb is_space ws1 = true -> forallb is_space ws2 = true ->
  no_close body ->
  class_scan (txt "@" ++ name ++ ws1 ++ txt "=" ++ ws2 ++ txt "[" ++ body
              ++ txt "];" ++ rest)
  = Some ({| whole := txt "@" ++ name ++ ws1 ++ txt "=" ++ ws2 ++ txt "["
                      ++ body ++ txt "];";
             caps := [(2, body); (1, name)] |}, rest).
Proof.
  intros [Hne Hname] H1 H2 Hb.
  change (txt "@" ++ name ++ ws1 ++ txt "=" ++ ws2 ++ txt "[" ++ body
          ++ txt "];" ++ rest)
    with ("@"%char :: name ++ ws1 ++ "="%char :: ws2 ++ "["%char :: body
          ++ txt "];" ++ rest).
  cbn [class_scan]. rewrite Ascii.eqb_refl.
  assert (Hn1 : forall (w : text) t,
             forallb is_space w = true ->
             match w ++ "="%char :: t with
             | [] => True | c :: _ => is_name_char c = false end).
  { intros [|c w] t Hw; [reflexivity|]. simpl in Hw |- *.
    apply andb_true_iff in Hw. destruct Hw as [Hc _].
    destruct (is_name_char c) eqn:E; [|reflexivity].
    apply name_char_not_space in E. congruence. }
  rewrite take_while_app, drop_while_app by (try exact Hname; now apply Hn1).
  destruct name as [|n0 name]; [congruence|].
  rewrite drop_while_app by (try exact H1; reflexivity).
  rewrite Ascii.eqb_refl.
  rewrite drop_while_app by (try exact H2; reflexivity).
  rewrite Ascii.eqb_refl.
  rewrite find_close_first by now apply no_close_bracket.
  f_equal. f_equal. f_equal.
  apply consumed_eq. rewrite <- !app_assoc. reflexivity.
Qed.

Lemma forallb_not_at s :
  ~ In "@"%char s -> forallb (fun c => negb (Ascii.eqb c "@")) s = true.
Proof.
  intros H. apply forallb_forall. intros c Hc.
  destruct (Ascii.eqb c "@") eqn:E; [|reflexivity].
  apply Ascii.eqb_eq in E. subst c. contradiction.
Qed.

(** X5: a text holding one declaration, an at-sign, a valid name,
    optional whitespace, an equals sign, optional whitespace and a
    bracketed body closed by a bracket and a semicolon, with no at-sign
    before or after it, parses to the single class of that name with the
    whitespace-separated tokens of the body, whatever whitespace
    (spaces, tabs, line breaks) lays the declaration out. *)
Theorem declaration_in_any_layout_parsed :
  forall (pre name ws1 ws2 body rest : text) (toks : list text),
    ~ In "@"%char pre -> ~ In "@"%char rest ->
    valid_name name ->
    forallb is_space ws1 = true -> forallb is_space ws2 = true ->
    no_close body -> tokenises body toks ->
    parse_glyph_classes
      (pre ++ txt "@" ++ name ++ ws1 ++ txt "=" ++ ws2 ++ txt "[" ++ body
       ++ txt "];" ++ rest)
    = [(name, toks)].
Proof.
  intros pre name ws1 ws2 body rest toks Hpre Hrest Hn H1 H2 Hb Ht.
  unfold parse_glyph_classes.
  set (m := {| whole := txt "@" ++ name ++ ws1 ++ txt "=" ++ ws2 ++ txt "["
                        ++ body ++ txt "];";
               caps := [(2, body); (1, name)] |}).
  assert (E : finditer class_pattern
                (pre ++ txt "@" ++ name ++ ws1 ++ txt "=" ++ ws2 ++ txt "["
                 ++ body ++ txt "];" ++ rest) = [m]).
  { apply finditer_scan_iff; [vm_compute; lia|].
    apply scan_next with (rest := rest).
    - rewrite search_class_skip by now apply forallb_not_at.
      apply search_here. rewrite class_match_at_scan.
      now apply class_scan_declaration.
    - discriminate.
    - apply scan_end. apply (search_without (r := class_pattern) "@"%char);
        [|exact Hrest].
      intros w gs M. apply (class_match_chars M). simpl. tauto. }
  rewrite E. cbn [fold_left].
  change (group_str m 1) with name. change (group_str m 2) with body.
  rewrite glyph_tokens_split, (tokenises_split Ht). reflexivity.
Qed.

Lemma declaration_in_any_layout_parsed_example :
  parse_glyph_classes
    (txt "# classes " ++ txt "@" ++ txt "UPPERCASE" ++ txt " " ++ txt "="
     ++ newline ++ txt "[" ++ (txt " A" ++ newline ++ txt "  B ") ++ txt "];"
     ++ newline)
  = [(txt "UPPERCASE", [txt "A"; txt "B"])].
Proof.
  apply declaration_in_any_layout_parsed.
  - vm_compute. intros H. repeat (destruct H as [H|H]; [discriminate|]).
    exact H.
  - vm_compute. intros H. repeat (destruct H as [H|H]; [discriminate|]).
    exact H.
  - split; [discriminate | reflexivity].
  - reflexivity.
  - reflexivity.
  - apply (proj2 (no_close_cons _ _)). split; [reflexivity|].
    apply (proj2 (no_close_cons _ _)). split; [reflexivity|].
    apply (proj2 (no_close_cons _ _)). split; [reflexivity|].
    apply (proj2 (no_close_cons _ _)). split; [reflexivity|].
    apply (proj2 (no_close_cons _ _)). split; [reflexivity|].
    apply (proj2 (no_close_cons _ _)). split; [reflexivity|].
    apply (proj2 (no_close_cons _ _)). split; [reflexivity|].
    apply no_close_nil.
  - apply (tokenises_cons (txt " ") (t := txt "A")
             (rest := newline ++ txt "  B ")); try reflexivity;
      [discriminate|].
    apply (tokenises_cons (newline ++ txt "  ") (t := txt "B")
             (rest := txt " ")); try reflexivity; [discriminate|].
    apply tokenises_nil. reflexivity.
Defined.
